(** * TotK-Object-Map: the three text-generation pipelines

    A shallow embedding of
      - generate-named-places.js      (module [NamedPlaces]),
      - generate-object-locations.js  (module [ObjectLocations]),
      - generate-object-inventory.js  (module [ObjectInventory]),
    together with the part of the JavaScript runtime they call
    (module [JS]), followed by the properties of the specification.

    Conventions of the embedding.
      - A JavaScript string is a [string]: a sequence of code units, here
        8-bit ones (the Latin-1 part of UTF-16).  On such strings code-unit
        order and code-point order are the same order.
      - A parsed layer file is the list [Object.values(layerData)]; every
        element is an object whose fields hold what their readers expect
        ([None] stands for a field that is absent or of another type, which
        is what the [typeof]/[Array.isArray] guards test).
      - [Map] and [Set] iterate in insertion order, so they are lists.
      - Reading files is a function from a path to the parsed contents,
        [None] when [fs.existsSync] is false.  Console output is left out. *)

From Stdlib Require Import List String Ascii ZArith QArith Qround Bool Lia.
From Stdlib Require Import Sorted Permutation DecimalString Lqa.
From Stdlib Require Import DecimalZ DecimalPos.
Import ListNotations.
Local Close Scope Q_scope.
Local Open Scope list_scope.
Local Open Scope string_scope.

(* ================================================================== *)
(** ** The JavaScript runtime used by the scripts *)

Module JS.

(** A Number.  Every finite double is a rational; [-0] and [+0] are both
    [Fin 0] (the scripts only print numbers, and both print as "0"). *)
Inductive number : Type :=
| Fin (q : Q)
| NaN
| Infinity
| NegInfinity.

(** The Numbers that [Math.round] returns: integers, or the non-finite
    values, which it passes through. *)
Inductive integral : Type :=
| Int (n : Z)
| INaN
| IInfinity
| INegInfinity.

Definition of_integral (i : integral) : number :=
  match i with
  | Int n => Fin (inject_Z n)
  | INaN => NaN
  | IInfinity => Infinity
  | INegInfinity => NegInfinity
  end.

(** [Math.round(v)]: the integer closest to [v], the one closer to
    +Infinity when two are equally close.  On a finite double this is
    exactly [floor (v + 1/2)]. *)
Definition Math_round (v : number) : integral :=
  match v with
  | Fin q => Int (Qfloor (q + (1 # 2)))
  | NaN => INaN
  | Infinity => IInfinity
  | NegInfinity => INegInfinity
  end.

(** [String(n)] as a template literal does it, for the values
    [Math.round] returns.  Integers print in decimal, all digits written
    out.  JavaScript prints the same digits up to 2^53; above, it prints
    the shortest digits that read back as the same double, padded with
    zeros, and from 1e21 on it uses exponent notation.  Map coordinates
    are far below, and either way different integers print differently. *)
Definition toString (i : integral) : string :=
  match i with
  | Int n => NilZero.string_of_int (Z.to_int n)
  | INaN => "NaN"
  | IInfinity => "Infinity"
  | INegInfinity => "-Infinity"
  end.

(** The line feed of ["\n"]. *)
Definition LF : string := String (ascii_of_nat 10) "".

(** [ls.join(sep)]. *)
Definition join (sep : string) (ls : list string) : string :=
  String.concat sep ls.

(** [s.includes(needle)]. *)
Fixpoint includes (needle s : string) : bool :=
  String.prefix needle s
  || match s with
     | EmptyString => false
     | String _ rest => includes needle rest
     end.

(** [s.split(sep)] for a string separator: the pieces between the
    successive, non-overlapping occurrences of [sep], found left to right.
    [skip] counts the code units of an occurrence still to be passed over,
    [cur] is the piece being built. *)
Fixpoint split_from (sep : string) (skip : nat) (cur s : string)
  : list string :=
  match s with
  | EmptyString => [cur]
  | String c rest =>
      match skip with
      | S k => split_from sep k cur rest
      | O =>
          if String.prefix sep s
          then cur :: split_from sep (String.length sep - 1) "" rest
          else split_from sep 0 (cur ++ String c "")%string rest
      end
  end.

Definition split (sep s : string) : list string :=
  match sep with
  | EmptyString =>
      map (fun c => String c "") (list_ascii_of_string s)
  | _ => split_from sep 0 "" s
  end.

(** White space of [trim] among the 8-bit code units:
    TAB, LF, VT, FF, CR, SPACE and NBSP. *)
Definition isWhiteSpace (c : ascii) : bool :=
  let n := nat_of_ascii c in
  ((9 <=? n) && (n <=? 13))%nat || (n =? 32)%nat || (n =? 160)%nat.

Fixpoint trimStart (s : string) : string :=
  match s with
  | EmptyString => ""
  | String c rest => if isWhiteSpace c then trimStart rest else s
  end.

Fixpoint trimEnd (s : string) : string :=
  match s with
  | EmptyString => ""
  | String c rest =>
      match trimEnd rest with
      | EmptyString => if isWhiteSpace c then "" else String c ""
      | rest' => String c rest'
      end
  end.

Definition trim (s : string) : string := trimEnd (trimStart s).

(** [Array.prototype.sort] is stable.  With a consistent comparator the
    result is the one stable arrangement, whatever the engine's algorithm;
    it is computed here by insertion.  [le a b] stands for
    "the comparator does not put [a] after [b]". *)
Section Sort.
Context {A : Type} (le : A -> A -> bool).

Fixpoint insert (a : A) (l : list A) : list A :=
    match l with
    | [] => [a]
    | b :: l' => if le a b then a :: l else b :: insert a l'
    end.

Fixpoint sort (l : list A) : list A :=
    match l with
    | [] => []
    | a :: l' => insert a (sort l')
    end.
End Sort.

(** [arr.sort(cmp)] for a comparator returning a number. *)
Definition sortBy {A : Type} (cmp : A -> A -> Z) (l : list A) : list A :=
  sort (fun a b => (cmp a b <=? 0)%Z) l.

(** [arr.sort()] on strings: ascending code-unit order. *)
Definition sortDefault (l : list string) : list string :=
  sort String.leb l.

(** A [Map] with string keys: the entries in insertion order, each key
    once. *)
Module Map.
Section Map.
Context {V : Type}.

Definition t := list (string * V).

Fixpoint get (k : string) (m : t) : option V :=
    match m with
    | [] => None
    | (k', v) :: m' => if (k' =? k)%string then Some v else get k m'
    end.

Definition has (k : string) (m : t) : bool :=
    match get k m with Some _ => true | None => false end.

  (** [m.set(k, v)]: an existing key keeps its position. *)
Fixpoint set (k : string) (v : V) (m : t) : t :=
    match m with
    | [] => [(k, v)]
    | (k', v') :: m' =>
        if (k' =? k)%string then (k, v) :: m' else (k', v') :: set k v m'
    end.

Definition keys (m : t) : list string := map fst m.
Definition values (m : t) : list V := map snd m.
End Map.
Arguments t : clear implicits.
End Map.

(** A [Set] of strings: the members in insertion order. *)
Module StrSet.
Definition t := list string.

Definition has (s : string) (m : t) : bool :=
    existsb (fun s' => (s' =? s)%string) m.

Definition add (s : string) (m : t) : t :=
  if has s m then m else (m ++ [s])%list.
End StrSet.

(** *** A stand-in for the host's collation

    [String.prototype.localeCompare] belongs to the engine (ICU), not to
    this repository; the pipelines below take it as a parameter.  For closed
    examples we use the order that ICU's root collation gives to words
    written in ASCII letters: alphabetical without regard to case first
    and, between words that differ in case only, lowercase first at the
    first difference ("a" < "A" < "b" < "B").  Other code units are ranked
    by their number, which is only an approximation of ICU. *)
Definition foldCase (c : ascii) : ascii :=
  let n := nat_of_ascii c in
  if ((65 <=? n) && (n <=? 90))%nat then ascii_of_nat (n + 32) else c.

Fixpoint foldCases (s : string) : string :=
  match s with
  | EmptyString => ""
  | String c rest => String (foldCase c) (foldCases rest)
  end.

Definition localeCompare_letters (a b : string) : Z :=
  match String.compare (foldCases a) (foldCases b) with
  | Lt => -1
  | Gt => 1
  | Eq =>
      match String.compare a b with
      | Lt => 1
      | Gt => -1
      | Eq => 0
      end
  end%Z.

End JS.

(* ================================================================== *)
(** ** The input records *)

(** One element of a record's [locations] array, each field after the
    conversion to Number that [Math.round] applies to its argument. *)
Module RawLocation.
Record t : Type := mk { x : JS.number; y : JS.number; z : JS.number }.
End RawLocation.

(** One value of a layer file.  [type] and [name] are [Some] when they are
    strings, [locations] and [icons] when they are arrays. *)
Module SourceRecord.
Record t : Type := mk {
  type : option string;
  name : option string;
  locations : option (list RawLocation.t);
  icons : option (list string)
}.
End SourceRecord.

Definition LayerData : Type := list SourceRecord.t.

(** The file system as the scripts see it: [existsSync] and the parsed
    contents of [readFileSync]. *)
Definition FileSystem : Type := string -> option LayerData.

(* ================================================================== *)
(** ** generate-named-places.js *)

Module NamedPlaces.

Definition sourceFiles : list string :=
  [ "data/v1.2.0/layers/sky.json";
    "data/v1.2.0/layers/surface.json";
    "data/v1.2.0/layers/cave.json";
    "data/v1.2.0/layers/depths.json" ].

Module Stats.
Record t : Type := mk { files : nat; places : nat; points : nat; launches : nat }.
Definition zero : t := mk 0 0 0 0.
End Stats.

(** class Point *)
Module Point.
Record t : Type := mk { y : JS.integral; x : JS.integral; z : JS.integral }.

(** constructor({ x, y, z }) *)
Definition new (x0 y0 z0 : JS.number) : t :=
  {| y := JS.Math_round y0;
     x := JS.Math_round x0;
     z := JS.Math_round z0 |}.

Definition ofLocation (loc : RawLocation.t) : t :=
  new (RawLocation.x loc) (RawLocation.y loc) (RawLocation.z loc).

Definition toString (p : t) : string :=
  "(" ++ JS.toString (y p) ++ "," ++ JS.toString (x p) ++ ","
      ++ JS.toString (z p) ++ ")".
End Point.

(** class Place; [points] is the Set in insertion order. *)
Module Place.
Record t : Type := mk { layer : string; name : string; points : list Point.t }.

Definition new (layer0 name0 : string) : t := mk layer0 name0 [].

Definition path (p : t) : string := layer p ++ "/" ++ name p.

(** [[...this.points].some(p => p.toString() === point.toString())] *)
Definition holds (pts : list Point.t) (point : Point.t) : bool :=
  existsb (fun p => (Point.toString p =? Point.toString point)%string) pts.

(** add(...points): the place after the call and the returned count. *)
Fixpoint add (place : t) (pts : list Point.t) : t * nat :=
  match pts with
  | [] => (place, 0)
  | point :: rest =>
      if holds (points place) point
      then add place rest
      else
        let '(place', count) :=
          add (mk (layer place) (name place) (points place ++ [point])%list) rest in
        (place', S count)
  end.

Definition toLine (p : t) : string :=
  path p ++ " " ++ JS.join " " (map Point.toString (points p)).
End Place.

Definition launchHeights : JS.Map.t Z :=
  [ ("Eldin Canyon Skyview Tower", 1366);
    ("Gerudo Canyon Skyview Tower", 1453);
    ("Gerudo Highlands Skyview Tower", 1054);
    ("Hyrule Field Skyview Tower", 754);
    ("Lindor's Brow Skyview Tower", 1053);
    ("Lookout Landing Skyview Tower", 754);
    ("Mount Lanayru Skyview Tower", 1453);
    ("Pikida Stonegrove Skyview Tower", 1054);
    ("Popla Foothills Skyview Tower", 754);
    ("Rospro Pass Skyview Tower", 1053);
    ("Sahasra Slope Skyview Tower", 754);
    ("Thyphlo Ruins Skyview Tower", 754);
    ("Upland Zorana Skyview Tower", 1053) ]%Z.

Definition isTower (place : Place.t) : bool :=
  (Place.layer place =? "Surface")%string
  && JS.includes "Skyview Tower" (Place.name place)
  && JS.Map.has (Place.name place) launchHeights.

(** checkTower(place, stats).  [const [base] = place.points] takes the
    first point in insertion order; it is [undefined] on an empty set. *)
Definition checkTower (place : Place.t) (stats : Stats.t)
  : Place.t * Stats.t :=
  if negb (isTower place) then (place, stats)
  else
    match JS.Map.get (Place.name place) launchHeights with
    | None => (place, stats)
    | Some z =>
        match Place.points place with
        | [] => (place, stats)
        | base :: _ =>
            let launch :=
              Point.new (JS.of_integral (Point.x base))
                        (JS.of_integral (Point.y base))
                        (JS.Fin (inject_Z z)) in
            let '(place', count) := Place.add place [launch] in
            match count with
            | O => (place', stats)
            | S _ =>
                (place',
                 Stats.mk (Stats.files stats) (Stats.places stats)
                          (S (Stats.points stats))
                          (S (Stats.launches stats)))
            end
        end
    end.

(** getOrCreatePlace(layer, name, places): the map after the call and the
    Place it returns. *)
Definition getOrCreatePlace (layer name : string) (places : JS.Map.t Place.t)
  : JS.Map.t Place.t * Place.t :=
  let path := layer ++ "/" ++ name in
  let places' :=
    if negb (JS.Map.has path places)
    then JS.Map.set path (Place.new layer name) places
    else places in
  match JS.Map.get path places' with
  | Some place => (places', place)
  | None => (places', Place.new layer name)
  end.

Definition isNamedPlace (entry : SourceRecord.t) : bool :=
  match SourceRecord.type entry, SourceRecord.name entry,
        SourceRecord.locations entry with
  | Some ty, Some name, Some locations =>
      ((ty =? "LocationArea")%string || (ty =? "LocationMarker")%string)
      && negb (JS.trim name =? "")%string
      && (0 <? List.length locations)%nat
  | _, _, _ => false
  end.

Definition getLayerFromPath (path : string) : string :=
  if JS.includes "depths" path then "Depths"
  else if JS.includes "sky" path then "Sky"
  else if JS.includes "cave" path then "Cave"
  else "Surface".

(** The Place handed to [checkTower] for a qualifying entry: the one
    fetched or created, after [place.add(...points)]. *)
Definition placeBeforeTower (layerName name : string)
    (locations : list RawLocation.t) (places : JS.Map.t Place.t)
  : JS.Map.t Place.t * Place.t * nat :=
  let '(places1, place) := getOrCreatePlace layerName name places in
  let points := map Point.ofLocation locations in
  let '(place1, count) := Place.add place points in
  (places1, place1, count).

(** The body of the loop of [processEntries].  A Place is an object shared
    with the Map, so what the body does to [place] is stored back under the
    place's key. *)
Definition processEntry (layerName : string) (entry : SourceRecord.t)
    (st : JS.Map.t Place.t * Stats.t) : JS.Map.t Place.t * Stats.t :=
  let '(places, stats) := st in
  if negb (isNamedPlace entry) then st
  else
    match SourceRecord.name entry, SourceRecord.locations entry with
    | Some rawName, Some locations =>
        let name := JS.trim rawName in
        let '(places1, place1, count) :=
          placeBeforeTower layerName name locations places in
        let stats1 :=
          Stats.mk (Stats.files stats) (Stats.places stats)
                   (Stats.points stats + count) (Stats.launches stats) in
        let '(place2, stats2) := checkTower place1 stats1 in
        (JS.Map.set (layerName ++ "/" ++ name) place2 places1,
         Stats.mk (Stats.files stats2) (S (Stats.places stats2))
                  (Stats.points stats2) (Stats.launches stats2))
    | _, _ => st
    end.

Definition processEntries (layerName : string) (layerData : LayerData)
    (st : JS.Map.t Place.t * Stats.t) : JS.Map.t Place.t * Stats.t :=
  fold_left (fun st entry => processEntry layerName entry st) layerData st.

Section Main.
Variable localeCompare : string -> string -> Z.

(** The first loop of [main]: all source files folded into [places]. *)
Definition readFile (fs : FileSystem)
    (st : JS.Map.t Place.t * Stats.t) (filePath : string)
  : JS.Map.t Place.t * Stats.t :=
  match fs filePath with
  | None => st
  | Some layerData =>
      let layerName := getLayerFromPath filePath in
      let '(places, stats) := processEntries layerName layerData st in
      (places,
       Stats.mk (S (Stats.files stats)) (Stats.places stats)
                (Stats.points stats) (Stats.launches stats))
  end.

Definition aggregate (fs : FileSystem) : JS.Map.t Place.t * Stats.t :=
  fold_left (readFile fs) sourceFiles ([], Stats.zero).

(** [[...places.values()].sort((a, b) => a.path.localeCompare(b.path))] *)
Definition sortedPlaces (fs : FileSystem) : list Place.t :=
  JS.sortBy (fun a b => localeCompare (Place.path a) (Place.path b))
            (JS.Map.values (fst (aggregate fs))).

(** The array [output] of [main]. *)
Definition output (fs : FileSystem) : list string :=
  map Place.toLine (sortedPlaces fs).

(** The text written to data-named-places.txt. *)
Definition main (fs : FileSystem) : string :=
  JS.join JS.LF (output fs) ++ JS.LF.
End Main.

End NamedPlaces.

(* ================================================================== *)
(** ** generate-object-locations.js *)

Module ObjectLocations.

Definition sourceFiles : list string :=
  [ "data/v1.2.0/layers/sky.json";
    "data/v1.2.0/layers/surface.json";
    "data/v1.2.0/layers/cave.json";
    "data/v1.2.0/layers/depths.json" ].

Definition formatPoint (loc : RawLocation.t) : string :=
  "(" ++ JS.toString (JS.Math_round (RawLocation.y loc)) ++ ","
      ++ JS.toString (JS.Math_round (RawLocation.x loc)) ++ ","
      ++ JS.toString (JS.Math_round (RawLocation.z loc)) ++ ")".

Definition isValidRecord (obj : SourceRecord.t) : bool :=
  match SourceRecord.name obj, SourceRecord.locations obj with
  | Some name, Some locations =>
      (0 <? String.length name)%nat && (0 <? List.length locations)%nat
  | _, _ => false
  end.

(** The body of [for (const label of labels)]: the label's Set, or a new
    one, receives every element of [coords] and is stored under the
    label. *)
Definition addLabel (coords : list string)
    (st : JS.Map.t JS.StrSet.t * nat) (label : string)
  : JS.Map.t JS.StrSet.t * nat :=
  let '(objectMap, added) := st in
  let set0 :=
    match JS.Map.get label objectMap with
    | Some s => s
    | None => []
    end in
  let set1 := fold_left (fun s pt => JS.StrSet.add pt s) coords set0 in
  (JS.Map.set label set1 objectMap, S added).

(** The body of [for (const obj of Object.values(layerData))]. *)
Definition extractEntry (st : JS.Map.t JS.StrSet.t * nat)
    (obj : SourceRecord.t) : JS.Map.t JS.StrSet.t * nat :=
  if negb (isValidRecord obj) then st
  else
    match SourceRecord.name obj, SourceRecord.locations obj with
    | Some name, Some locations =>
        let labels := JS.split " : " name in
        let coords := map formatPoint locations in
        fold_left (addLabel coords) labels st
    | _, _ => st
    end.

(** extractEntries(layerData, objectMap): the map after the call and the
    returned count. *)
Definition extractEntries (layerData : LayerData)
    (objectMap : JS.Map.t JS.StrSet.t) : JS.Map.t JS.StrSet.t * nat :=
  fold_left extractEntry layerData (objectMap, 0).

Definition toLine (entry : string * JS.StrSet.t) : string :=
  let '(name, points) := entry in name ++ " " ++ JS.join " " points.

Section Main.
Variable localeCompare : string -> string -> Z.

Definition readFile (fs : FileSystem) (objects : JS.Map.t JS.StrSet.t)
    (file : string) : JS.Map.t JS.StrSet.t :=
  match fs file with
  | None => objects
  | Some data => fst (extractEntries data objects)
  end.

(** The Map [objects] when the loop over the source files is over. *)
Definition aggregate (fs : FileSystem) : JS.Map.t JS.StrSet.t :=
  fold_left (readFile fs) sourceFiles [].

(** [[...objects.entries()].sort(([a], [b]) => a.localeCompare(b))] *)
Definition sortedEntries (fs : FileSystem) : list (string * JS.StrSet.t) :=
  JS.sortBy (fun a b => localeCompare (fst a) (fst b)) (aggregate fs).

(** The array [lines] of [main]. *)
Definition lines (fs : FileSystem) : list string :=
  map toLine (sortedEntries fs).

(** The text written to data-object-locations.txt. *)
Definition main (fs : FileSystem) : string :=
  JS.join JS.LF (lines fs) ++ JS.LF.
End Main.

End ObjectLocations.

(* ================================================================== *)
(** ** generate-object-inventory.js *)

Module ObjectInventory.

Definition sourceFiles : list string :=
  [ "data/v1.2.0/layers/sky.json";
    "data/v1.2.0/layers/surface.json";
    "data/v1.2.0/layers/cave.json";
    "data/v1.2.0/layers/depths.json" ].

(** class ObjectComponent *)
Module ObjectComponent.
Record t : Type := mk { icon : string; label : string }.

(** static from(iconRaw, labelRaw) *)
Definition from (iconRaw labelRaw : string) : t :=
  let segments :=
    filter (fun s => negb (s =? "Icon") && negb (s =? "Tag"))
           (JS.split "_" iconRaw) in
  mk (JS.join "/" segments) labelRaw.

Definition toString (c : t) : string := icon c ++ "/" ++ label c.
End ObjectComponent.

Definition isValidRecord (obj : SourceRecord.t) : bool :=
  match SourceRecord.name obj, SourceRecord.icons obj with
  | Some name, Some icons =>
      (0 <? String.length name)%nat && (0 <? List.length icons)%nat
  | _, _ => false
  end.

(** The body of [for (let i = 0; i < labels.length; i++)].  The loop runs
    only when both arrays have the same length, so [icons[i]] and
    [labels[i]] exist. *)
Definition addLine (icons labels : list string)
    (st : JS.StrSet.t * nat) (i : nat) : JS.StrSet.t * nat :=
  let '(outputSet, added) := st in
  let line :=
    ObjectComponent.toString
      (ObjectComponent.from (nth i icons "") (nth i labels "")) in
  (JS.StrSet.add line outputSet, S added).

(** The body of [for (const obj of Object.values(layerData))]. *)
Definition extractEntry (st : JS.StrSet.t * nat) (obj : SourceRecord.t)
  : JS.StrSet.t * nat :=
  if negb (isValidRecord obj) then st
  else
    match SourceRecord.name obj, SourceRecord.icons obj with
    | Some name, Some icons =>
        let labels := JS.split " : " name in
        if negb (List.length labels =? List.length icons)%nat then st
        else fold_left (addLine icons labels)
                       (seq 0 (List.length labels)) st
    | _, _ => st
    end.

(** extractEntries(layerData, outputSet): the set after the call and the
    returned count. *)
Definition extractEntries (layerData : LayerData) (outputSet : JS.StrSet.t)
  : JS.StrSet.t * nat :=
  fold_left extractEntry layerData (outputSet, 0).

Definition readFile (fs : FileSystem) (lines : JS.StrSet.t) (file : string)
  : JS.StrSet.t :=
  match fs file with
  | None => lines
  | Some data => fst (extractEntries data lines)
  end.

(** The Set [lines] when the loop over the source files is over. *)
Definition aggregate (fs : FileSystem) : JS.StrSet.t :=
  fold_left (readFile fs) sourceFiles [].

(** [[...lines].sort()] *)
Definition sorted (fs : FileSystem) : list string :=
  JS.sortDefault (aggregate fs).

(** The text written to data-object-inventory.txt. *)
Definition main (fs : FileSystem) : string :=
  JS.join JS.LF (sorted fs) ++ JS.LF.

End ObjectInventory.

(* ================================================================== *)
(** ** Notions used to state the properties *)

(** The file system [fs] with [file] holding [data]. *)
Definition withFile (fs : FileSystem) (file : string) (data : LayerData)
  : FileSystem :=
  fun p => if (p =? file)%string then Some data else fs p.

(** A file system holding only [file]. *)
Definition onlyFile (file : string) (data : LayerData) : FileSystem :=
  withFile (fun _ => None) file data.

(** The two rounding rules the specification names (section 4.1), written
    from its words, to be compared with [JS.Math_round]. *)
Definition roundHalfAwayFromZero (q : Q) : Z :=
  if Qle_bool 0 q then Qfloor (q + (1 # 2))%Q else Qceiling (q - (1 # 2))%Q.

Definition roundHalfEven (q : Q) : Z :=
  let f := Qfloor q in
  match (q - inject_Z f ?= 1 # 2)%Q with
  | Lt => f
  | Gt => (f + 1)%Z
  | Eq => if Z.even f then f else (f + 1)%Z
  end.

(** The inventory line as the specification words it (section 4.4): the
    icon split on "_", the tokens "Icon" and "Tag" dropped, the rest joined
    by "/", then "/" and the label. *)
Definition specIconPath (icon : string) : string :=
  JS.join "/"
    (filter (fun tok => negb ((tok =? "Icon") || (tok =? "Tag")))
            (JS.split "_" icon)).

Definition specInventoryLine (icon label : string) : string :=
  specIconPath icon ++ "/" ++ label.

(** [line] is the inventory line of index [i] of a record of [fs] that
    the inventory pipeline accepts. *)
Definition FromRecord (fs : FileSystem) (line : string) : Prop :=
  exists file data r name icons i,
    In file ObjectInventory.sourceFiles
    /\ fs file = Some data
    /\ In r data
    /\ SourceRecord.name r = Some name
    /\ name <> ""
    /\ SourceRecord.icons r = Some icons
    /\ List.length (JS.split " : " name) = List.length icons
    /\ (i < List.length icons)%nat
    /\ line = specInventoryLine (nth i icons "") (nth i (JS.split " : " name) "").

(** The Places that [checkTower] is called on while [processEntries] runs
    over [layerData] from the state [st], in call order. *)
Definition towerCall (layerName : string) (entry : SourceRecord.t)
    (places : JS.Map.t NamedPlaces.Place.t) : list NamedPlaces.Place.t :=
  if negb (NamedPlaces.isNamedPlace entry) then []
  else
    match SourceRecord.name entry, SourceRecord.locations entry with
    | Some rawName, Some locations =>
        [snd (fst (NamedPlaces.placeBeforeTower
                     layerName (JS.trim rawName) locations places))]
    | _, _ => []
    end.

Fixpoint towerCalls (layerName : string) (layerData : LayerData)
    (st : JS.Map.t NamedPlaces.Place.t * NamedPlaces.Stats.t)
  : list NamedPlaces.Place.t :=
  match layerData with
  | [] => []
  | entry :: rest =>
      (towerCall layerName entry (fst st)
       ++ towerCalls layerName rest
            (NamedPlaces.processEntry layerName entry st))%list
  end.

(** What the aggregates are expected to satisfy. *)
Definition ObjectsWf (m : JS.Map.t JS.StrSet.t) : Prop :=
  NoDup (JS.Map.keys m) /\ Forall (fun e => NoDup (snd e)) m.

Definition PlacesWf (places : JS.Map.t NamedPlaces.Place.t) : Prop :=
  NoDup (JS.Map.keys places)
  /\ Forall (fun e =>
               fst e = NamedPlaces.Place.path (snd e)
               /\ NoDup (map NamedPlaces.Point.toString
                             (NamedPlaces.Place.points (snd e))))
            places.

(** The synthetic point of the tower rule: [x] and [y] of [base], the
    launch height as [z]. *)
Definition launchPoint (base : NamedPlaces.Point.t) (height : Z)
  : NamedPlaces.Point.t :=
  NamedPlaces.Point.mk (NamedPlaces.Point.y base) (NamedPlaces.Point.x base)
                       (JS.Int height).

(** A place the tower rule applies to has a first point and holds the
    synthetic point made from it. *)
Definition TowerDone (place : NamedPlaces.Place.t) : Prop :=
  NamedPlaces.isTower place = true ->
  exists base rest height,
    NamedPlaces.Place.points place = base :: rest
    /\ JS.Map.get (NamedPlaces.Place.name place) NamedPlaces.launchHeights
       = Some height
    /\ In (NamedPlaces.Point.toString (launchPoint base height))
          (map NamedPlaces.Point.toString (NamedPlaces.Place.points place)).

(** The Set stored under [label] holds the token [pt]. *)
Definition Receives (m : JS.Map.t JS.StrSet.t) (label pt : string) : Prop :=
  exists set, JS.Map.get label m = Some set /\ In pt set.

(** A second host collation: [localeCompare] as an engine built without
    internationalisation support has it, which compares code units and
    nothing else ("B" before "a").  It is used next to
    [JS.localeCompare_letters] to compare two hosts. *)
Definition localeCompare_codeUnits (a b : string) : Z :=
  match String.compare a b with
  | Lt => -1
  | Eq => 0
  | Gt => 1
  end%Z.

(** Code-unit order on strings, the order of [arr.sort()]. *)
Definition codeUnitLe (a b : string) : Prop := String.leb a b = true.

(** Sample data. *)
Definition surfaceFile : string := "data/v1.2.0/layers/surface.json".

Definition at_ (x y z : Z) : RawLocation.t :=
  RawLocation.mk (JS.Fin (inject_Z x)) (JS.Fin (inject_Z y))
                 (JS.Fin (inject_Z z)).
Arguments at_ (x y z)%_Z.

Definition marker (name : string) (locations : list RawLocation.t)
  : SourceRecord.t :=
  SourceRecord.mk (Some "LocationMarker") (Some name) (Some locations) None.

Definition component (name : string) (locations : list RawLocation.t)
    (icons : list string) : SourceRecord.t :=
  SourceRecord.mk None (Some name) (Some locations) (Some icons).

Definition twoObjects : FileSystem :=
  onlyFile surfaceFile
    [component "Bokoblin" [at_ 1 2 3] []; component "apple" [at_ 4 5 6] []].

Definition hyruleField : FileSystem :=
  onlyFile surfaceFile
    [marker "Hyrule Field Skyview Tower" [at_ 100 5 200]].

Definition randomTower : FileSystem :=
  onlyFile surfaceFile [marker "Random Skyview Tower" [at_ 100 5 200]].

Definition hyrulePlace : NamedPlaces.Place.t :=
  NamedPlaces.Place.mk "Surface" "Hyrule Field Skyview Tower"
    [NamedPlaces.Point.mk (JS.Int 5) (JS.Int 100) (JS.Int 200)].

Definition sword : SourceRecord.t :=
  component "Sword" [at_ 1 2 3] ["Icon_Weapon_Tag_Sword"].

Definition appleBanana : SourceRecord.t :=
  component "Apple : Banana" [at_ 7 8 9] [].

Definition twoLowercase : FileSystem :=
  onlyFile surfaceFile
    [component "bokoblin" [at_ 1 2 3] []; component "apple" [at_ 4 5 6] [];
     marker "lookout" [at_ 7 8 9]; marker "ancient" [at_ 1 1 1]].

(** [twoLowercase] with one more file, which no pipeline reads. *)
Definition twoLowercaseAndNotes : FileSystem :=
  withFile twoLowercase "data/v1.2.0/notes.json" [appleBanana].

(* ================================================================== *)
(** ** Notions used to state further properties of the scripts *)

(** [s] without its first [n] code units. *)
Fixpoint dropString (n : nat) (s : string) : string :=
  match n, s with
  | O, _ => s
  | S _, EmptyString => ""
  | S k, String _ rest => dropString k rest
  end.

Definition startsWithWhiteSpace (s : string) : bool :=
  match s with
  | EmptyString => false
  | String c _ => JS.isWhiteSpace c
  end.

Fixpoint endsWithWhiteSpace (s : string) : bool :=
  match s with
  | EmptyString => false
  | String c EmptyString => JS.isWhiteSpace c
  | String _ rest => endsWithWhiteSpace rest
  end.

(** The four layer names of [getLayerFromPath]. *)
Definition layerNames : list string := ["Depths"; "Sky"; "Cave"; "Surface"].

(** The Place a qualifying record of name [name] works on: the one stored
    under its path, or a new one. *)
Definition placeBefore (layerName name : string)
    (places : JS.Map.t NamedPlaces.Place.t) : NamedPlaces.Place.t :=
  match JS.Map.get (layerName ++ "/" ++ name) places with
  | Some place => place
  | None => NamedPlaces.Place.new layerName name
  end.

(** What [place.add(...points)] followed by [checkTower] makes of a
    Place. *)
Definition placeAfter (locations : list RawLocation.t)
    (place : NamedPlaces.Place.t) : NamedPlaces.Place.t :=
  fst (NamedPlaces.checkTower
         (fst (NamedPlaces.Place.add
                 place (map NamedPlaces.Point.ofLocation locations)))
         NamedPlaces.Stats.zero).

(** Sum of a measure over the values of a Map. *)
Definition sumOver {V : Type} (f : V -> nat) (m : JS.Map.t V) : nat :=
  list_sum (map (fun e => f (snd e)) m).

(** The number of points held by all places together. *)
Definition totalPoints (places : JS.Map.t NamedPlaces.Place.t) : nat :=
  sumOver (fun p => List.length (NamedPlaces.Place.points p)) places.

(** The number of places the tower rule applies to. *)
Definition towerPlaces (places : JS.Map.t NamedPlaces.Place.t) : nat :=
  sumOver (fun p => if NamedPlaces.isTower p then 1 else 0)%nat places.

(** The number of records of [fs] that [isNamedPlace] accepts, and the
    number of source files that exist. *)
Definition qualifyingIn (files : list string) (fs : FileSystem) : nat :=
  list_sum
    (map (fun f =>
            match fs f with
            | Some data => List.length (filter NamedPlaces.isNamedPlace data)
            | None => 0%nat
            end)
         files).

Definition existingIn (files : list string) (fs : FileSystem) : nat :=
  List.length
    (filter (fun f => match fs f with Some _ => true | None => false end)
            files).

(** The file system [fs] without [file]. *)
Definition withoutFile (fs : FileSystem) (file : string) : FileSystem :=
  fun p => if (p =? file)%string then None else fs p.

(** [s] contains the code unit [c]. *)
Fixpoint hasChar (c : ascii) (s : string) : bool :=
  match s with
  | EmptyString => false
  | String d rest => Ascii.eqb d c || hasChar c rest
  end.

(** The token [pt] is the token of a location of a valid record of [fs]
    that has [label] among its labels. *)
Definition FromLocation (fs : FileSystem) (label pt : string) : Prop :=
  exists file data r name locations loc,
    In file ObjectLocations.sourceFiles
    /\ fs file = Some data
    /\ In r data
    /\ ObjectLocations.isValidRecord r = true
    /\ SourceRecord.name r = Some name
    /\ SourceRecord.locations r = Some locations
    /\ In label (JS.split " : " name)
    /\ In loc locations
    /\ pt = ObjectLocations.formatPoint loc.

(** What one record adds to the count that [extractEntries] returns, in
    the object-location and in the inventory script. *)
Definition labelCount (r : SourceRecord.t) : nat :=
  if ObjectLocations.isValidRecord r then
    match SourceRecord.name r with
    | Some name => List.length (JS.split " : " name)
    | None => 0
    end
  else 0.

Definition lineCount (r : SourceRecord.t) : nat :=
  if ObjectInventory.isValidRecord r then
    match SourceRecord.name r, SourceRecord.icons r with
    | Some name, Some icons =>
        if (List.length (JS.split " : " name) =? List.length icons)%nat
        then List.length icons
        else 0
    | _, _ => 0
    end
  else 0.

(** Where a point of a named place can come from: a location of a
    qualifying record of the place's layer and name, or the tower rule
    applied to the place's first point. *)
Definition FromPlaceRecord (fs : FileSystem) (place : NamedPlaces.Place.t)
    (pt : NamedPlaces.Point.t) : Prop :=
  exists file data r rawName locations loc,
    In file NamedPlaces.sourceFiles
    /\ fs file = Some data
    /\ In r data
    /\ NamedPlaces.isNamedPlace r = true
    /\ SourceRecord.name r = Some rawName
    /\ SourceRecord.locations r = Some locations
    /\ NamedPlaces.getLayerFromPath file = NamedPlaces.Place.layer place
    /\ JS.trim rawName = NamedPlaces.Place.name place
    /\ In loc locations
    /\ pt = NamedPlaces.Point.ofLocation loc.

Definition IsLaunchPoint (place : NamedPlaces.Place.t)
    (pt : NamedPlaces.Point.t) : Prop :=
  NamedPlaces.isTower place = true
  /\ exists base rest height,
       NamedPlaces.Place.points place = base :: rest
       /\ JS.Map.get (NamedPlaces.Place.name place) NamedPlaces.launchHeights
          = Some height
       /\ pt = launchPoint base height.

(* ================================================================== *)
(** ** Coordinates: rounding and the point token *)

Local Open Scope Z_scope.
Local Open Scope list_scope.

Lemma Math_round_bounds (q : Q) :
  (inject_Z (Qfloor (q + (1 # 2))) - (1 # 2) <= q)%Q
  /\ (q < inject_Z (Qfloor (q + (1 # 2))) + (1 # 2))%Q.
Proof.
  pose proof (Qfloor_le (q + (1 # 2))) as Hlo.
  pose proof (Qlt_floor (q + (1 # 2))) as Hhi.
  rewrite inject_Z_plus in Hhi.
  change (inject_Z 1) with 1%Q in Hhi.
  split; lra.
Qed.

Lemma Math_round_tie (k : Z) :
  JS.Math_round (JS.Fin (inject_Z k + (1 # 2))) = JS.Int (k + 1).
Proof.
  unfold JS.Math_round. f_equal.
  assert (E : (inject_Z k + (1 # 2) + (1 # 2) == inject_Z (k + 1))%Q).
  { rewrite inject_Z_plus. change (inject_Z 1) with 1%Q. lra. }
  rewrite E. apply Qfloor_Z.
Qed.

Lemma Math_round_of_integral (i : JS.integral) :
  JS.Math_round (JS.of_integral i) = i.
Proof.
  destruct i as [n | | | ]; try reflexivity.
  unfold JS.of_integral, JS.Math_round. f_equal.
  assert (Hlo : (Qfloor (inject_Z n) <= Qfloor (inject_Z n + (1 # 2)))%Z).
  { apply Qfloor_resp_le. lra. }
  assert (Hhi : (Qfloor (inject_Z n + (1 # 2)) < n + 1)%Z).
  { pose proof (Qfloor_le (inject_Z n + (1 # 2))) as H.
    rewrite Zlt_Qlt, inject_Z_plus. change (inject_Z 1) with 1%Q. lra. }
  rewrite Qfloor_Z in Hlo. lia.
Qed.

(** C5 (as the code has it).  [Math.round] rounds to the nearest integer
    and resolves a tie towards +Infinity: the result [n] of rounding a
    finite [q] satisfies [n - 1/2 <= q < n + 1/2], [k + 1/2] rounds to
    [k + 1] for every integer [k], so 2.5 gives 3 and -2.5 gives -2, and
    the non-finite values pass through. *)
Theorem C5_round_half_up :
  (forall q : Q, exists n : Z,
      JS.Math_round (JS.Fin q) = JS.Int n
      /\ (inject_Z n - (1 # 2) <= q)%Q /\ (q < inject_Z n + (1 # 2))%Q)
  /\ (forall k : Z,
        JS.Math_round (JS.Fin (inject_Z k + (1 # 2))) = JS.Int (k + 1))
  /\ JS.Math_round (JS.Fin (5 # 2)) = JS.Int 3
  /\ JS.Math_round (JS.Fin (-5 # 2)) = JS.Int (-2)
  /\ JS.Math_round JS.NaN = JS.INaN
  /\ JS.Math_round JS.Infinity = JS.IInfinity
  /\ JS.Math_round JS.NegInfinity = JS.INegInfinity.
Proof.
  split; [| split; [exact Math_round_tie | repeat split]].
  intro q. exists (Qfloor (q + (1 # 2))).
  split; [reflexivity | apply Math_round_bounds].
Qed.

(** C5 (as the specification states it) fails: neither named rule is the
    code's.  Half-away-from-zero sends -2.5 to -3 where the code gives -2;
    half-to-even sends 2.5 to 2 where the code gives 3. *)
Lemma C5_neither_named_rule :
  JS.Math_round (JS.Fin (-5 # 2)) = JS.Int (-2)
  /\ roundHalfAwayFromZero (-5 # 2) = -3
  /\ JS.Math_round (JS.Fin (5 # 2)) = JS.Int 3
  /\ roundHalfEven (5 # 2) = 2
  /\ ~ ((forall q, JS.Math_round (JS.Fin q) = JS.Int (roundHalfAwayFromZero q))
        \/ (forall q, JS.Math_round (JS.Fin q) = JS.Int (roundHalfEven q))).
Proof.
  repeat split.
  intros [H | H].
  - specialize (H (-5 # 2)%Q). discriminate H.
  - specialize (H (5 # 2)%Q). discriminate H.
Qed.

(** C8.  The Point built from a location holds in [y] the rounded [y] of
    the location, in [x] the rounded [x], in [z] the rounded [z]; its
    token lists them in the order (y,x,z); the object-location pipeline
    prints the same token; and copying a Point's own coordinates through
    the constructor, as the tower rule does, leaves them as they are. *)
Theorem C8_fields_unswapped_token_yxz :
  forall loc : RawLocation.t,
    let p := NamedPlaces.Point.ofLocation loc in
    NamedPlaces.Point.y p = JS.Math_round (RawLocation.y loc)
    /\ NamedPlaces.Point.x p = JS.Math_round (RawLocation.x loc)
    /\ NamedPlaces.Point.z p = JS.Math_round (RawLocation.z loc)
    /\ NamedPlaces.Point.toString p
       = ("(" ++ JS.toString (JS.Math_round (RawLocation.y loc)) ++ ","
              ++ JS.toString (JS.Math_round (RawLocation.x loc)) ++ ","
              ++ JS.toString (JS.Math_round (RawLocation.z loc)) ++ ")")%string
    /\ ObjectLocations.formatPoint loc = NamedPlaces.Point.toString p
    /\ NamedPlaces.Point.new (JS.of_integral (NamedPlaces.Point.x p))
                             (JS.of_integral (NamedPlaces.Point.y p))
                             (JS.of_integral (NamedPlaces.Point.z p)) = p.
Proof.
  intros loc p. repeat split.
  unfold NamedPlaces.Point.new. subst p.
  rewrite !Math_round_of_integral. reflexivity.
Qed.

(* ================================================================== *)
(** ** Lists, folds and the sort *)

Lemma fold_left_agree {A B : Type} (f g : A -> B -> A) (l : list B) :
  (forall a b, In b l -> f a b = g a b) ->
  forall a, fold_left f l a = fold_left g l a.
Proof.
  induction l as [| b l IH]; intros Hfg a; simpl.
  - reflexivity.
  - rewrite (Hfg a b (or_introl eq_refl)).
    apply IH. intros a' b' Hin. apply Hfg. now right.
Qed.

Lemma fold_left_skip {A B : Type} (f : A -> B -> A) (pre post : list B)
    (b : B) :
  (forall a, f a b = a) ->
  forall a, fold_left f (pre ++ b :: post) a = fold_left f (pre ++ post) a.
Proof.
  intros Hskip a. rewrite !fold_left_app. simpl. now rewrite Hskip.
Qed.

Section SortFacts.
Context {A : Type} (le : A -> A -> bool).

Lemma insert_perm (a : A) (l : list A) :
  Permutation (JS.insert le a l) (a :: l).
Proof.
  induction l as [| b l IH]; simpl.
  - apply Permutation_refl.
  - destruct (le a b).
    + apply Permutation_refl.
    + eapply perm_trans; [apply perm_skip, IH | apply perm_swap].
Qed.

Lemma sort_perm (l : list A) : Permutation (JS.sort le l) l.
Proof.
  induction l as [| a l IH]; simpl.
  - apply perm_nil.
  - eapply perm_trans; [apply insert_perm | now apply perm_skip].
Qed.

Hypothesis le_total : forall a b, le a b = true \/ le b a = true.

Lemma insert_HdRel (a b : A) (l : list A) :
  le b a = true ->
  HdRel (fun u v => le u v = true) b l ->
  HdRel (fun u v => le u v = true) b (JS.insert le a l).
Proof.
  intros Hba Hhd. destruct l as [| c l]; simpl.
  - now constructor.
  - destruct (le a c); constructor; trivial.
    now inversion Hhd.
Qed.

Lemma insert_sorted (a : A) (l : list A) :
  Sorted (fun u v => le u v = true) l ->
  Sorted (fun u v => le u v = true) (JS.insert le a l).
Proof.
  induction 1 as [| b l Hs IH Hhd]; simpl.
  - repeat constructor.
  - destruct (le a b) eqn:Hab.
    + constructor; [now constructor | now constructor].
    + constructor; [exact IH |].
      apply insert_HdRel; trivial.
      destruct (le_total a b) as [H | H]; [congruence | exact H].
Qed.

Lemma sort_sorted (l : list A) :
  Sorted (fun u v => le u v = true) (JS.sort le l).
Proof.
  induction l as [| a l IH]; simpl.
  - constructor.
  - now apply insert_sorted.
Qed.
End SortFacts.

Lemma Sorted_impl {A : Type} (R S : A -> A -> Prop) (l : list A) :
  (forall a b, R a b -> S a b) -> Sorted R l -> Sorted S l.
Proof.
  intros HRS. induction 1 as [| a l Hs IH Hhd]; constructor; trivial.
  destruct Hhd; constructor; auto.
Qed.

Lemma sortBy_sorted {A : Type} (cmp : A -> A -> Z) (l : list A) :
  (forall a b, cmp a b <= 0 \/ cmp b a <= 0) ->
  Sorted (fun a b => cmp a b <= 0) (JS.sortBy cmp l).
Proof.
  intros Htot.
  apply Sorted_impl with (R := fun a b => (cmp a b <=? 0) = true).
  - intros a b. apply Z.leb_le.
  - apply sort_sorted. intros a b.
    destruct (Htot a b); [left | right]; now apply Z.leb_le.
Qed.

Lemma sortDefault_sorted (l : list string) :
  Sorted codeUnitLe (JS.sortDefault l).
Proof.
  apply (sort_sorted String.leb). apply String.leb_total.
Qed.

(** The stand-in collation never leaves two strings unordered. *)
Lemma localeCompare_letters_total (a b : string) :
  JS.localeCompare_letters a b <= 0 \/ JS.localeCompare_letters b a <= 0.
Proof.
  unfold JS.localeCompare_letters.
  rewrite (String.compare_antisym (JS.foldCases b) (JS.foldCases a)).
  rewrite (String.compare_antisym b a).
  destruct (String.compare (JS.foldCases a) (JS.foldCases b));
    destruct (String.compare a b); simpl; lia.
Qed.

(* ================================================================== *)
(** ** Records that a pipeline passes over *)

Lemma isNamedPlace_no_locations (r : SourceRecord.t) :
  SourceRecord.locations r = Some [] -> NamedPlaces.isNamedPlace r = false.
Proof.
  intros H. unfold NamedPlaces.isNamedPlace. rewrite H.
  destruct (SourceRecord.type r); [| reflexivity].
  destruct (SourceRecord.name r); [| reflexivity].
  apply andb_false_r.
Qed.

Lemma NamedPlaces_skip (layerName : string) (r : SourceRecord.t) st :
  NamedPlaces.isNamedPlace r = false ->
  NamedPlaces.processEntry layerName r st = st.
Proof.
  intros H. unfold NamedPlaces.processEntry. rewrite H.
  now destruct st.
Qed.

Lemma ObjectLocations_isValid_no_locations (r : SourceRecord.t) :
  SourceRecord.locations r = Some [] ->
  ObjectLocations.isValidRecord r = false.
Proof.
  intros H. unfold ObjectLocations.isValidRecord. rewrite H.
  destruct (SourceRecord.name r); [apply andb_false_r | reflexivity].
Qed.

Lemma ObjectLocations_skip (r : SourceRecord.t) st :
  ObjectLocations.isValidRecord r = false ->
  ObjectLocations.extractEntry st r = st.
Proof.
  intros H. unfold ObjectLocations.extractEntry. now rewrite H.
Qed.

Lemma ObjectInventory_isValid_no_icons (r : SourceRecord.t) :
  SourceRecord.icons r = Some [] ->
  ObjectInventory.isValidRecord r = false.
Proof.
  intros H. unfold ObjectInventory.isValidRecord. rewrite H.
  destruct (SourceRecord.name r); [apply andb_false_r | reflexivity].
Qed.

Lemma ObjectInventory_skip (r : SourceRecord.t) st :
  ObjectInventory.isValidRecord r = false ->
  ObjectInventory.extractEntry st r = st.
Proof.
  intros H. unfold ObjectInventory.extractEntry. now rewrite H.
Qed.

(** Two file systems that hold, in one file, the same records but for one
    that the loop body passes over give the same aggregate. *)
Section Skipped.
Context {St : Type} (readFile : FileSystem -> St -> string -> St).
Variables (fs : FileSystem) (file : string) (with_r without_r : LayerData).

Hypothesis same_file :
  forall st, readFile (withFile fs file with_r) st file
             = readFile (withFile fs file without_r) st file.
Hypothesis other_files :
  forall st p d1 d2, (p =? file)%string = false ->
    readFile (withFile fs file d1) st p = readFile (withFile fs file d2) st p.

Lemma aggregate_skip (files : list string) (st : St) :
  fold_left (readFile (withFile fs file with_r)) files st
  = fold_left (readFile (withFile fs file without_r)) files st.
Proof.
  apply fold_left_agree. intros a p _.
  destruct (p =? file)%string eqn:E.
  - apply String.eqb_eq in E. subst p. apply same_file.
  - now apply other_files.
Qed.
End Skipped.

(** C1 (as the code has it).  In the object-location and named-place
    pipelines a record whose [locations] array is empty adds nothing:
    the aggregate, and so the text written, is the same as if the record
    were not in its file.  The inventory pipeline does not read
    [locations]; there the same holds of a record whose [icons] array is
    empty. *)
Theorem C1_empty_array_adds_nothing :
  forall (localeCompare : string -> string -> Z) (fs : FileSystem)
         (file : string) (pre post : LayerData) (r : SourceRecord.t),
    (SourceRecord.locations r = Some [] ->
       ObjectLocations.aggregate (withFile fs file (pre ++ r :: post))
       = ObjectLocations.aggregate (withFile fs file (pre ++ post))
       /\ ObjectLocations.main localeCompare
            (withFile fs file (pre ++ r :: post))
          = ObjectLocations.main localeCompare
              (withFile fs file (pre ++ post))
       /\ NamedPlaces.aggregate (withFile fs file (pre ++ r :: post))
          = NamedPlaces.aggregate (withFile fs file (pre ++ post))
       /\ NamedPlaces.main localeCompare
            (withFile fs file (pre ++ r :: post))
          = NamedPlaces.main localeCompare (withFile fs file (pre ++ post)))
    /\ (SourceRecord.icons r = Some [] ->
          ObjectInventory.aggregate (withFile fs file (pre ++ r :: post))
          = ObjectInventory.aggregate (withFile fs file (pre ++ post))
          /\ ObjectInventory.main (withFile fs file (pre ++ r :: post))
             = ObjectInventory.main (withFile fs file (pre ++ post))).
Proof.
  intros cmp fs file pre post r. split.
  - intros Hloc.
    assert (HO : ObjectLocations.aggregate (withFile fs file (pre ++ r :: post))
                 = ObjectLocations.aggregate (withFile fs file (pre ++ post))).
    { unfold ObjectLocations.aggregate. apply aggregate_skip.
      - intros st. unfold ObjectLocations.readFile, withFile.
        rewrite String.eqb_refl. unfold ObjectLocations.extractEntries.
        rewrite fold_left_skip; [reflexivity |].
        intros a. apply ObjectLocations_skip.
        now apply ObjectLocations_isValid_no_locations.
      - intros st p d1 d2 E. unfold ObjectLocations.readFile, withFile.
        now rewrite E. }
    assert (HN : NamedPlaces.aggregate (withFile fs file (pre ++ r :: post))
                 = NamedPlaces.aggregate (withFile fs file (pre ++ post))).
    { unfold NamedPlaces.aggregate. apply aggregate_skip.
      - intros st. unfold NamedPlaces.readFile, withFile.
        rewrite String.eqb_refl. unfold NamedPlaces.processEntries.
        rewrite fold_left_skip; [reflexivity |].
        intros a. apply NamedPlaces_skip.
        now apply isNamedPlace_no_locations.
      - intros st p d1 d2 E. unfold NamedPlaces.readFile, withFile.
        now rewrite E. }
    repeat split; trivial.
    + unfold ObjectLocations.main, ObjectLocations.lines,
        ObjectLocations.sortedEntries. now rewrite HO.
    + unfold NamedPlaces.main, NamedPlaces.output, NamedPlaces.sortedPlaces.
      now rewrite HN.
  - intros Hic.
    assert (HI : ObjectInventory.aggregate (withFile fs file (pre ++ r :: post))
                 = ObjectInventory.aggregate (withFile fs file (pre ++ post))).
    { unfold ObjectInventory.aggregate. apply aggregate_skip.
      - intros st. unfold ObjectInventory.readFile, withFile.
        rewrite String.eqb_refl. unfold ObjectInventory.extractEntries.
        rewrite fold_left_skip; [reflexivity |].
        intros a. apply ObjectInventory_skip.
        now apply ObjectInventory_isValid_no_icons.
      - intros st p d1 d2 E. unfold ObjectInventory.readFile, withFile.
        now rewrite E. }
    split; trivial.
    unfold ObjectInventory.main, ObjectInventory.sorted. now rewrite HI.
Qed.

Lemma C1_empty_array_adds_nothing_witness :
  let r := component "Sword" [] [] in
  let post := [marker "Lookout Landing" [at_ 1 2 3]] in
  (SourceRecord.locations r = Some []
   /\ NamedPlaces.main JS.localeCompare_letters
        (withFile (fun _ => None) surfaceFile ([] ++ r :: post))
      = NamedPlaces.main JS.localeCompare_letters
          (withFile (fun _ => None) surfaceFile ([] ++ post)))
  /\ (SourceRecord.icons r = Some []
      /\ ObjectInventory.main
           (withFile (fun _ => None) surfaceFile ([] ++ r :: post))
         = ObjectInventory.main
             (withFile (fun _ => None) surfaceFile ([] ++ post))).
Proof.
  intros r post.
  destruct (C1_empty_array_adds_nothing JS.localeCompare_letters
              (fun _ => None) surfaceFile [] post r) as [Hloc Hic].
  split; (split; [reflexivity |]).
  - apply Hloc. reflexivity.
  - apply Hic. reflexivity.
Defined.

(** C1 (as the specification states it) fails in the inventory pipeline:
    a record with [locations: []] and one icon still yields its line. *)
Lemma C1_inventory_ignores_locations :
  let r := component "Sword" [] ["Icon_Weapon_Tag_Sword"] in
  SourceRecord.locations r = Some []
  /\ ObjectInventory.aggregate (onlyFile surfaceFile [r])
     = ["Weapon/Sword/Sword"]
  /\ ObjectInventory.aggregate (onlyFile surfaceFile []) = []
  /\ ObjectInventory.main (onlyFile surfaceFile [r])
     <> ObjectInventory.main (onlyFile surfaceFile []).
Proof.
  repeat split. vm_compute. discriminate.
Qed.

(* ================================================================== *)
(** ** Order of the output *)

(** C2 (as the code has it).  The object-location and named-place
    pipelines order their lines with [localeCompare], the collation of the
    host: for adjacent lines, the key of the first does not compare after
    the key of the second under [localeCompare].  Only the inventory
    pipeline, which calls [sort()] with no comparator, orders its lines by
    code units. *)
Theorem C2_sorted_by_the_comparator_used :
  forall (localeCompare : string -> string -> Z) (fs : FileSystem),
    (forall a b, localeCompare a b <= 0 \/ localeCompare b a <= 0) ->
    Sorted (fun e1 e2 => localeCompare (fst e1) (fst e2) <= 0)
           (ObjectLocations.sortedEntries localeCompare fs)
    /\ Sorted (fun p1 p2 =>
                 localeCompare (NamedPlaces.Place.path p1)
                               (NamedPlaces.Place.path p2) <= 0)
              (NamedPlaces.sortedPlaces localeCompare fs)
    /\ Sorted codeUnitLe (ObjectInventory.sorted fs).
Proof.
  intros cmp fs Htot. repeat split.
  - apply (sortBy_sorted (fun a b => cmp (fst a) (fst b))). auto.
  - apply (sortBy_sorted
             (fun a b => cmp (NamedPlaces.Place.path a)
                             (NamedPlaces.Place.path b))). auto.
  - apply sortDefault_sorted.
Qed.

Lemma C2_sorted_by_the_comparator_used_witness :
  (forall a b, JS.localeCompare_letters a b <= 0
               \/ JS.localeCompare_letters b a <= 0)
  /\ Sorted (fun e1 e2 => JS.localeCompare_letters (fst e1) (fst e2) <= 0)
            (ObjectLocations.sortedEntries JS.localeCompare_letters twoObjects).
Proof.
  split; [exact localeCompare_letters_total |].
  apply (C2_sorted_by_the_comparator_used JS.localeCompare_letters twoObjects).
  exact localeCompare_letters_total.
Defined.

(** C2 (as the specification states it) fails where [localeCompare]
    decides: collation puts "apple" before "Bokoblin", code points put
    "B" (66) before "a" (97). *)
Lemma C2_collation_is_not_code_point_order :
  ObjectLocations.lines JS.localeCompare_letters twoObjects
  = ["apple (5,4,6)"; "Bokoblin (2,1,3)"]
  /\ map fst (ObjectLocations.sortedEntries JS.localeCompare_letters twoObjects)
     = ["apple"; "Bokoblin"]
  /\ ~ Sorted codeUnitLe
         (map fst (ObjectLocations.sortedEntries
                     JS.localeCompare_letters twoObjects)).
Proof.
  repeat split.
  intros H. vm_compute in H.
  inversion H as [| a l Hs Hhd]; subst.
  inversion Hhd as [| b l' Hle]; subst.
  discriminate Hle.
Qed.

(* ================================================================== *)
(** ** The aggregates are a function of the four source files *)

Lemma same_files_same_aggregates (fs1 fs2 : FileSystem) :
  (forall p, In p NamedPlaces.sourceFiles -> fs1 p = fs2 p) ->
  NamedPlaces.aggregate fs1 = NamedPlaces.aggregate fs2
  /\ ObjectLocations.aggregate fs1 = ObjectLocations.aggregate fs2
  /\ ObjectInventory.aggregate fs1 = ObjectInventory.aggregate fs2.
Proof.
  intros Hsame. repeat split.
  - unfold NamedPlaces.aggregate. apply fold_left_agree.
    intros a p Hin. unfold NamedPlaces.readFile. now rewrite (Hsame p Hin).
  - unfold ObjectLocations.aggregate. apply fold_left_agree.
    intros a p Hin. unfold ObjectLocations.readFile.
    now rewrite (Hsame p Hin).
  - unfold ObjectInventory.aggregate. apply fold_left_agree.
    intros a p Hin. unfold ObjectInventory.readFile.
    now rewrite (Hsame p Hin).
Qed.

(* ================================================================== *)
(** ** Facts about the insertion-ordered Map and Set *)

Lemma fold_left_invariant {A B : Type} (P : A -> Prop) (f : A -> B -> A)
    (l : list B) :
  (forall a b, In b l -> P a -> P (f a b)) ->
  forall a, P a -> P (fold_left f l a).
Proof.
  induction l as [| b l IH]; intros Hstep a Ha; simpl.
  - exact Ha.
  - apply IH.
    + intros a' b' Hin. apply Hstep. now right.
    + apply Hstep; [now left | exact Ha].
Qed.

Section MapFacts.
Context {V : Type}.
Implicit Types (m : JS.Map.t V) (k : string) (v : V).

Lemma Map_get_In m k v : JS.Map.get k m = Some v -> In (k, v) m.
Proof.
  induction m as [| [k' v'] m IH]; simpl; [discriminate |].
  destruct (String.eqb_spec k' k) as [-> | Hne].
  - intros [= ->]. now left.
  - intros H. right. now apply IH.
Qed.

Lemma Map_get_None m k : JS.Map.get k m = None -> ~ In k (JS.Map.keys m).
Proof.
  induction m as [| [k' v'] m IH]; simpl; [tauto |].
  destruct (String.eqb_spec k' k) as [-> | Hne]; [discriminate |].
  intros H [E | Hin]; [contradiction | now apply IH].
Qed.

Lemma Map_get_set_same m k v : JS.Map.get k (JS.Map.set k v m) = Some v.
Proof.
  induction m as [| [k' v'] m IH]; simpl.
  - now rewrite String.eqb_refl.
  - destruct (String.eqb_spec k' k) as [-> | Hne]; simpl.
    + now rewrite String.eqb_refl.
    + destruct (String.eqb_spec k' k); [contradiction | exact IH].
Qed.

Lemma Map_get_set_other m k k' v :
  k' <> k -> JS.Map.get k' (JS.Map.set k v m) = JS.Map.get k' m.
Proof.
  intros Hne. induction m as [| [k0 v0] m IH]; simpl.
  - destruct (String.eqb_spec k k'); [congruence | reflexivity].
  - destruct (String.eqb_spec k0 k) as [-> | Hne0]; simpl.
    + destruct (String.eqb_spec k k'); [congruence | reflexivity].
    + destruct (String.eqb_spec k0 k'); [reflexivity | exact IH].
Qed.

Lemma Map_set_In m k v k' v' :
  In (k', v') (JS.Map.set k v m) -> (k' = k /\ v' = v) \/ In (k', v') m.
Proof.
  induction m as [| [k0 v0] m IH]; simpl.
  - intros [[= <- <-] | []]. now left.
  - destruct (String.eqb_spec k0 k) as [-> | Hne]; simpl.
    + intros [[= <- <-] | H]; [now left | right; now right].
    + intros [H | H]; [right; now left |].
      destruct (IH H) as [? | ?]; [now left | right; now right].
Qed.

Lemma Map_set_keys_In m k v k' :
  In k' (JS.Map.keys (JS.Map.set k v m)) -> k' = k \/ In k' (JS.Map.keys m).
Proof.
  unfold JS.Map.keys. rewrite !in_map_iff.
  intros [[k0 v0] [E Hin]]. simpl in E. subst k0.
  destruct (Map_set_In _ _ _ _ _ Hin) as [[-> _] | H]; [now left |].
  right. now exists (k', v0).
Qed.

Lemma Map_set_NoDup m k v :
  NoDup (JS.Map.keys m) -> NoDup (JS.Map.keys (JS.Map.set k v m)).
Proof.
  induction m as [| [k0 v0] m IH]; simpl; intros Hnd.
  - repeat constructor. tauto.
  - inversion Hnd as [| ? ? Hnotin Hnd']; subst.
    destruct (String.eqb_spec k0 k) as [-> | Hne]; simpl.
    + now constructor.
    + constructor; [| now apply IH].
      intros Hin. apply Map_set_keys_In in Hin.
      destruct Hin; [congruence | contradiction].
Qed.

Lemma Map_set_Forall (P : string * V -> Prop) m k v :
  P (k, v) -> Forall P m -> Forall P (JS.Map.set k v m).
Proof.
  intros Hkv Hall. rewrite Forall_forall in *.
  intros [k' v'] Hin.
  destruct (Map_set_In _ _ _ _ _ Hin) as [[-> ->] | H]; auto.
Qed.
End MapFacts.

Lemma StrSet_has_In (s : string) (m : JS.StrSet.t) :
  JS.StrSet.has s m = true <-> In s m.
Proof.
  unfold JS.StrSet.has. rewrite existsb_exists. split.
  - intros [s' [Hin E]]. apply String.eqb_eq in E. now subst.
  - intros Hin. exists s. split; [exact Hin | apply String.eqb_refl].
Qed.

Lemma StrSet_add_In (s : string) (m : JS.StrSet.t) :
  In s (JS.StrSet.add s m).
Proof.
  unfold JS.StrSet.add. destruct (JS.StrSet.has s m) eqn:E.
  - now apply StrSet_has_In.
  - apply in_or_app. right. now left.
Qed.

Lemma StrSet_add_keeps (s x : string) (m : JS.StrSet.t) :
  In x m -> In x (JS.StrSet.add s m).
Proof.
  unfold JS.StrSet.add. destruct (JS.StrSet.has s m); [trivial |].
  intros H. apply in_or_app. now left.
Qed.

Lemma NoDup_snoc {A : Type} (l : list A) (a : A) :
  NoDup l -> ~ In a l -> NoDup (l ++ [a]).
Proof.
  intros Hnd Hnotin.
  apply (Permutation_NoDup (l := a :: l)).
  - apply Permutation_cons_append.
  - now constructor.
Qed.

Lemma StrSet_add_NoDup (s : string) (m : JS.StrSet.t) :
  NoDup m -> NoDup (JS.StrSet.add s m).
Proof.
  intros Hnd. unfold JS.StrSet.add.
  destruct (JS.StrSet.has s m) eqn:E; [exact Hnd |].
  apply NoDup_snoc; [exact Hnd |].
  intros Hin. apply StrSet_has_In in Hin. congruence.
Qed.

Lemma StrSet_addAll_NoDup (coords : list string) (m : JS.StrSet.t) :
  NoDup m -> NoDup (fold_left (fun s pt => JS.StrSet.add pt s) coords m).
Proof.
  apply fold_left_invariant. intros a b _. apply StrSet_add_NoDup.
Qed.

Lemma StrSet_addAll_keeps (coords : list string) (x : string) :
  forall m : JS.StrSet.t,
    In x m -> In x (fold_left (fun s pt => JS.StrSet.add pt s) coords m).
Proof.
  apply fold_left_invariant. intros a b _. apply StrSet_add_keeps.
Qed.

Lemma StrSet_addAll_In (coords : list string) (x : string) :
  In x coords ->
  forall m : JS.StrSet.t,
    In x (fold_left (fun s pt => JS.StrSet.add pt s) coords m).
Proof.
  induction coords as [| c coords IH]; intros Hin m; simpl.
  - destruct Hin.
  - destruct Hin as [-> | Hin].
    + apply StrSet_addAll_keeps, StrSet_add_In.
    + now apply IH.
Qed.

(* ================================================================== *)
(** ** The object-location aggregate *)

Lemma fold_left_establish {A B : Type} (P : A -> Prop) (f : A -> B -> A)
    (l : list B) (b : B) :
  In b l ->
  (forall a, P (f a b)) ->
  (forall a b', P a -> P (f a b')) ->
  forall a, P (fold_left f l a).
Proof.
  intros Hin Hb Hkeep. induction l as [| c l IH]; intros a; simpl.
  - destruct Hin.
  - destruct Hin as [-> | Hin].
    + apply fold_left_invariant; [intros; now apply Hkeep | apply Hb].
    + now apply IH.
Qed.

Lemma addLabel_wf coords st label :
  ObjectsWf (fst st) -> ObjectsWf (fst (ObjectLocations.addLabel coords st label)).
Proof.
  destruct st as [m n]. intros [Hkeys Hsets]. simpl. split.
  - now apply Map_set_NoDup.
  - apply Map_set_Forall; [| exact Hsets]. simpl.
    apply StrSet_addAll_NoDup.
    destruct (JS.Map.get label m) as [s |] eqn:E; [| constructor].
    apply Map_get_In in E. rewrite Forall_forall in Hsets.
    exact (Hsets _ E).
Qed.

Lemma addLabel_receives coords st label pt :
  In pt coords ->
  Receives (fst (ObjectLocations.addLabel coords st label)) label pt.
Proof.
  destruct st as [m n]. intros Hin. simpl. eexists. split.
  - apply Map_get_set_same.
  - now apply StrSet_addAll_In.
Qed.

Lemma addLabel_keeps coords st label l pt :
  Receives (fst st) l pt ->
  Receives (fst (ObjectLocations.addLabel coords st label)) l pt.
Proof.
  destruct st as [m n]. intros [set [Hget Hin]]. simpl in *.
  destruct (String.eqb_spec l label) as [-> | Hne].
  - eexists. split; [apply Map_get_set_same |].
    rewrite Hget. now apply StrSet_addAll_keeps.
  - exists set. split; [| exact Hin].
    rewrite Map_get_set_other; trivial.
Qed.

Lemma extractEntry_wf st r :
  ObjectsWf (fst st) -> ObjectsWf (fst (ObjectLocations.extractEntry st r)).
Proof.
  intros Hwf. unfold ObjectLocations.extractEntry.
  destruct (negb (ObjectLocations.isValidRecord r)); [exact Hwf |].
  destruct (SourceRecord.name r); [| exact Hwf].
  destruct (SourceRecord.locations r); [| exact Hwf].
  apply fold_left_invariant; [| exact Hwf].
  intros a b _. apply addLabel_wf.
Qed.

Lemma extractEntry_keeps st r l pt :
  Receives (fst st) l pt ->
  Receives (fst (ObjectLocations.extractEntry st r)) l pt.
Proof.
  intros H. unfold ObjectLocations.extractEntry.
  destruct (negb (ObjectLocations.isValidRecord r)); [exact H |].
  destruct (SourceRecord.name r); [| exact H].
  destruct (SourceRecord.locations r); [| exact H].
  apply fold_left_invariant; [| exact H].
  intros a b _. apply addLabel_keeps.
Qed.

Lemma extractEntry_receives st r name locations label loc :
  ObjectLocations.isValidRecord r = true ->
  SourceRecord.name r = Some name ->
  SourceRecord.locations r = Some locations ->
  In label (JS.split " : " name) ->
  In loc locations ->
  Receives (fst (ObjectLocations.extractEntry st r)) label
           (ObjectLocations.formatPoint loc).
Proof.
  intros Hvalid Hname Hlocs Hlabel Hloc.
  unfold ObjectLocations.extractEntry. rewrite Hvalid, Hname, Hlocs. simpl.
  apply fold_left_establish with (b := label); trivial.
  - intros a. apply addLabel_receives. now apply in_map.
  - intros a b'. apply addLabel_keeps.
Qed.

Lemma ObjectLocations_readFile_wf fs m file :
  ObjectsWf m -> ObjectsWf (ObjectLocations.readFile fs m file).
Proof.
  intros Hwf. unfold ObjectLocations.readFile.
  destruct (fs file) as [data |]; [| exact Hwf].
  unfold ObjectLocations.extractEntries.
  apply (fold_left_invariant (fun st => ObjectsWf (fst st))); [| exact Hwf].
  intros a b _. apply extractEntry_wf.
Qed.

Lemma ObjectLocations_readFile_keeps fs m file l pt :
  Receives m l pt -> Receives (ObjectLocations.readFile fs m file) l pt.
Proof.
  intros H. unfold ObjectLocations.readFile.
  destruct (fs file) as [data |]; [| exact H].
  unfold ObjectLocations.extractEntries.
  apply (fold_left_invariant (fun st => Receives (fst st) l pt)); [| exact H].
  intros a b _. apply extractEntry_keeps.
Qed.

Lemma ObjectLocations_aggregate_wf fs :
  ObjectsWf (ObjectLocations.aggregate fs).
Proof.
  unfold ObjectLocations.aggregate. apply fold_left_invariant.
  - intros a b _. apply ObjectLocations_readFile_wf.
  - split; constructor.
Qed.

(** C6.  A valid record gives every one of its labels every one of its
    points: whatever else the four files hold, when the loop is over the
    Set under each label of the record holds the token of each location of
    the record, and that Set is the one printed on the label's line.  The
    record "Apple : Banana" with one location puts that point on both
    lines. *)
Theorem C6_every_label_gets_every_point :
  forall (localeCompare : string -> string -> Z) (fs : FileSystem)
         (file : string) (data : LayerData) (r : SourceRecord.t)
         (name : string) (locations : list RawLocation.t)
         (label : string) (loc : RawLocation.t),
    In file ObjectLocations.sourceFiles ->
    fs file = Some data ->
    In r data ->
    ObjectLocations.isValidRecord r = true ->
    SourceRecord.name r = Some name ->
    SourceRecord.locations r = Some locations ->
    In label (JS.split " : " name) ->
    In loc locations ->
    Receives (ObjectLocations.aggregate fs) label
             (ObjectLocations.formatPoint loc)
    /\ exists set,
         In (label, set) (ObjectLocations.sortedEntries localeCompare fs)
         /\ In (ObjectLocations.formatPoint loc) set.
Proof.
  intros cmp fs file data r name locations label loc
         Hfile Hfs Hr Hvalid Hname Hlocs Hlabel Hloc.
  assert (Hrec : Receives (ObjectLocations.aggregate fs) label
                          (ObjectLocations.formatPoint loc)).
  { unfold ObjectLocations.aggregate.
    apply fold_left_establish with (b := file); trivial.
    - intros m. unfold ObjectLocations.readFile. rewrite Hfs.
      unfold ObjectLocations.extractEntries.
      apply (fold_left_establish
               (fun st => Receives (fst st) label
                                   (ObjectLocations.formatPoint loc)))
        with (b := r); trivial.
      + intros a. now apply extractEntry_receives with name locations.
      + intros a b'. apply extractEntry_keeps.
    - intros m p. apply ObjectLocations_readFile_keeps. }
  split; [exact Hrec |].
  destruct Hrec as [set [Hget Hin]]. exists set. split; [| exact Hin].
  unfold ObjectLocations.sortedEntries, JS.sortBy.
  eapply Permutation_in; [apply Permutation_sym, sort_perm |].
  now apply Map_get_In.
Qed.

Lemma C6_every_label_gets_every_point_witness :
  let fs := onlyFile surfaceFile [appleBanana] in
  ObjectLocations.main JS.localeCompare_letters fs
  = ("Apple (8,7,9)" ++ JS.LF ++ "Banana (8,7,9)" ++ JS.LF)%string
  /\ JS.split " : " "Apple : Banana" = ["Apple"; "Banana"]
  /\ Receives (ObjectLocations.aggregate fs) "Apple" "(8,7,9)"
  /\ Receives (ObjectLocations.aggregate fs) "Banana" "(8,7,9)".
Proof.
  intros fs. split; [reflexivity |]. split; [reflexivity |].
  split.
  - apply (C6_every_label_gets_every_point JS.localeCompare_letters fs
             surfaceFile [appleBanana] appleBanana "Apple : Banana"
             [at_ 7 8 9] "Apple" (at_ 7 8 9)); try reflexivity;
      simpl; auto.
  - apply (C6_every_label_gets_every_point JS.localeCompare_letters fs
             surfaceFile [appleBanana] appleBanana "Apple : Banana"
             [at_ 7 8 9] "Banana" (at_ 7 8 9)); try reflexivity;
      simpl; auto.
Defined.

(* ================================================================== *)
(** ** Places: adding points and the tower rule *)

Import NamedPlaces.

Lemma holds_In (pts : list Point.t) (point : Point.t) :
  Place.holds pts point = true
  <-> In (Point.toString point) (map Point.toString pts).
Proof.
  unfold Place.holds. rewrite existsb_exists, in_map_iff. split.
  - intros [p [Hin E]]. apply String.eqb_eq in E. now exists p.
  - intros [p [E Hin]]. exists p. split; [exact Hin |].
    now apply String.eqb_eq.
Qed.

Lemma add_cons (place : Place.t) (point : Point.t) (rest : list Point.t) :
  fst (Place.add place (point :: rest))
  = if Place.holds (Place.points place) point
    then fst (Place.add place rest)
    else fst (Place.add
                (Place.mk (Place.layer place) (Place.name place)
                          (Place.points place ++ [point]))
                rest).
Proof.
  simpl. destruct (Place.holds (Place.points place) point); [reflexivity |].
  now destruct (Place.add _ rest).
Qed.

(** Whatever holds of a place and survives appending one point it does not
    hold yet, holds after [add]. *)
Lemma add_preserves (P : Place.t -> Prop) :
  (forall place point,
      P place -> Place.holds (Place.points place) point = false ->
      P (Place.mk (Place.layer place) (Place.name place)
                  (Place.points place ++ [point]))) ->
  forall pts place, P place -> P (fst (Place.add place pts)).
Proof.
  intros Hstep. induction pts as [| point rest IH]; intros place HP.
  - exact HP.
  - rewrite add_cons.
    destruct (Place.holds (Place.points place) point) eqn:E.
    + now apply IH.
    + apply IH. now apply Hstep.
Qed.

Lemma add_path (place : Place.t) (pts : list Point.t) :
  Place.layer (fst (Place.add place pts)) = Place.layer place
  /\ Place.name (fst (Place.add place pts)) = Place.name place.
Proof.
  apply (add_preserves
           (fun q => Place.layer q = Place.layer place
                     /\ Place.name q = Place.name place)); [| now split].
  intros q point [Hl Hn] _. now split.
Qed.

(** Points are only ever appended. *)
Lemma add_extends (place : Place.t) (pts : list Point.t) :
  exists suffix,
    Place.points (fst (Place.add place pts)) = Place.points place ++ suffix.
Proof.
  apply (add_preserves
           (fun q => exists suffix,
                Place.points q = Place.points place ++ suffix)).
  - intros q point [suffix E] _. exists (suffix ++ [point]). simpl.
    now rewrite E, app_assoc.
  - exists []. now rewrite app_nil_r.
Qed.

Lemma add_NoDup (place : Place.t) (pts : list Point.t) :
  NoDup (map Point.toString (Place.points place)) ->
  NoDup (map Point.toString (Place.points (fst (Place.add place pts)))).
Proof.
  intros Hnd.
  apply (add_preserves
           (fun q => NoDup (map Point.toString (Place.points q))));
    [| exact Hnd].
  intros q point Hq Hnew. simpl. rewrite map_app. simpl.
  apply NoDup_snoc; [exact Hq |].
  intros Hin. apply holds_In in Hin. congruence.
Qed.

Lemma add_nonempty (place : Place.t) (pts : list Point.t) :
  pts <> [] -> Place.points (fst (Place.add place pts)) <> [].
Proof.
  destruct pts as [| point rest]; [congruence |]. intros _.
  rewrite add_cons.
  destruct (Place.holds (Place.points place) point) eqn:E.
  - destruct (add_extends place rest) as [suffix ->].
    destruct (Place.points place); [discriminate E | discriminate].
  - destruct (add_extends
                (Place.mk (Place.layer place) (Place.name place)
                          (Place.points place ++ [point])) rest)
      as [suffix ->].
    simpl. destruct (Place.points place); discriminate.
Qed.

Lemma launch_is_launchPoint (base : Point.t) (height : Z) :
  Point.new (JS.of_integral (Point.x base)) (JS.of_integral (Point.y base))
            (JS.Fin (inject_Z height))
  = launchPoint base height.
Proof.
  unfold Point.new, launchPoint.
  change (JS.Fin (inject_Z height)) with (JS.of_integral (JS.Int height)).
  now rewrite !Math_round_of_integral.
Qed.

Lemma isTower_inv (place : Place.t) :
  isTower place = true ->
  Place.layer place = "Surface"%string
  /\ JS.includes "Skyview Tower" (Place.name place) = true
  /\ exists height,
       JS.Map.get (Place.name place) launchHeights = Some height.
Proof.
  unfold isTower, JS.Map.has. rewrite !andb_true_iff.
  intros [[Hl Hi] Hh]. apply String.eqb_eq in Hl.
  repeat split; trivial.
  destruct (JS.Map.get (Place.name place) launchHeights) as [h |];
    [now exists h | discriminate].
Qed.

(** What [checkTower] does to a place the rule applies to, given its
    first point. *)
Lemma checkTower_tower (place : Place.t) (stats : Stats.t)
    (height : Z) (base : Point.t) (rest : list Point.t) :
  Place.layer place = "Surface"%string ->
  JS.includes "Skyview Tower" (Place.name place) = true ->
  JS.Map.get (Place.name place) launchHeights = Some height ->
  Place.points place = base :: rest ->
  checkTower place stats
  = if Place.holds (Place.points place) (launchPoint base height)
    then (place, stats)
    else (Place.mk (Place.layer place) (Place.name place)
                   (Place.points place ++ [launchPoint base height]),
          Stats.mk (Stats.files stats) (Stats.places stats)
                   (S (Stats.points stats)) (S (Stats.launches stats))).
Proof.
  intros Hl Hi Hget Hpts.
  assert (Ht : isTower place = true).
  { unfold isTower, JS.Map.has. now rewrite Hl, Hi, Hget. }
  unfold checkTower. rewrite Ht, Hget, Hpts. simpl negb. cbv iota.
  rewrite launch_is_launchPoint. rewrite <- Hpts.
  unfold Place.add.
  destruct (Place.holds (Place.points place) (launchPoint base height));
    reflexivity.
Qed.

Lemma checkTower_other (place : Place.t) (stats : Stats.t) :
  isTower place = false -> checkTower place stats = (place, stats).
Proof.
  intros H. unfold checkTower. now rewrite H.
Qed.

Lemma checkTower_cases (place : Place.t) (stats : Stats.t) :
  fst (checkTower place stats) = place
  \/ exists base rest height,
       Place.points place = base :: rest
       /\ JS.Map.get (Place.name place) launchHeights = Some height
       /\ Place.holds (Place.points place) (launchPoint base height) = false
       /\ fst (checkTower place stats)
          = Place.mk (Place.layer place) (Place.name place)
                     (Place.points place ++ [launchPoint base height]).
Proof.
  destruct (isTower place) eqn:Ht.
  - destruct (isTower_inv place Ht) as [Hl [Hi [height Hget]]].
    destruct (Place.points place) as [| base rest] eqn:Hpts.
    + left. unfold checkTower. now rewrite Ht, Hget, Hpts.
    + rewrite (checkTower_tower place stats height base rest); trivial.
      rewrite Hpts.
      destruct (Place.holds (base :: rest) (launchPoint base height)) eqn:E.
      * now left.
      * right. exists base, rest, height. now repeat split.
  - left. now rewrite checkTower_other.
Qed.

Lemma checkTower_path (place : Place.t) (stats : Stats.t) :
  Place.layer (fst (checkTower place stats)) = Place.layer place
  /\ Place.name (fst (checkTower place stats)) = Place.name place.
Proof.
  destruct (checkTower_cases place stats)
    as [-> | [base [rest [height [_ [_ [_ ->]]]]]]]; now split.
Qed.

Lemma checkTower_extends (place : Place.t) (stats : Stats.t) :
  exists suffix,
    Place.points (fst (checkTower place stats))
    = Place.points place ++ suffix.
Proof.
  destruct (checkTower_cases place stats)
    as [-> | [base [rest [height [_ [_ [_ ->]]]]]]].
  - exists []. now rewrite app_nil_r.
  - now exists [launchPoint base height].
Qed.

Lemma checkTower_NoDup (place : Place.t) (stats : Stats.t) :
  NoDup (map Point.toString (Place.points place)) ->
  NoDup (map Point.toString (Place.points (fst (checkTower place stats)))).
Proof.
  intros Hnd.
  destruct (checkTower_cases place stats)
    as [-> | [base [rest [height [_ [_ [Hnew ->]]]]]]]; [exact Hnd |].
  simpl. rewrite map_app. simpl. apply NoDup_snoc; [exact Hnd |].
  intros Hin. apply holds_In in Hin. congruence.
Qed.

Lemma checkTower_TowerDone (place : Place.t) (stats : Stats.t) :
  Place.points place <> [] -> TowerDone (fst (checkTower place stats)).
Proof.
  intros Hne Ht.
  destruct (checkTower_path place stats) as [El En].
  assert (Ht' : isTower place = true).
  { unfold isTower in *. now rewrite El, En in Ht. }
  destruct (isTower_inv place Ht') as [Hl [Hi [height Hget]]].
  destruct (Place.points place) as [| base rest] eqn:Hpts; [congruence |].
  rewrite (checkTower_tower place stats height base rest) in *; trivial.
  exists base. rewrite Hpts.
  destruct (Place.holds (base :: rest) (launchPoint base height)) eqn:E;
    simpl fst.
  - exists rest, height. rewrite Hpts. repeat split; trivial.
    now apply holds_In.
  - exists (rest ++ [launchPoint base height]), height. simpl.
    repeat split; trivial.
    right. rewrite map_app. apply in_or_app. right. now left.
Qed.

Lemma isNamedPlace_inv (entry : SourceRecord.t) :
  isNamedPlace entry = true ->
  exists rawName locations,
    SourceRecord.name entry = Some rawName
    /\ SourceRecord.locations entry = Some locations
    /\ locations <> [].
Proof.
  unfold isNamedPlace.
  destruct (SourceRecord.type entry); [| discriminate].
  destruct (SourceRecord.name entry) as [rawName |]; [| discriminate].
  destruct (SourceRecord.locations entry) as [locations |]; [| discriminate].
  rewrite !andb_true_iff. intros [_ Hlen].
  exists rawName, locations. repeat split.
  destruct locations; [discriminate Hlen | discriminate].
Qed.

Lemma Map_set_set {V : Type} (m : JS.Map.t V) (k : string) (v0 v : V) :
  JS.Map.set k v (JS.Map.set k v0 m) = JS.Map.set k v m.
Proof.
  induction m as [| [k' v'] m IH]; simpl.
  - now rewrite String.eqb_refl.
  - destruct (String.eqb_spec k' k) as [-> | Hne]; simpl.
    + now rewrite String.eqb_refl.
    + destruct (String.eqb_spec k' k); [contradiction | now rewrite IH].
Qed.

(** The Place that [getOrCreatePlace] returns is the one stored under the
    path; storing a Place under that path afterwards changes no other
    entry of the map that went in. *)
Lemma getOrCreatePlace_spec (layer name : string) (places : JS.Map.t Place.t) :
  PlacesWf places ->
  let path := (layer ++ "/" ++ name)%string in
  let places1 := fst (getOrCreatePlace layer name places) in
  let place := snd (getOrCreatePlace layer name places) in
  Place.path place = path
  /\ NoDup (map Point.toString (Place.points place))
  /\ NoDup (JS.Map.keys places1)
  /\ forall v, JS.Map.set path v places1 = JS.Map.set path v places.
Proof.
  intros [Hkeys Hall] path places1 place.
  subst places1 place. unfold getOrCreatePlace, JS.Map.has.
  fold path.
  destruct (JS.Map.get path places) as [found |] eqn:Hget; simpl negb;
    cbv iota.
  - rewrite Hget. simpl. apply Map_get_In in Hget.
    rewrite Forall_forall in Hall. destruct (Hall _ Hget) as [Hp Hnd].
    simpl in Hp. repeat split; auto.
  - rewrite Map_get_set_same. simpl. repeat split.
    + constructor.
    + now apply Map_set_NoDup.
    + intros v. apply Map_set_set.
Qed.

Lemma processEntry_wf (layerName : string) (entry : SourceRecord.t) st :
  PlacesWf (fst st) /\ Forall (fun e => TowerDone (snd e)) (fst st) ->
  PlacesWf (fst (processEntry layerName entry st))
  /\ Forall (fun e => TowerDone (snd e))
            (fst (processEntry layerName entry st)).
Proof.
  destruct st as [places stats]. simpl fst. intros [Hwf Htd].
  unfold processEntry.
  destruct (isNamedPlace entry) eqn:Hq; simpl negb; cbv iota; [| now split].
  destruct (isNamedPlace_inv entry Hq) as [rawName [locations [-> [-> Hne]]]].
  unfold placeBeforeTower.
  pose proof (getOrCreatePlace_spec layerName (JS.trim rawName) places Hwf)
    as Hgp. cbv zeta in Hgp.
  destruct (getOrCreatePlace layerName (JS.trim rawName) places)
    as [places1 place]. simpl in Hgp.
  destruct Hgp as [Hpath [Hnd [Hkeys1 Hset]]].
  pose proof (add_path place (map Point.ofLocation locations)) as [Hl1 Hn1].
  pose proof (add_NoDup place (map Point.ofLocation locations) Hnd) as Hnd1.
  assert (Hne1 : Place.points
                   (fst (Place.add place (map Point.ofLocation locations)))
                 <> []).
  { apply add_nonempty. destruct locations; [congruence | discriminate]. }
  destruct (Place.add place (map Point.ofLocation locations))
    as [place1 count]. simpl in Hl1, Hn1, Hnd1, Hne1.
  match goal with
  | |- context [checkTower place1 ?s] =>
      pose proof (checkTower_path place1 s) as [Hl2 Hn2];
      pose proof (checkTower_NoDup place1 s Hnd1) as Hnd2;
      pose proof (checkTower_TowerDone place1 s Hne1) as Htd2;
      destruct (checkTower place1 s) as [place2 stats2]
  end.
  simpl in Hl2, Hn2, Hnd2, Htd2. simpl fst.
  rewrite Hset. destruct Hwf as [Hkeys Hall].
  split; [split |].
  - now apply Map_set_NoDup.
  - apply Map_set_Forall; [| exact Hall]. simpl. split; [| exact Hnd2].
    unfold Place.path in *. now rewrite Hl2, Hn2, Hl1, Hn1.
  - apply (Map_set_Forall (fun e => TowerDone (snd e))); trivial.
Qed.

Lemma NamedPlaces_aggregate_wf (fs : FileSystem) :
  PlacesWf (fst (aggregate fs))
  /\ Forall (fun e => TowerDone (snd e)) (fst (aggregate fs)).
Proof.
  unfold aggregate.
  apply (fold_left_invariant
           (fun st => PlacesWf (fst st)
                      /\ Forall (fun e => TowerDone (snd e)) (fst st))).
  - intros st file _ Hst. unfold readFile.
    destruct (fs file) as [data |]; [| exact Hst].
    assert (H : PlacesWf
                  (fst (processEntries (getLayerFromPath file) data st))
                /\ Forall (fun e => TowerDone (snd e))
                     (fst (processEntries (getLayerFromPath file) data st))).
    { unfold processEntries.
      apply (fold_left_invariant
               (fun st => PlacesWf (fst st)
                          /\ Forall (fun e => TowerDone (snd e)) (fst st)));
        [| exact Hst].
      intros a b _. apply processEntry_wf. }
    now destruct (processEntries (getLayerFromPath file) data st).
  - simpl. repeat split; constructor.
Qed.

Lemma keys_are_paths (places : JS.Map.t Place.t) :
  PlacesWf places ->
  map Place.path (JS.Map.values places) = JS.Map.keys places.
Proof.
  intros [_ Hall]. unfold JS.Map.values, JS.Map.keys.
  rewrite map_map. apply map_ext_in. intros e Hin.
  rewrite Forall_forall in Hall. symmetry. now apply Hall.
Qed.

Lemma Forall_perm {A : Type} (P : A -> Prop) (l l' : list A) :
  Permutation l l' -> Forall P l -> Forall P l'.
Proof.
  intros Hperm Hall. rewrite Forall_forall in *.
  intros a Hin. apply Hall.
  eapply Permutation_in; [apply Permutation_sym, Hperm | exact Hin].
Qed.

(** C4.  In the object-location and the named-place output every key
    heads exactly one line, and the tokens of a line (the members of the
    key's Set, joined by spaces after the key) are pairwise different
    strings. *)
Theorem C4_keys_and_tokens_are_unique :
  forall (localeCompare : string -> string -> Z) (fs : FileSystem),
    (NoDup (map fst (ObjectLocations.sortedEntries localeCompare fs))
     /\ Forall (fun e => NoDup (snd e))
               (ObjectLocations.sortedEntries localeCompare fs))
    /\ (NoDup (map Place.path (sortedPlaces localeCompare fs))
        /\ Forall (fun p => NoDup (map Point.toString (Place.points p)))
                  (sortedPlaces localeCompare fs)).
Proof.
  intros cmp fs. split; split.
  - destruct (ObjectLocations_aggregate_wf fs) as [Hkeys _].
    eapply Permutation_NoDup; [| exact Hkeys].
    apply Permutation_map, Permutation_sym, sort_perm.
  - destruct (ObjectLocations_aggregate_wf fs) as [_ Hall].
    eapply Forall_perm; [apply Permutation_sym, sort_perm | exact Hall].
  - destruct (NamedPlaces_aggregate_wf fs) as [Hwf _].
    pose proof (keys_are_paths _ Hwf) as E. destruct Hwf as [Hkeys _].
    rewrite <- E in Hkeys.
    eapply Permutation_NoDup; [| exact Hkeys].
    apply Permutation_map, Permutation_sym, sort_perm.
  - destruct (NamedPlaces_aggregate_wf fs) as [[_ Hall] _].
    eapply Forall_perm; [apply Permutation_sym, sort_perm |].
    unfold JS.Map.values. rewrite Forall_forall in *.
    intros p Hin. apply in_map_iff in Hin.
    destruct Hin as [e [<- Hin]]. now apply Hall.
Qed.

(** Once the tower rule has run on a place with a point, no later
    [add] followed by [checkTower] changes the place again. *)
Lemma checkTower_settled (place : Place.t) (pts : list Point.t)
    (stats stats' : Stats.t) :
  Place.points place <> [] ->
  checkTower (fst (Place.add (fst (checkTower place stats)) pts)) stats'
  = (fst (Place.add (fst (checkTower place stats)) pts), stats').
Proof.
  intros Hne.
  pose proof (checkTower_TowerDone place stats Hne) as Hdone.
  set (done := fst (checkTower place stats)) in *.
  destruct (add_path done pts) as [El En].
  destruct (add_extends done pts) as [suffix Epts].
  set (q := fst (Place.add done pts)) in *.
  destruct (isTower q) eqn:Ht; [| now apply checkTower_other].
  assert (Ht' : isTower done = true).
  { unfold isTower in *. now rewrite El, En in Ht. }
  destruct (Hdone Ht') as [base [rest [height [Hpts [Hget Hin]]]]].
  destruct (isTower_inv q Ht) as [Hl [Hi _]].
  rewrite <- En in Hget.
  rewrite (checkTower_tower q stats' height base (rest ++ suffix));
    trivial.
  - assert (E : Place.holds (Place.points q) (launchPoint base height)
                = true).
    { apply holds_In. rewrite Epts, map_app. apply in_or_app. now left. }
    now rewrite E.
  - now rewrite Epts, Hpts.
Qed.

(** C3.  On a place of layer "Surface" whose name contains
    "Skyview Tower" and is a key of the table, [checkTower] takes the
    first point of the place and appends one point with that point's [x]
    and [y] and the table's height as [z], counting one launch, unless a
    point with that token is already there, in which case nothing
    changes.  A place whose name is not in the table is left as it is.
    After the rule has run on a place, later records of the place never
    bring a second synthetic point.  Hence, when the loop is over, every
    such tower place holds the synthetic point of its first point.  A Surface record named
    "Hyrule Field Skyview Tower" located at x=100, y=5, z=200 is written
    with the points (5,100,200) and (5,100,754); one named
    "Random Skyview Tower" with (5,100,200) alone. *)
Theorem C3_tower_launch_point :
  (forall (place : Place.t) (stats : Stats.t) (height : Z)
          (base : Point.t) (rest : list Point.t),
      Place.layer place = "Surface"%string ->
      JS.includes "Skyview Tower" (Place.name place) = true ->
      JS.Map.get (Place.name place) launchHeights = Some height ->
      Place.points place = base :: rest ->
      checkTower place stats
      = if Place.holds (Place.points place) (launchPoint base height)
        then (place, stats)
        else (Place.mk (Place.layer place) (Place.name place)
                       (Place.points place ++ [launchPoint base height]),
              Stats.mk (Stats.files stats) (Stats.places stats)
                       (S (Stats.points stats)) (S (Stats.launches stats))))
  /\ (forall (place : Place.t) (stats : Stats.t),
        JS.Map.get (Place.name place) launchHeights = None ->
        checkTower place stats = (place, stats))
  /\ (forall (place : Place.t) (pts : list Point.t) (stats stats' : Stats.t),
        Place.points place <> [] ->
        checkTower (fst (Place.add (fst (checkTower place stats)) pts)) stats'
        = (fst (Place.add (fst (checkTower place stats)) pts), stats'))
  /\ (forall (fs : FileSystem) (key : string) (place : Place.t),
        In (key, place) (fst (aggregate fs)) -> TowerDone place)
  /\ (forall localeCompare : string -> string -> Z,
        main localeCompare hyruleField
        = ("Surface/Hyrule Field Skyview Tower (5,100,200) (5,100,754)"
             ++ JS.LF)%string
        /\ main localeCompare randomTower
           = ("Surface/Random Skyview Tower (5,100,200)" ++ JS.LF)%string).
Proof.
  split; [exact checkTower_tower |].
  split; [| split; [exact checkTower_settled | split]].
  - intros place stats Hnone. apply checkTower_other.
    unfold isTower, JS.Map.has. rewrite Hnone. apply andb_false_r.
  - intros fs key place Hin.
    destruct (NamedPlaces_aggregate_wf fs) as [_ Hall].
    rewrite Forall_forall in Hall. exact (Hall _ Hin).
  - intros cmp. split; reflexivity.
Qed.

Lemma C3_tower_launch_point_witness :
  let after :=
    Place.mk "Surface" "Hyrule Field Skyview Tower"
      [Point.mk (JS.Int 5) (JS.Int 100) (JS.Int 200);
       Point.mk (JS.Int 5) (JS.Int 100) (JS.Int 754)] in
  (Place.layer hyrulePlace = "Surface"%string
   /\ JS.includes "Skyview Tower" (Place.name hyrulePlace) = true
   /\ JS.Map.get (Place.name hyrulePlace) launchHeights = Some 754
   /\ checkTower hyrulePlace Stats.zero = (after, Stats.mk 0 0 1 1))
  /\ (JS.Map.get "Random Skyview Tower" launchHeights = None
      /\ checkTower (Place.mk "Surface" "Random Skyview Tower"
                              (Place.points hyrulePlace)) Stats.zero
         = (Place.mk "Surface" "Random Skyview Tower"
                     (Place.points hyrulePlace), Stats.zero))
  /\ (Place.points hyrulePlace <> []
      /\ checkTower
           (fst (Place.add (fst (checkTower hyrulePlace Stats.zero))
                           [Point.ofLocation (at_ 1 2 3)]))
           Stats.zero
         = (fst (Place.add (fst (checkTower hyrulePlace Stats.zero))
                           [Point.ofLocation (at_ 1 2 3)]),
            Stats.zero))
  /\ (In ("Surface/Hyrule Field Skyview Tower"%string, after)
         (fst (aggregate hyruleField))
      /\ TowerDone after).
Proof.
  intros after.
  destruct C3_tower_launch_point as [Htower [Hother [Hsettled [Hdone _]]]].
  split; [| split; [| split]].
  - split; [reflexivity |]. split; [reflexivity |]. split; [reflexivity |].
    rewrite (Htower hyrulePlace Stats.zero 754
               (Point.mk (JS.Int 5) (JS.Int 100) (JS.Int 200)) []);
      reflexivity.
  - split; [reflexivity |]. apply Hother. reflexivity.
  - split; [discriminate |]. apply Hsettled. discriminate.
  - assert (Hin : In ("Surface/Hyrule Field Skyview Tower"%string, after)
                     (fst (aggregate hyruleField))) by (left; reflexivity).
    split; [exact Hin |].
    exact (Hdone hyruleField _ after Hin).
Defined.

Lemma placeBeforeTower_eq (layerName name : string)
    (locations : list RawLocation.t) (places : JS.Map.t Place.t) :
  let g := getOrCreatePlace layerName name places in
  let a := Place.add (snd g) (map Point.ofLocation locations) in
  placeBeforeTower layerName name locations places = (fst g, fst a, snd a).
Proof.
  unfold placeBeforeTower.
  destruct (getOrCreatePlace layerName name places) as [places1 place].
  simpl. now destruct (Place.add place (map Point.ofLocation locations)).
Qed.

Lemma towerCall_nonempty (layerName : string) (entry : SourceRecord.t)
    (places : JS.Map.t Place.t) :
  Forall (fun p => Place.points p <> []) (towerCall layerName entry places).
Proof.
  unfold towerCall.
  destruct (isNamedPlace entry) eqn:Hq; simpl negb; cbv iota;
    [| constructor].
  destruct (isNamedPlace_inv entry Hq) as [rawName [locations [-> [-> Hne]]]].
  constructor; [| constructor].
  rewrite placeBeforeTower_eq. simpl.
  apply add_nonempty. destruct locations; [congruence | discriminate].
Qed.

(** C10.  Every Place on which [checkTower] is called during
    [processEntries] has at least one point, so [base] is never
    [undefined] there: the call comes right after the points of a record
    with a non-empty [locations] array were added to that Place
    ([processEntry] skips every other record without calling it), and
    neither [add] nor [checkTower] ever removes a point. *)
Theorem C10_tower_check_sees_a_point :
  (forall (layerName : string) (layerData : LayerData)
          (st : JS.Map.t Place.t * Stats.t),
      Forall (fun p => Place.points p <> [])
             (towerCalls layerName layerData st))
  /\ (forall (layerName : string) (entry : SourceRecord.t)
             (places : JS.Map.t Place.t) (stats : Stats.t),
        (towerCall layerName entry places = []
         /\ processEntry layerName entry (places, stats) = (places, stats))
        \/ exists place1 name places1 stats1,
             towerCall layerName entry places = [place1]
             /\ fst (processEntry layerName entry (places, stats))
                = JS.Map.set (layerName ++ "/" ++ name)%string
                             (fst (checkTower place1 stats1)) places1)
  /\ (forall (place : Place.t) (pts : list Point.t),
        exists suffix,
          Place.points (fst (Place.add place pts))
          = Place.points place ++ suffix)
  /\ (forall (place : Place.t) (stats : Stats.t),
        exists suffix,
          Place.points (fst (checkTower place stats))
          = Place.points place ++ suffix).
Proof.
  split; [| split; [| split; [exact add_extends | exact checkTower_extends]]].
  - intros layerName layerData.
    induction layerData as [| entry rest IH]; intros st; simpl.
    + constructor.
    + apply Forall_app. split; [apply towerCall_nonempty | apply IH].
  - intros layerName entry places stats.
    unfold towerCall, processEntry.
    destruct (isNamedPlace entry) eqn:Hq; simpl negb; cbv iota;
      [| now left].
    destruct (isNamedPlace_inv entry Hq)
      as [rawName [locations [-> [-> Hne]]]].
    right. rewrite placeBeforeTower_eq. cbv zeta.
    set (g := getOrCreatePlace layerName (JS.trim rawName) places).
    set (a := Place.add (snd g) (map Point.ofLocation locations)).
    exists (fst a), (JS.trim rawName), (fst g),
           (Stats.mk (Stats.files stats) (Stats.places stats)
                     (Stats.points stats + snd a) (Stats.launches stats)).
    split; [reflexivity |].
    now destruct (checkTower (fst a) _).
Qed.

(* ================================================================== *)
(** ** The inventory *)

Lemma ObjectComponent_spec (icon label : string) :
  ObjectInventory.ObjectComponent.toString
    (ObjectInventory.ObjectComponent.from icon label)
  = specInventoryLine icon label.
Proof.
  unfold ObjectInventory.ObjectComponent.toString,
    ObjectInventory.ObjectComponent.from, specInventoryLine, specIconPath.
  simpl. do 2 f_equal. apply filter_ext.
  intros s. now rewrite negb_orb.
Qed.

Lemma addLine_emits icons labels st i :
  In (specInventoryLine (nth i icons ""%string) (nth i labels ""%string))
     (fst (ObjectInventory.addLine icons labels st i)).
Proof.
  destruct st as [set n]. simpl. rewrite ObjectComponent_spec.
  apply StrSet_add_In.
Qed.

Lemma addLine_keeps icons labels st i line :
  In line (fst st) ->
  In line (fst (ObjectInventory.addLine icons labels st i)).
Proof.
  destruct st as [set n]. simpl. apply StrSet_add_keeps.
Qed.

Lemma ObjectInventory_extractEntry_keeps st r line :
  In line (fst st) -> In line (fst (ObjectInventory.extractEntry st r)).
Proof.
  intros H. unfold ObjectInventory.extractEntry.
  destruct (negb (ObjectInventory.isValidRecord r)); [exact H |].
  destruct (SourceRecord.name r) as [name |]; [| exact H].
  destruct (SourceRecord.icons r) as [icons |]; [| exact H].
  destruct (negb (_ =? _)%nat); [exact H |].
  apply fold_left_invariant; [| exact H].
  intros a b _. apply addLine_keeps.
Qed.

Lemma ObjectInventory_readFile_keeps fs set file line :
  In line set -> In line (ObjectInventory.readFile fs set file).
Proof.
  intros H. unfold ObjectInventory.readFile.
  destruct (fs file) as [data |]; [| exact H].
  unfold ObjectInventory.extractEntries.
  apply (fold_left_invariant (fun st => In line (fst st))); [| exact H].
  intros a b _. apply ObjectInventory_extractEntry_keeps.
Qed.

Lemma fold_left_origin {A B : Type} (Q : A -> Prop) (R : B -> Prop)
    (f : A -> B -> A) (l : list B) :
  (forall a b, In b l -> Q (f a b) -> Q a \/ R b) ->
  forall a, Q (fold_left f l a) -> Q a \/ exists b, In b l /\ R b.
Proof.
  induction l as [| b l IH]; intros Hstep a HQ; simpl in HQ.
  - now left.
  - destruct (IH (fun a' b' Hin => Hstep a' b' (or_intror Hin)) _ HQ)
      as [H | [b' [Hin HR]]].
    + destruct (Hstep a b (or_introl eq_refl) H) as [H' | H'].
      * now left.
      * right. exists b. split; [now left | exact H'].
    + right. exists b'. split; [now right | exact HR].
Qed.

Lemma StrSet_add_inv (s x : string) (m : JS.StrSet.t) :
  In x (JS.StrSet.add s m) -> x = s \/ In x m.
Proof.
  unfold JS.StrSet.add. destruct (JS.StrSet.has s m); [now right |].
  intros H. apply in_app_or in H. destruct H as [H | [<- | []]]; auto.
Qed.

Lemma ObjectInventory_extractEntry_origin st r line :
  In line (fst (ObjectInventory.extractEntry st r)) ->
  In line (fst st)
  \/ exists name icons i,
       SourceRecord.name r = Some name
       /\ name <> ""%string
       /\ SourceRecord.icons r = Some icons
       /\ List.length (JS.split " : " name) = List.length icons
       /\ (i < List.length icons)%nat
       /\ line = specInventoryLine (nth i icons ""%string)
                   (nth i (JS.split " : " name) ""%string).
Proof.
  unfold ObjectInventory.extractEntry, ObjectInventory.isValidRecord.
  destruct (SourceRecord.name r) as [name |]; [| now left].
  destruct (SourceRecord.icons r) as [icons |]; [| now left].
  destruct (0 <? String.length name)%nat eqn:E1; [| now left].
  destruct (0 <? List.length icons)%nat eqn:E2; [| now left].
  cbn [negb andb]. cbv zeta.
  destruct (List.length (JS.split " : " name) =? List.length icons)%nat
    eqn:E3; cbn [negb]; [| now left].
  apply Nat.eqb_eq in E3. intros H.
  apply (fold_left_origin
           (fun st => In line (fst st))
           (fun i => (i < List.length icons)%nat
                     /\ line = specInventoryLine (nth i icons ""%string)
                                 (nth i (JS.split " : " name) ""%string)))
    in H.
  - destruct H as [H | [i [_ [Hi Hline]]]]; [now left |].
    right. exists name, icons, i. repeat split; trivial.
    intros ->. discriminate E1.
  - intros [set n] i Hin Hline. simpl in Hline.
    rewrite ObjectComponent_spec in Hline.
    apply StrSet_add_inv in Hline. destruct Hline as [-> | Hline].
    + right. apply in_seq in Hin. split; [lia | reflexivity].
    + now left.
Qed.

Lemma ObjectInventory_aggregate_origin (fs : FileSystem) (line : string) :
  In line (ObjectInventory.aggregate fs) -> FromRecord fs line.
Proof.
  unfold ObjectInventory.aggregate. intros H.
  apply (fold_left_origin
           (fun set => In line set)
           (fun file => exists data r, fs file = Some data /\ In r data
                          /\ ~ In line ([] : JS.StrSet.t)
                          /\ exists name icons i,
                               SourceRecord.name r = Some name
                               /\ name <> ""%string
                               /\ SourceRecord.icons r = Some icons
                               /\ List.length (JS.split " : " name)
                                  = List.length icons
                               /\ (i < List.length icons)%nat
                               /\ line = specInventoryLine
                                           (nth i icons ""%string)
                                           (nth i (JS.split " : " name)
                                                ""%string)))
    in H.
  - destruct H as [[] | [file [Hfile [data [r [Hfs [Hr [_ Hrest]]]]]]]].
    destruct Hrest as [name [icons [i [? [? [? [? [? ?]]]]]]]].
    exists file, data, r, name, icons, i. repeat split; trivial.
  - intros set file _ Hline. unfold ObjectInventory.readFile in Hline.
    destruct (fs file) as [data |]; [| now left].
    unfold ObjectInventory.extractEntries in Hline.
    apply (fold_left_origin
             (fun st => In line (fst st))
             (fun r => exists name icons i,
                  SourceRecord.name r = Some name
                  /\ name <> ""%string
                  /\ SourceRecord.icons r = Some icons
                  /\ List.length (JS.split " : " name) = List.length icons
                  /\ (i < List.length icons)%nat
                  /\ line = specInventoryLine (nth i icons ""%string)
                              (nth i (JS.split " : " name) ""%string)))
      in Hline.
    + destruct Hline as [Hline | [r [Hr Hrest]]]; [now left |].
      right. exists data, r. repeat split; trivial. intros [].
    + intros st r _. apply ObjectInventory_extractEntry_origin.
Qed.

(** C7.  For a record whose name is a non-empty string and whose labels
    are as many as its icons, the line of every index [i] is written: the
    [i]-th icon split on "_", without the tokens "Icon" and "Tag", joined
    by "/", then "/" and the [i]-th label; and every line written is the
    line of some index of such a record.  The icon
    "Icon_Weapon_Tag_Sword" with the label "Sword" gives
    "Weapon/Sword/Sword". *)
Theorem C7_inventory_line :
  (forall (fs : FileSystem) (line : string),
      In line (ObjectInventory.sorted fs) -> FromRecord fs line)
  /\
  forall (fs : FileSystem) (file : string) (data : LayerData)
         (r : SourceRecord.t) (name : string) (icons : list string)
         (i : nat),
    In file ObjectInventory.sourceFiles ->
    fs file = Some data ->
    In r data ->
    SourceRecord.name r = Some name ->
    name <> ""%string ->
    SourceRecord.icons r = Some icons ->
    List.length (JS.split " : " name) = List.length icons ->
    (i < List.length icons)%nat ->
    In (specInventoryLine (nth i icons ""%string)
                          (nth i (JS.split " : " name) ""%string))
       (ObjectInventory.sorted fs)
    /\ ObjectInventory.ObjectComponent.toString
         (ObjectInventory.ObjectComponent.from
            (nth i icons ""%string) (nth i (JS.split " : " name) ""%string))
       = specInventoryLine (nth i icons ""%string)
                           (nth i (JS.split " : " name) ""%string).
Proof.
  split.
  { intros fs line Hin. apply ObjectInventory_aggregate_origin.
    unfold ObjectInventory.sorted, JS.sortDefault in Hin.
    eapply Permutation_in; [apply sort_perm | exact Hin]. }
  intros fs file data r name icons i Hfile Hfs Hr Hname Hne Hicons Hlen Hi.
  split; [| apply ObjectComponent_spec].
  unfold ObjectInventory.sorted, JS.sortDefault.
  eapply Permutation_in; [apply Permutation_sym, sort_perm |].
  unfold ObjectInventory.aggregate.
  apply fold_left_establish with (b := file); trivial.
  - intros set. unfold ObjectInventory.readFile. rewrite Hfs.
    unfold ObjectInventory.extractEntries.
    apply (fold_left_establish (fun st => In _ (fst st))) with (b := r);
      trivial.
    + intros st. unfold ObjectInventory.extractEntry,
        ObjectInventory.isValidRecord.
      rewrite Hname, Hicons.
      assert (E1 : (0 <? String.length name)%nat = true).
      { apply Nat.ltb_lt. destruct name; [congruence | simpl; lia]. }
      assert (E2 : (0 <? List.length icons)%nat = true).
      { apply Nat.ltb_lt. lia. }
      rewrite E1, E2, Hlen, Nat.eqb_refl. simpl negb. cbv iota.
      apply (fold_left_establish (fun st => In _ (fst st))) with (b := i).
      * apply in_seq. lia.
      * intros a. apply addLine_emits.
      * intros a b'. apply addLine_keeps.
    + intros a b'. apply ObjectInventory_extractEntry_keeps.
  - intros set p. apply ObjectInventory_readFile_keeps.
Qed.

Lemma C7_inventory_line_witness :
  JS.split " : " "Sword" = ["Sword"%string]
  /\ specInventoryLine "Icon_Weapon_Tag_Sword" "Sword"
     = "Weapon/Sword/Sword"%string
  /\ ObjectInventory.main (onlyFile surfaceFile [sword])
     = ("Weapon/Sword/Sword" ++ JS.LF)%string
  /\ In "Weapon/Sword/Sword"%string
        (ObjectInventory.sorted (onlyFile surfaceFile [sword]))
  /\ FromRecord (onlyFile surfaceFile [sword]) "Weapon/Sword/Sword".
Proof.
  destruct C7_inventory_line as [Hfrom Hline].
  split; [reflexivity |]. split; [reflexivity |]. split; [reflexivity |].
  split; [| apply Hfrom; left; reflexivity].
  apply (Hline (onlyFile surfaceFile [sword]) surfaceFile
           [sword] sword "Sword" ["Icon_Weapon_Tag_Sword"%string] 0%nat);
    try reflexivity; simpl; auto.
  discriminate.
Defined.


(* ================================================================== *)
(** ** Strings: split, join and trim *)

Lemma append_nil_r (s : string) : (s ++ "")%string = s.
Proof.
  induction s as [| c s IH]; simpl; [reflexivity | now rewrite IH].
Qed.

Lemma append_assoc (a b c : string) :
  ((a ++ b) ++ c)%string = (a ++ (b ++ c))%string.
Proof.
  induction a as [| x a IH]; simpl; [reflexivity | now rewrite IH].
Qed.

Lemma prefix_dropString (a b : string) :
  String.prefix a b = true -> b = (a ++ dropString (String.length a) b)%string.
Proof.
  revert b. induction a as [| x a IH]; intros b H; simpl.
  - reflexivity.
  - destruct b as [| y b]; cbn [String.prefix] in H; [discriminate |].
    revert H. destruct (ascii_dec x y) as [-> | Hne]; [| discriminate].
    intros H. simpl. f_equal. now apply IH.
Qed.

Lemma split_from_nonempty (sep : string) (s : string) :
  forall skip cur, JS.split_from sep skip cur s <> [].
Proof.
  induction s as [| c s IH]; intros skip cur; cbn [JS.split_from].
  - discriminate.
  - destruct skip; [| apply IH].
    destruct (String.prefix sep (String c s)); [discriminate | apply IH].
Qed.

Lemma join_cons (sep x : string) (l : list string) :
  l <> [] -> JS.join sep (x :: l) = (x ++ sep ++ JS.join sep l)%string.
Proof.
  destruct l; [congruence | reflexivity].
Qed.

Lemma split_from_join (sep : string) :
  sep <> ""%string ->
  forall s skip cur,
    JS.join sep (JS.split_from sep skip cur s)
    = (cur ++ dropString skip s)%string.
Proof.
  intros Hsep. induction s as [| c s IH]; intros skip cur.
  - simpl. destruct skip; simpl; now rewrite append_nil_r.
  - destruct skip as [| k]; [| exact (IH k cur)].
    cbn [JS.split_from dropString].
    destruct (String.prefix sep (String c s)) eqn:Hp.
    + rewrite join_cons by apply split_from_nonempty.
      rewrite IH. simpl. f_equal.
      symmetry. etransitivity; [exact (prefix_dropString _ _ Hp) |].
      destruct sep as [| x sep]; [congruence |].
      simpl. now rewrite Nat.sub_0_r.
    + rewrite IH. simpl. rewrite append_assoc. reflexivity.
Qed.

Lemma join_chars (s : string) :
  JS.join "" (map (fun c => String c "") (list_ascii_of_string s)) = s.
Proof.
  induction s as [| c s IH]; [reflexivity |].
  cbn [list_ascii_of_string map]. unfold JS.join in *.
  destruct s as [| d s]; [reflexivity |].
  cbn [list_ascii_of_string map String.concat] in *. simpl.
  f_equal. exact IH.
Qed.

(** X1.  Splitting loses nothing: joining the pieces of [s.split(sep)]
    with [sep] gives [s] back, for the labels of a name (" : ") and the
    tokens of an icon ("_") as for any separator; and there is always at
    least one piece, except for the empty string split on the empty
    separator. *)
Theorem split_join_roundtrip :
  forall sep s : string,
    JS.join sep (JS.split sep s) = s
    /\ (JS.split sep s = [] <-> sep = ""%string /\ s = ""%string).
Proof.
  intros sep s. split.
  - destruct sep as [| x sep'].
    + apply join_chars.
    + unfold JS.split. rewrite split_from_join by discriminate.
      reflexivity.
  - destruct sep as [| x sep']; simpl.
    + destruct s; simpl; split; try discriminate; auto.
      intros [_ H]. discriminate H.
    + split; [| intros [H _]; discriminate H].
      intros H. now apply split_from_nonempty in H.
Qed.

Lemma trimStart_clean (s : string) :
  startsWithWhiteSpace (JS.trimStart s) = false.
Proof.
  induction s as [| c s IH]; simpl; [reflexivity |].
  destruct (JS.isWhiteSpace c) eqn:E; [exact IH | simpl; exact E].
Qed.

Lemma trimEnd_clean (s : string) :
  endsWithWhiteSpace (JS.trimEnd s) = false.
Proof.
  induction s as [| c s IH]; simpl; [reflexivity |].
  destruct (JS.trimEnd s) as [| d r] eqn:E.
  - destruct (JS.isWhiteSpace c) eqn:Ec; simpl; [reflexivity | exact Ec].
  - exact IH.
Qed.

Lemma trimEnd_keeps_start (s : string) :
  startsWithWhiteSpace s = false ->
  startsWithWhiteSpace (JS.trimEnd s) = false.
Proof.
  destruct s as [| c s]; simpl; [reflexivity |]. intros Hc.
  destruct (JS.trimEnd s); [rewrite Hc |]; simpl; exact Hc.
Qed.

Lemma trimStart_fixed (s : string) :
  startsWithWhiteSpace s = false -> JS.trimStart s = s.
Proof.
  destruct s as [| c s]; simpl; [reflexivity |]. now intros ->.
Qed.

Lemma trimEnd_fixed (s : string) :
  endsWithWhiteSpace s = false -> JS.trimEnd s = s.
Proof.
  induction s as [| c s IH]; [reflexivity |].
  destruct s as [| d s].
  - simpl. now intros ->.
  - intros H. change (endsWithWhiteSpace (String d s) = false) in H.
    cbn [JS.trimEnd]. cbn [JS.trimEnd] in IH. now rewrite (IH H).
Qed.

Lemma trim_idempotent (s : string) : JS.trim (JS.trim s) = JS.trim s.
Proof.
  unfold JS.trim at 1.
  rewrite trimStart_fixed.
  - apply trimEnd_fixed, trimEnd_clean.
  - apply trimEnd_keeps_start, trimStart_clean.
Qed.

(* ================================================================== *)
(** ** Place.add: what it counts and what it skips *)

Lemma add_cons_count (place : Place.t) (point : Point.t)
    (rest : list Point.t) :
  snd (Place.add place (point :: rest))
  = if Place.holds (Place.points place) point
    then snd (Place.add place rest)
    else S (snd (Place.add
                   (Place.mk (Place.layer place) (Place.name place)
                             (Place.points place ++ [point]))
                   rest)).
Proof.
  simpl. destruct (Place.holds (Place.points place) point); [reflexivity |].
  now destruct (Place.add _ rest).
Qed.

Lemma holds_app (pts suffix : list Point.t) (point : Point.t) :
  Place.holds pts point = true -> Place.holds (pts ++ suffix) point = true.
Proof.
  unfold Place.holds. rewrite existsb_app. now intros ->.
Qed.

Lemma add_count (pts : list Point.t) :
  forall place,
    List.length (Place.points (fst (Place.add place pts)))
    = (List.length (Place.points place) + snd (Place.add place pts))%nat
    /\ (snd (Place.add place pts) <= List.length pts)%nat.
Proof.
  induction pts as [| point rest IH]; intros place.
  - simpl. lia.
  - rewrite add_cons, add_cons_count.
    destruct (Place.holds (Place.points place) point).
    + destruct (IH place). simpl List.length. lia.
    + destruct (IH (Place.mk (Place.layer place) (Place.name place)
                             (Place.points place ++ [point]))) as [E L].
      rewrite E. simpl. rewrite length_app. simpl. lia.
Qed.

Lemma add_holds_all (pts : list Point.t) :
  forall place point,
    In point pts ->
    Place.holds (Place.points (fst (Place.add place pts))) point = true.
Proof.
  induction pts as [| p rest IH]; intros place point Hin; [destruct Hin |].
  rewrite add_cons.
  destruct Hin as [-> | Hin].
  - destruct (Place.holds (Place.points place) point) eqn:E.
    + destruct (add_extends place rest) as [suffix ->].
      now apply holds_app.
    + destruct (add_extends
                  (Place.mk (Place.layer place) (Place.name place)
                            (Place.points place ++ [point])) rest)
        as [suffix ->].
      simpl. apply holds_app. unfold Place.holds.
      rewrite existsb_app. simpl. rewrite String.eqb_refl.
      now rewrite orb_true_r.
  - destruct (Place.holds (Place.points place) p); now apply IH.
Qed.

Lemma add_nothing_new (pts : list Point.t) (place : Place.t) :
  (forall point, In point pts ->
                 Place.holds (Place.points place) point = true) ->
  Place.add place pts = (place, 0%nat).
Proof.
  induction pts as [| p rest IH]; intros Hall; [reflexivity |].
  simpl. rewrite (Hall p (or_introl eq_refl)).
  apply IH. intros point Hin. apply Hall. now right.
Qed.

(** X2.  [place.add(...points)] returns the number of points it appended:
    the point list grows by exactly the returned count, which is at most
    the number of points given; afterwards the place holds (by token)
    every point given; and adding the same points once more appends
    nothing and returns 0. *)
Theorem Place_add_counts_what_it_appends :
  forall (place : Place.t) (pts : list Point.t),
    List.length (Place.points (fst (Place.add place pts)))
    = (List.length (Place.points place) + snd (Place.add place pts))%nat
    /\ (snd (Place.add place pts) <= List.length pts)%nat
    /\ Forall (fun point =>
                 Place.holds (Place.points (fst (Place.add place pts))) point
                 = true) pts
    /\ Place.add (fst (Place.add place pts)) pts
       = (fst (Place.add place pts), 0%nat).
Proof.
  intros place pts. destruct (add_count pts place) as [E L].
  repeat split; trivial.
  - apply Forall_forall. intros point Hin. now apply add_holds_all.
  - apply add_nothing_new. intros point Hin. now apply add_holds_all.
Qed.

(* ================================================================== *)
(** ** One record, one place *)

Lemma checkTower_fst_any_stats (place : Place.t) (s s' : Stats.t) :
  fst (checkTower place s) = fst (checkTower place s').
Proof.
  unfold checkTower.
  destruct (negb (isTower place)); [reflexivity |].
  destruct (JS.Map.get (Place.name place) launchHeights); [| reflexivity].
  destruct (Place.points place) as [| base rest]; [reflexivity |].
  destruct (Place.add place _) as [p [| n]]; reflexivity.
Qed.

Lemma isNamedPlace_trimmed (entry : SourceRecord.t) (rawName : string) :
  isNamedPlace entry = true ->
  SourceRecord.name entry = Some rawName ->
  JS.trim rawName <> ""%string.
Proof.
  unfold isNamedPlace. intros H Hn. rewrite Hn in H.
  destruct (SourceRecord.type entry); [| discriminate].
  destruct (SourceRecord.locations entry); [| discriminate].
  rewrite !andb_true_iff in H. destruct H as [[_ H] _].
  intros E. rewrite E in H. discriminate H.
Qed.

Lemma processEntry_places (layerName : string) (entry : SourceRecord.t)
    (places : JS.Map.t Place.t) (stats : Stats.t)
    (rawName : string) (locations : list RawLocation.t) :
  isNamedPlace entry = true ->
  SourceRecord.name entry = Some rawName ->
  SourceRecord.locations entry = Some locations ->
  fst (processEntry layerName entry (places, stats))
  = JS.Map.set (layerName ++ "/" ++ JS.trim rawName)%string
      (placeAfter locations (placeBefore layerName (JS.trim rawName) places))
      places.
Proof.
  intros Hq Hn Hl. unfold processEntry. rewrite Hq, Hn, Hl.
  cbn [negb]. rewrite placeBeforeTower_eq. cbv zeta.
  unfold placeAfter, placeBefore, getOrCreatePlace, JS.Map.has.
  destruct (JS.Map.get (layerName ++ "/" ++ JS.trim rawName) places)
    as [found |] eqn:Hget; cbn [negb].
  - rewrite Hget. cbn [fst snd].
    match goal with
    | |- context [checkTower ?p (Stats.mk ?f ?n ?c ?l)] =>
        rewrite (checkTower_fst_any_stats p Stats.zero (Stats.mk f n c l));
        destruct (checkTower p (Stats.mk f n c l))
    end.
    reflexivity.
  - rewrite Map_get_set_same. cbn [fst snd].
    match goal with
    | |- context [checkTower ?p (Stats.mk ?f ?n ?c ?l)] =>
        rewrite (checkTower_fst_any_stats p Stats.zero (Stats.mk f n c l));
        destruct (checkTower p (Stats.mk f n c l))
    end.
    cbn [fst]. apply Map_set_set.
Qed.

(** X3.  A qualifying record changes the Place stored under its own path
    (layer, "/", trimmed name) and no other entry of the Map: afterwards
    that path holds the Place it held before, or a new one, with the
    record's points and the tower point added, and every other path holds
    what it held. *)
Theorem processEntry_touches_one_place :
  forall (layerName : string) (entry : SourceRecord.t)
         (places : JS.Map.t Place.t) (stats : Stats.t)
         (rawName : string) (locations : list RawLocation.t),
    isNamedPlace entry = true ->
    SourceRecord.name entry = Some rawName ->
    SourceRecord.locations entry = Some locations ->
    let key := (layerName ++ "/" ++ JS.trim rawName)%string in
    let places' := fst (processEntry layerName entry (places, stats)) in
    JS.Map.get key places'
    = Some (placeAfter locations
              (placeBefore layerName (JS.trim rawName) places))
    /\ forall other, other <> key ->
                     JS.Map.get other places' = JS.Map.get other places.
Proof.
  intros layerName entry places stats rawName locations Hq Hn Hl key places'.
  subst places'. rewrite (processEntry_places _ _ _ _ _ _ Hq Hn Hl).
  fold key. split.
  - apply Map_get_set_same.
  - intros other Hne. now apply Map_get_set_other.
Qed.

Lemma processEntry_touches_one_place_witness :
  let entry := marker "  Lookout Landing " [at_ 1 2 3] in
  isNamedPlace entry = true
  /\ JS.Map.get "Surface/Lookout Landing"
       (fst (processEntry "Surface" entry ([], Stats.zero)))
     = Some (Place.mk "Surface" "Lookout Landing"
               [Point.mk (JS.Int 2) (JS.Int 1) (JS.Int 3)]).
Proof.
  intros entry. split; [reflexivity |].
  exact (proj1 (processEntry_touches_one_place
                  "Surface" entry [] Stats.zero "  Lookout Landing "
                  [at_ 1 2 3] eq_refl eq_refl eq_refl)).
Defined.

Lemma placeAfter_path (locations : list RawLocation.t) (place : Place.t) :
  Place.layer (placeAfter locations place) = Place.layer place
  /\ Place.name (placeAfter locations place) = Place.name place.
Proof.
  unfold placeAfter.
  destruct (checkTower_path
              (fst (Place.add place (map Point.ofLocation locations)))
              Stats.zero) as [-> ->].
  apply add_path.
Qed.

Lemma placeAfter_extends (locations : list RawLocation.t) (place : Place.t) :
  exists suffix,
    Place.points (placeAfter locations place) = Place.points place ++ suffix.
Proof.
  unfold placeAfter.
  destruct (checkTower_extends
              (fst (Place.add place (map Point.ofLocation locations)))
              Stats.zero) as [s2 ->].
  destruct (add_extends place (map Point.ofLocation locations)) as [s1 ->].
  exists (s1 ++ s2). now rewrite app_assoc.
Qed.

Lemma placeAfter_nonempty (locations : list RawLocation.t) (place : Place.t) :
  locations <> [] -> Place.points (placeAfter locations place) <> [].
Proof.
  intros Hne. unfold placeAfter.
  destruct (checkTower_extends
              (fst (Place.add place (map Point.ofLocation locations)))
              Stats.zero) as [s2 ->].
  assert (H : Place.points
                (fst (Place.add place (map Point.ofLocation locations)))
              <> []).
  { apply add_nonempty. destruct locations; [congruence | discriminate]. }
  destruct (Place.points
              (fst (Place.add place (map Point.ofLocation locations))));
    [congruence | discriminate].
Qed.

(** A property of the entries of [places] survives a record when the
    Place the record works on keeps it. *)
Lemma processEntry_Forall (Q : string * Place.t -> Prop)
    (layerName : string) (entry : SourceRecord.t) st :
  Forall Q (fst st) ->
  (forall rawName locations,
      isNamedPlace entry = true ->
      SourceRecord.name entry = Some rawName ->
      SourceRecord.locations entry = Some locations ->
      locations <> [] ->
      let key := (layerName ++ "/" ++ JS.trim rawName)%string in
      (forall place0, In (key, place0) (fst st) -> Q (key, place0) ->
                      Q (key, placeAfter locations place0))
      /\ (JS.Map.get key (fst st) = None ->
          Q (key, placeAfter locations
                    (Place.new layerName (JS.trim rawName))))) ->
  Forall Q (fst (processEntry layerName entry st)).
Proof.
  destruct st as [places stats]. cbn [fst]. intros Hall Hstep.
  destruct (isNamedPlace entry) eqn:Hq;
    [| now rewrite NamedPlaces_skip].
  destruct (isNamedPlace_inv entry Hq) as [rawName [locations [Hn [Hl Hne]]]].
  rewrite (processEntry_places _ _ _ _ _ _ Hq Hn Hl).
  destruct (Hstep rawName locations eq_refl Hn Hl Hne) as [Hold Hnew].
  apply Map_set_Forall; [| exact Hall].
  unfold placeBefore.
  destruct (JS.Map.get (layerName ++ "/" ++ JS.trim rawName) places)
    as [found |] eqn:Hget.
  - apply Map_get_In in Hget. apply Hold; [exact Hget |].
    rewrite Forall_forall in Hall. now apply Hall.
  - now apply Hnew.
Qed.

Lemma aggregate_Forall (Q : string * Place.t -> Prop) (fs : FileSystem) :
  (forall file data entry places rawName locations,
      In file sourceFiles -> fs file = Some data -> In entry data ->
      isNamedPlace entry = true ->
      SourceRecord.name entry = Some rawName ->
      SourceRecord.locations entry = Some locations ->
      locations <> [] ->
      Forall Q places ->
      let layerName := getLayerFromPath file in
      let key := (layerName ++ "/" ++ JS.trim rawName)%string in
      (forall place0, In (key, place0) places -> Q (key, place0) ->
                      Q (key, placeAfter locations place0))
      /\ (JS.Map.get key places = None ->
          Q (key, placeAfter locations
                    (Place.new layerName (JS.trim rawName))))) ->
  Forall Q (fst (aggregate fs)).
Proof.
  intros Hstep. unfold aggregate.
  apply (fold_left_invariant (fun st => Forall Q (fst st)));
    [| constructor].
  intros st file Hfile Hst. unfold readFile.
  destruct (fs file) as [data |] eqn:Hfs; [| exact Hst].
  assert (H : Forall Q (fst (processEntries (getLayerFromPath file) data st))).
  { unfold processEntries.
    apply (fold_left_invariant (fun st => Forall Q (fst st))); [| exact Hst].
    intros st' entry Hin Hst'. apply processEntry_Forall; [exact Hst' |].
    intros rawName locations Hq Hn Hl Hne.
    exact (Hstep file data entry (fst st') rawName locations
                 Hfile Hfs Hin Hq Hn Hl Hne Hst'). }
  now destruct (processEntries (getLayerFromPath file) data st).
Qed.

Lemma getLayerFromPath_names (path : string) :
  In (getLayerFromPath path) layerNames.
Proof.
  unfold getLayerFromPath, layerNames.
  destruct (JS.includes "depths" path); [now left |].
  destruct (JS.includes "sky" path); [right; now left |].
  destruct (JS.includes "cave" path); [right; right; now left |].
  right; right; right; now left.
Qed.

(** X4.  Every line of data-named-places.txt is well formed: the place's
    layer is one of Depths, Sky, Cave and Surface, its name is non-empty
    and carries no white space at either end, and at least one point
    follows the key. *)
Theorem NamedPlaces_lines_well_formed :
  forall (localeCompare : string -> string -> Z) (fs : FileSystem),
    Forall (fun p =>
              In (Place.layer p) layerNames
              /\ Place.name p <> ""%string
              /\ startsWithWhiteSpace (Place.name p) = false
              /\ endsWithWhiteSpace (Place.name p) = false
              /\ Place.points p <> [])
           (sortedPlaces localeCompare fs).
Proof.
  intros cmp fs.
  eapply Forall_perm; [apply Permutation_sym, sort_perm |].
  unfold JS.Map.values. apply Forall_map.
  apply (aggregate_Forall
           (fun e => In (Place.layer (snd e)) layerNames
                     /\ Place.name (snd e) <> ""%string
                     /\ startsWithWhiteSpace (Place.name (snd e)) = false
                     /\ endsWithWhiteSpace (Place.name (snd e)) = false
                     /\ Place.points (snd e) <> [])).
  intros file data entry places rawName locations
         Hfile Hfs Hin Hq Hn Hl Hne Hall layerName key.
  split.
  - intros place0 _ [HL [HN [HS [HE _]]]]. cbn [snd] in *.
    destruct (placeAfter_path locations place0) as [-> ->].
    repeat split; trivial. now apply placeAfter_nonempty.
  - intros _. cbn [snd].
    destruct (placeAfter_path locations
                (Place.new layerName (JS.trim rawName))) as [-> ->].
    cbn [Place.new Place.layer Place.name]. repeat split.
    + apply getLayerFromPath_names.
    + now apply (isNamedPlace_trimmed entry).
    + apply trimEnd_keeps_start, trimStart_clean.
    + apply trimEnd_clean.
    + now apply placeAfter_nonempty.
Qed.

(* ================================================================== *)
(** ** The counters of generate-named-places.js *)

Lemma sumOver_set {V : Type} (f : V -> nat) (m : JS.Map.t V)
    (k : string) (v : V) :
  (sumOver f (JS.Map.set k v m)
   + match JS.Map.get k m with Some v0 => f v0 | None => 0 end
   = sumOver f m + f v)%nat.
Proof.
  unfold sumOver. induction m as [| [k0 v0] m IH]; simpl.
  - lia.
  - destruct (String.eqb_spec k0 k) as [-> | Hne]; simpl; lia.
Qed.

Lemma length_set_le {V : Type} (m : JS.Map.t V) (k : string) (v : V) :
  (List.length (JS.Map.set k v m) <= S (List.length m))%nat.
Proof.
  induction m as [| [k0 v0] m IH]; simpl; [lia |].
  destruct (k0 =? k)%string; simpl; lia.
Qed.

Lemma checkTower_delta (place : Place.t) (stats : Stats.t) :
  exists d : nat,
    (d <= if isTower place then 1 else 0)%nat
    /\ snd (checkTower place stats)
       = Stats.mk (Stats.files stats) (Stats.places stats)
                  (Stats.points stats + d) (Stats.launches stats + d)
    /\ List.length (Place.points (fst (checkTower place stats)))
       = (List.length (Place.points place) + d)%nat.
Proof.
  assert (Hzero : (0 <= if isTower place then 1 else 0)%nat
                  /\ snd (place, stats) = Stats.mk (Stats.files stats)
                       (Stats.places stats) (Stats.points stats + 0)
                       (Stats.launches stats + 0)
                  /\ List.length (Place.points (fst (place, stats)))
                     = (List.length (Place.points place) + 0)%nat).
  { destruct stats. simpl. rewrite !Nat.add_0_r.
    repeat split; destruct (isTower place); lia. }
  destruct (isTower place) eqn:Ht.
  - destruct (isTower_inv place Ht) as [Hl [Hi [height Hget]]].
    destruct (Place.points place) as [| base rest] eqn:Hpts.
    + exists 0%nat. unfold checkTower. rewrite Ht, Hget, Hpts. exact Hzero.
    + rewrite (checkTower_tower place stats height base rest); trivial.
      rewrite Hpts.
      destruct (Place.holds (base :: rest) (launchPoint base height)).
      * exists 0%nat. exact Hzero.
      * exists 1%nat. cbn [fst snd Place.points].
        rewrite length_app, !Nat.add_1_r. repeat split. lia.
  - exists 0%nat. rewrite checkTower_other by exact Ht. exact Hzero.
Qed.

Lemma checkTower_settled_place (place : Place.t) (pts : list Point.t)
    (stats : Stats.t) :
  TowerDone place -> Place.points place <> [] ->
  checkTower (fst (Place.add place pts)) stats
  = (fst (Place.add place pts), stats).
Proof.
  intros Hdone Hne.
  destruct (add_path place pts) as [El En].
  destruct (add_extends place pts) as [suffix Epts].
  set (q := fst (Place.add place pts)) in *.
  destruct (isTower q) eqn:Ht; [| now apply checkTower_other].
  assert (Ht' : isTower place = true).
  { unfold isTower in *. now rewrite El, En in Ht. }
  destruct (Hdone Ht') as [base [rest [height [Hpts [Hget Hin]]]]].
  destruct (isTower_inv q Ht) as [Hl [Hi _]].
  rewrite <- En in Hget.
  rewrite (checkTower_tower q stats height base (rest ++ suffix)); trivial.
  - assert (E : Place.holds (Place.points q) (launchPoint base height)
                = true).
    { apply holds_In. rewrite Epts, map_app. apply in_or_app. now left. }
    now rewrite E.
  - now rewrite Epts, Hpts.
Qed.

(** The counters after a qualifying record: one more record, [count]
    more points from the record itself and [d] more (0 or 1) from the
    tower rule, with [d] added to the launches too. *)
Lemma processEntry_counters (layerName : string) (entry : SourceRecord.t)
    (places : JS.Map.t Place.t) (stats : Stats.t)
    (rawName : string) (locations : list RawLocation.t) :
  isNamedPlace entry = true ->
  SourceRecord.name entry = Some rawName ->
  SourceRecord.locations entry = Some locations ->
  let place0 := placeBefore layerName (JS.trim rawName) places in
  exists count d : nat,
    (d <= if isTower place0 then 1 else 0)%nat
    /\ (TowerDone place0 -> Place.points place0 <> [] -> d = 0%nat)
    /\ List.length (Place.points (placeAfter locations place0))
       = (List.length (Place.points place0) + count + d)%nat
    /\ snd (processEntry layerName entry (places, stats))
       = Stats.mk (Stats.files stats) (S (Stats.places stats))
                  (Stats.points stats + count + d)
                  (Stats.launches stats + d).
Proof.
  intros Hq Hn Hl place0.
  set (pts := map Point.ofLocation locations).
  set (a := Place.add place0 pts).
  set (stats1 := Stats.mk (Stats.files stats) (Stats.places stats)
                          (Stats.points stats + snd a)
                          (Stats.launches stats)).
  assert (Hsnd : snd (processEntry layerName entry (places, stats))
                 = Stats.mk (Stats.files (snd (checkTower (fst a) stats1)))
                     (S (Stats.places (snd (checkTower (fst a) stats1))))
                     (Stats.points (snd (checkTower (fst a) stats1)))
                     (Stats.launches (snd (checkTower (fst a) stats1)))).
  { unfold processEntry. rewrite Hq, Hn, Hl. cbn [negb].
    rewrite placeBeforeTower_eq. cbv zeta.
    assert (E : snd (getOrCreatePlace layerName (JS.trim rawName) places)
                = place0).
    { unfold getOrCreatePlace, JS.Map.has, place0, placeBefore.
      destruct (JS.Map.get (layerName ++ "/" ++ JS.trim rawName) places)
        as [found |] eqn:Hget; cbn [negb].
      - now rewrite Hget.
      - now rewrite Map_get_set_same. }
    rewrite E. fold pts. fold a. fold stats1.
    now destruct (checkTower (fst a) stats1). }
  destruct (checkTower_delta (fst a) stats1) as [d [Hd [Hs Hlen]]].
  destruct (add_path place0 pts) as [El En]. fold a in El, En.
  destruct (add_count pts place0) as [Hcount _]. fold a in Hcount.
  exists (snd a), d. repeat split.
  - unfold isTower in *. now rewrite El, En in Hd.
  - intros Hdone Hne.
    pose proof (checkTower_settled_place place0 pts stats1 Hdone Hne) as E.
    fold a in E. rewrite E in Hs. cbn [snd] in Hs.
    injection Hs as Hp _. lia.
  - unfold placeAfter. fold pts. fold a.
    rewrite (checkTower_fst_any_stats (fst a) Stats.zero stats1). lia.
  - rewrite Hsnd, Hs. reflexivity.
Qed.

Lemma processEntries_counts (layerName : string) (layerData : LayerData) :
  forall st,
    Stats.files (snd (processEntries layerName layerData st))
    = Stats.files (snd st)
    /\ Stats.places (snd (processEntries layerName layerData st))
       = (Stats.places (snd st)
          + List.length (filter isNamedPlace layerData))%nat.
Proof.
  unfold processEntries.
  induction layerData as [| entry rest IH]; intros st; simpl.
  - lia.
  - destruct (IH (processEntry layerName entry st)) as [-> ->].
    destruct (isNamedPlace entry) eqn:Hq.
    + destruct (isNamedPlace_inv entry Hq)
        as [rawName [locations [Hn [Hl _]]]].
      destruct st as [places stats].
      destruct (processEntry_counters layerName entry places stats
                  rawName locations Hq Hn Hl)
        as [count [d [_ [_ [_ ->]]]]].
      simpl. lia.
    + rewrite NamedPlaces_skip by exact Hq. lia.
Qed.

Lemma aggregate_counts (fs : FileSystem) (files : list string) :
  forall st,
    Stats.files (snd (fold_left (readFile fs) files st))
    = (Stats.files (snd st) + existingIn files fs)%nat
    /\ Stats.places (snd (fold_left (readFile fs) files st))
       = (Stats.places (snd st) + qualifyingIn files fs)%nat.
Proof.
  unfold existingIn, qualifyingIn.
  induction files as [| file rest IH]; intros st; simpl.
  - lia.
  - destruct (IH (readFile fs st file)) as [-> ->].
    unfold readFile. destruct (fs file) as [data |]; simpl; [| lia].
    destruct (processEntries_counts (getLayerFromPath file) data st)
      as [Ef Ep].
    destruct (processEntries (getLayerFromPath file) data st)
      as [places stats].
    simpl in *. lia.
Qed.

(** X5.  What the build summary prints as "Files read" is the number of
    source files that exist, and what it prints as "Named places" is the
    number of records that [isNamedPlace] accepted, counting every record
    of a place that occurs more than once; the number of lines written
    is at most that number. *)
Theorem NamedPlaces_counts_files_and_records :
  forall (localeCompare : string -> string -> Z) (fs : FileSystem),
    Stats.files (snd (aggregate fs)) = existingIn sourceFiles fs
    /\ Stats.places (snd (aggregate fs)) = qualifyingIn sourceFiles fs
    /\ (List.length (output localeCompare fs)
        <= Stats.places (snd (aggregate fs)))%nat.
Proof.
  intros cmp fs.
  destruct (aggregate_counts fs sourceFiles ([], Stats.zero)) as [Ef Ep].
  fold (aggregate fs) in Ef, Ep. simpl in Ef, Ep.
  repeat split; trivial.
  unfold output, sortedPlaces, JS.sortBy, JS.Map.values.
  rewrite length_map.
  rewrite (Permutation_length (sort_perm _ _)), length_map.
  unfold aggregate.
  apply (fold_left_invariant
           (fun st => (List.length (fst st) <= Stats.places (snd st))%nat));
    [| simpl; lia].
  intros st file _ Hst. unfold readFile.
  destruct (fs file) as [data |]; [| exact Hst].
  assert (H : (List.length
                 (fst (processEntries (getLayerFromPath file) data st))
               <= Stats.places
                    (snd (processEntries (getLayerFromPath file) data st)))%nat).
  { unfold processEntries.
    apply (fold_left_invariant
             (fun st => (List.length (fst st)
                         <= Stats.places (snd st))%nat)); [| exact Hst].
    intros [places stats] entry _ Hle. cbn [fst snd] in Hle.
    destruct (isNamedPlace entry) eqn:Hq;
      [| now rewrite NamedPlaces_skip].
    destruct (isNamedPlace_inv entry Hq)
      as [rawName [locations [Hn [Hl _]]]].
    rewrite (processEntry_places _ _ _ _ _ _ Hq Hn Hl).
    destruct (processEntry_counters (getLayerFromPath file) entry places
                stats rawName locations Hq Hn Hl)
      as [count [d [_ [_ [_ E]]]]].
    unfold JS.Map.t in E. rewrite E. cbn [Stats.places].
    etransitivity; [apply length_set_le | lia]. }
  now destruct (processEntries (getLayerFromPath file) data st).
Qed.

Lemma placeAfter_TowerDone (locations : list RawLocation.t) (place : Place.t) :
  locations <> [] -> TowerDone (placeAfter locations place).
Proof.
  intros Hne. unfold placeAfter. apply checkTower_TowerDone.
  apply add_nonempty. destruct locations; [congruence | discriminate].
Qed.

Lemma towerPlaces_le_length (places : JS.Map.t Place.t) :
  (towerPlaces places <= List.length places)%nat.
Proof.
  unfold towerPlaces, sumOver.
  induction places as [| [k p] places IH]; simpl; [lia |].
  destruct (isTower p); lia.
Qed.

Lemma processEntry_points_counter (layerName : string)
    (entry : SourceRecord.t) st :
  Forall (fun e => TowerDone (snd e) /\ Place.points (snd e) <> []) (fst st)
  /\ Stats.points (snd st) = totalPoints (fst st)
  /\ (Stats.launches (snd st) <= towerPlaces (fst st))%nat ->
  Forall (fun e => TowerDone (snd e) /\ Place.points (snd e) <> [])
         (fst (processEntry layerName entry st))
  /\ Stats.points (snd (processEntry layerName entry st))
     = totalPoints (fst (processEntry layerName entry st))
  /\ (Stats.launches (snd (processEntry layerName entry st))
      <= towerPlaces (fst (processEntry layerName entry st)))%nat.
Proof.
  intros [Hall [Hpoints Hlaunch]]. split.
  { apply processEntry_Forall; [exact Hall |].
    intros rawName locations _ _ _ Hne key. split.
    - intros place0 _ _. cbn [snd]. split;
        [now apply placeAfter_TowerDone | now apply placeAfter_nonempty].
    - intros _. cbn [snd]. split;
        [now apply placeAfter_TowerDone | now apply placeAfter_nonempty]. }
  destruct st as [places stats]. cbn [fst snd] in *.
  destruct (isNamedPlace entry) eqn:Hq;
    [| now rewrite NamedPlaces_skip].
  destruct (isNamedPlace_inv entry Hq) as [rawName [locations [Hn [Hl _]]]].
  rewrite (processEntry_places _ _ _ _ _ _ Hq Hn Hl).
  destruct (processEntry_counters layerName entry places stats
              rawName locations Hq Hn Hl) as [count [d [Hd [Hset [Hlen E]]]]].
  unfold JS.Map.t in *. rewrite E. cbn [Stats.points Stats.launches].
  set (key := (layerName ++ "/" ++ JS.trim rawName)%string) in *.
  set (place0 := placeBefore layerName (JS.trim rawName) places) in *.
  pose proof (sumOver_set (fun p => List.length (Place.points p))
                places key (placeAfter locations place0)) as Hsum.
  pose proof (sumOver_set (fun p => if isTower p then 1 else 0)%nat
                places key (placeAfter locations place0)) as Htow.
  fold (totalPoints (JS.Map.set key (placeAfter locations place0) places))
    in Hsum.
  fold (totalPoints places) in Hsum.
  fold (towerPlaces (JS.Map.set key (placeAfter locations place0) places))
    in Htow.
  fold (towerPlaces places) in Htow.
  assert (Eind : isTower (placeAfter locations place0) = isTower place0).
  { destruct (placeAfter_path locations place0) as [El En].
    unfold isTower. now rewrite El, En. }
  cbv beta in Hsum, Htow. rewrite Eind in Htow.
  subst place0. unfold placeBefore in *. subst key.
  destruct (JS.Map.get (layerName ++ "/" ++ JS.trim rawName) places)
    as [found |] eqn:Hget.
  - apply Map_get_In in Hget. rewrite Forall_forall in Hall.
    destruct (Hall _ Hget) as [Hdone Hne]. cbn [snd] in Hdone, Hne.
    specialize (Hset Hdone Hne). subst d. split; lia.
  - cbn [Place.new Place.points List.length] in Hlen. split; lia.
Qed.

Lemma aggregate_points_counter (fs : FileSystem) :
  Forall (fun e => TowerDone (snd e) /\ Place.points (snd e) <> [])
         (fst (aggregate fs))
  /\ Stats.points (snd (aggregate fs)) = totalPoints (fst (aggregate fs))
  /\ (Stats.launches (snd (aggregate fs))
      <= towerPlaces (fst (aggregate fs)))%nat.
Proof.
  unfold aggregate.
  apply (fold_left_invariant
           (fun st =>
              Forall (fun e => TowerDone (snd e)
                               /\ Place.points (snd e) <> []) (fst st)
              /\ Stats.points (snd st) = totalPoints (fst st)
              /\ (Stats.launches (snd st) <= towerPlaces (fst st))%nat)).
  - intros st file _ Hst. unfold readFile.
    destruct (fs file) as [data |]; [| exact Hst].
    assert (H : let st' := processEntries (getLayerFromPath file) data st in
                Forall (fun e => TowerDone (snd e)
                                 /\ Place.points (snd e) <> []) (fst st')
                /\ Stats.points (snd st') = totalPoints (fst st')
                /\ (Stats.launches (snd st') <= towerPlaces (fst st'))%nat).
    { unfold processEntries.
      apply (fold_left_invariant
               (fun st =>
                  Forall (fun e => TowerDone (snd e)
                                   /\ Place.points (snd e) <> []) (fst st)
                  /\ Stats.points (snd st) = totalPoints (fst st)
                  /\ (Stats.launches (snd st)
                      <= towerPlaces (fst st))%nat)); [| exact Hst].
      intros a b _. apply processEntry_points_counter. }
    cbv zeta in H.
    now destruct (processEntries (getLayerFromPath file) data st).
  - cbn. repeat split; [constructor | lia].
Qed.

(** X6.  What the build summary prints as "Points" is the number of
    points of all places together, that is the number of coordinate
    tokens written; and "Launch entries" never exceeds the number of
    places the tower rule applies to: no tower place gets two launch
    points. *)
Theorem NamedPlaces_counts_points_and_launches :
  forall fs : FileSystem,
    Stats.points (snd (aggregate fs)) = totalPoints (fst (aggregate fs))
    /\ (Stats.launches (snd (aggregate fs))
        <= towerPlaces (fst (aggregate fs)))%nat
    /\ (towerPlaces (fst (aggregate fs))
        <= List.length (fst (aggregate fs)))%nat.
Proof.
  intros fs.
  destruct (aggregate_points_counter fs) as [_ [Hp Hl]].
  repeat split; trivial.
  apply towerPlaces_le_length.
Qed.

(* ================================================================== *)
(** ** Files without records, and missing files *)

Lemma fold_left_related {A B C : Type} (R : A -> C -> Prop)
    (f : A -> B -> A) (g : C -> B -> C) (l : list B) :
  (forall a c b, In b l -> R a c -> R (f a b) (g c b)) ->
  forall a c, R a c -> R (fold_left f l a) (fold_left g l c).
Proof.
  induction l as [| b l IH]; intros Hstep a c HR; simpl.
  - exact HR.
  - apply IH.
    + intros a' c' b' Hin. apply Hstep. now right.
    + apply Hstep; [now left | exact HR].
Qed.

Lemma fold_left_unchanged {A B : Type} (f : A -> B -> A) (l : list B) :
  (forall a b, In b l -> f a b = a) -> forall a, fold_left f l a = a.
Proof.
  induction l as [| b l IH]; intros Hskip a; simpl.
  - reflexivity.
  - rewrite (Hskip a b (or_introl eq_refl)).
    apply IH. intros a' b' Hin. apply Hskip. now right.
Qed.

(** The places do not depend on the counters. *)
Lemma processEntry_places_any_stats (layerName : string)
    (entry : SourceRecord.t) st st' :
  fst st = fst st' ->
  fst (processEntry layerName entry st)
  = fst (processEntry layerName entry st').
Proof.
  destruct st as [places stats], st' as [places' stats']. cbn [fst].
  intros <-.
  destruct (isNamedPlace entry) eqn:Hq.
  - destruct (isNamedPlace_inv entry Hq)
      as [rawName [locations [Hn [Hl _]]]].
    now rewrite !(processEntry_places _ _ _ _ _ _ Hq Hn Hl).
  - now rewrite !NamedPlaces_skip.
Qed.

Lemma processEntries_places_any_stats (layerName : string)
    (layerData : LayerData) st st' :
  fst st = fst st' ->
  fst (processEntries layerName layerData st)
  = fst (processEntries layerName layerData st').
Proof.
  unfold processEntries.
  apply (fold_left_related (fun a c => fst a = fst c)).
  intros a c b _. apply processEntry_places_any_stats.
Qed.

Lemma readFile_places (fs : FileSystem) st (file : string) :
  fst (readFile fs st file)
  = match fs file with
    | Some data => fst (processEntries (getLayerFromPath file) data st)
    | None => fst st
    end.
Proof.
  unfold readFile. destruct (fs file) as [data |]; [| reflexivity].
  now destruct (processEntries (getLayerFromPath file) data st).
Qed.

(** X7.  When no record of any source file passes a pipeline's validity
    test (in particular when no source file exists), that pipeline still
    writes its file, and the file holds a single line feed. *)
Theorem no_valid_record_writes_one_newline :
  forall (localeCompare : string -> string -> Z) (fs : FileSystem),
    ((forall file data r,
         In file sourceFiles -> fs file = Some data -> In r data ->
         isNamedPlace r = false) ->
     main localeCompare fs = JS.LF)
    /\ ((forall file data r,
            In file ObjectLocations.sourceFiles -> fs file = Some data ->
            In r data -> ObjectLocations.isValidRecord r = false) ->
        ObjectLocations.main localeCompare fs = JS.LF)
    /\ ((forall file data r,
            In file ObjectInventory.sourceFiles -> fs file = Some data ->
            In r data -> ObjectInventory.isValidRecord r = false) ->
        ObjectInventory.main fs = JS.LF).
Proof.
  intros cmp fs. split; [| split]; intros Hnone.
  - assert (E : fst (aggregate fs) = []).
    { unfold aggregate.
      apply (fold_left_invariant (fun st => fst st = [])); [| reflexivity].
      intros st file Hfile Hst. rewrite readFile_places.
      destruct (fs file) as [data |] eqn:Hfs; [| exact Hst].
      unfold processEntries. rewrite fold_left_unchanged; [exact Hst |].
      intros a r Hr. apply NamedPlaces_skip. now apply (Hnone file data). }
    unfold main, output, sortedPlaces. now rewrite E.
  - assert (E : ObjectLocations.aggregate fs = []).
    { unfold ObjectLocations.aggregate.
      apply (fold_left_invariant (fun m => m = [])); [| reflexivity].
      intros m file Hfile ->. unfold ObjectLocations.readFile.
      destruct (fs file) as [data |] eqn:Hfs; [| reflexivity].
      unfold ObjectLocations.extractEntries.
      rewrite fold_left_unchanged; [reflexivity |].
      intros a r Hr. apply ObjectLocations_skip. now apply (Hnone file data). }
    unfold ObjectLocations.main, ObjectLocations.lines,
      ObjectLocations.sortedEntries. now rewrite E.
  - assert (E : ObjectInventory.aggregate fs = []).
    { unfold ObjectInventory.aggregate.
      apply (fold_left_invariant (fun m => m = [])); [| reflexivity].
      intros m file Hfile ->. unfold ObjectInventory.readFile.
      destruct (fs file) as [data |] eqn:Hfs; [| reflexivity].
      unfold ObjectInventory.extractEntries.
      rewrite fold_left_unchanged; [reflexivity |].
      intros a r Hr. apply ObjectInventory_skip. now apply (Hnone file data). }
    unfold ObjectInventory.main, ObjectInventory.sorted. now rewrite E.
Qed.

Lemma no_valid_record_writes_one_newline_witness :
  let fs := onlyFile surfaceFile [component "" [at_ 1 2 3] ["Icon_A"]] in
  (forall file data r,
      In file ObjectInventory.sourceFiles -> fs file = Some data ->
      In r data -> ObjectInventory.isValidRecord r = false)
  /\ ObjectInventory.main fs = JS.LF.
Proof.
  intros fs.
  assert (H : forall file data r,
             In file ObjectInventory.sourceFiles -> fs file = Some data ->
             In r data -> ObjectInventory.isValidRecord r = false).
  { intros file data r Hfile Hfs Hr. simpl in Hfile.
    destruct Hfile as [<- | [<- | [<- | [<- | []]]]];
      try discriminate Hfs.
    injection Hfs as <-. destruct Hr as [<- | []]. reflexivity. }
  split; [exact H |].
  now apply (no_valid_record_writes_one_newline
               JS.localeCompare_letters fs).
Defined.

(** X8.  A source file that is missing and a source file that exists but
    holds no record give the same text in all three pipelines; the
    named-place build only counts one more file read. *)
Theorem missing_file_is_empty_file :
  forall (localeCompare : string -> string -> Z) (fs : FileSystem)
         (file : string),
    main localeCompare (withFile fs file [])
    = main localeCompare (withoutFile fs file)
    /\ ObjectLocations.main localeCompare (withFile fs file [])
       = ObjectLocations.main localeCompare (withoutFile fs file)
    /\ ObjectInventory.main (withFile fs file [])
       = ObjectInventory.main (withoutFile fs file)
    /\ Stats.files (snd (aggregate (withFile fs file [])))
       = (Stats.files (snd (aggregate (withoutFile fs file)))
          + existingIn sourceFiles (onlyFile file []))%nat.
Proof.
  intros cmp fs file.
  assert (HN : fst (aggregate (withFile fs file []))
               = fst (aggregate (withoutFile fs file))).
  { unfold aggregate.
    apply (fold_left_related (fun a c => fst a = fst c)); [| reflexivity].
    intros a c p _ Hac. rewrite !readFile_places.
    unfold withFile, withoutFile.
    destruct (p =? file)%string; [exact Hac |].
    destruct (fs p) as [data |]; [| exact Hac].
    now apply processEntries_places_any_stats. }
  assert (HO : ObjectLocations.aggregate (withFile fs file [])
               = ObjectLocations.aggregate (withoutFile fs file)).
  { unfold ObjectLocations.aggregate. apply fold_left_agree.
    intros m p _. unfold ObjectLocations.readFile, withFile, withoutFile.
    now destruct (p =? file)%string. }
  assert (HI : ObjectInventory.aggregate (withFile fs file [])
               = ObjectInventory.aggregate (withoutFile fs file)).
  { unfold ObjectInventory.aggregate. apply fold_left_agree.
    intros m p _. unfold ObjectInventory.readFile, withFile, withoutFile.
    now destruct (p =? file)%string. }
  repeat split.
  - unfold main, output, sortedPlaces. now rewrite HN.
  - unfold ObjectLocations.main, ObjectLocations.lines,
      ObjectLocations.sortedEntries. now rewrite HO.
  - unfold ObjectInventory.main, ObjectInventory.sorted. now rewrite HI.
  - destruct (aggregate_counts (withFile fs file []) sourceFiles
                ([], Stats.zero)) as [E1 _].
    destruct (aggregate_counts (withoutFile fs file) sourceFiles
                ([], Stats.zero)) as [E2 _].
    fold (aggregate (withFile fs file [])) in E1.
    fold (aggregate (withoutFile fs file)) in E2.
    rewrite E1, E2.
    cbn [snd Stats.zero Stats.files Nat.add].
    unfold existingIn, onlyFile, withFile, withoutFile.
    generalize sourceFiles. intros files.
    induction files as [| p files IH]; [reflexivity |].
    cbn [filter]. destruct (p =? file)%string; cbn [List.length].
    + rewrite IH. lia.
    + destruct (fs p); cbn [List.length]; rewrite IH; lia.
Qed.

(* ================================================================== *)
(** ** The inventory has each line once *)

Lemma ObjectInventory_aggregate_NoDup (fs : FileSystem) :
  NoDup (ObjectInventory.aggregate fs).
Proof.
  unfold ObjectInventory.aggregate.
  apply fold_left_invariant; [| constructor].
  intros set file _ Hset. unfold ObjectInventory.readFile.
  destruct (fs file) as [data |]; [| exact Hset].
  unfold ObjectInventory.extractEntries.
  apply (fold_left_invariant (fun st => NoDup (fst st))); [| exact Hset].
  intros st r _ Hst. unfold ObjectInventory.extractEntry.
  destruct (negb (ObjectInventory.isValidRecord r)); [exact Hst |].
  destruct (SourceRecord.name r) as [name |]; [| exact Hst].
  destruct (SourceRecord.icons r) as [icons |]; [| exact Hst].
  cbv zeta.
  destruct (negb (_ =? _)%nat); [exact Hst |].
  apply fold_left_invariant; [| exact Hst].
  intros [set' n] i _ H. cbn [fst] in *. simpl.
  now apply StrSet_add_NoDup.
Qed.

Lemma Sorted_NoDup_strict (l : list string) :
  Sorted codeUnitLe l -> NoDup l ->
  Sorted (fun a b => String.compare a b = Lt) l.
Proof.
  induction 1 as [| a l Hs IH Hhd]; intros Hnd; constructor.
  - apply IH. now inversion Hnd.
  - destruct Hhd as [| b l Hab]; constructor.
    unfold codeUnitLe, String.leb in Hab.
    destruct (String.compare a b) eqn:E; [| reflexivity | discriminate].
    apply String.compare_eq_iff in E. subst b.
    inversion Hnd as [| ? ? Hnotin _]. elim Hnotin. now left.
Qed.

(** X9.  data-object-inventory.txt never repeats a line: the lines are
    pairwise different and each is strictly below the next in code-unit
    order. *)
Theorem inventory_lines_strictly_ascending :
  forall fs : FileSystem,
    NoDup (ObjectInventory.sorted fs)
    /\ Sorted (fun a b => String.compare a b = Lt)
              (ObjectInventory.sorted fs).
Proof.
  intros fs.
  assert (Hnd : NoDup (ObjectInventory.sorted fs)).
  { unfold ObjectInventory.sorted, JS.sortDefault.
    eapply Permutation_NoDup;
      [apply Permutation_sym, sort_perm
      | apply ObjectInventory_aggregate_NoDup]. }
  split; [exact Hnd |].
  apply Sorted_NoDup_strict; [apply sortDefault_sorted | exact Hnd].
Qed.

(* ================================================================== *)
(** ** Named places among the object locations; keys and layers *)

Lemma trim_empty_name (name : string) :
  JS.trim name <> ""%string -> (0 <? String.length name)%nat = true.
Proof.
  destruct name; [intros H; now elim H | reflexivity].
Qed.

(** X10.  Every record that the named-place pipeline accepts is also
    accepted by the object-location pipeline, which looks neither at
    [type] nor at the white space around the name. *)
Theorem named_place_is_object_location :
  forall r : SourceRecord.t,
    isNamedPlace r = true -> ObjectLocations.isValidRecord r = true.
Proof.
  intros r Hq.
  destruct (isNamedPlace_inv r Hq) as [rawName [locations [Hn [Hl Hne]]]].
  pose proof (isNamedPlace_trimmed r rawName Hq Hn) as Ht.
  unfold ObjectLocations.isValidRecord. rewrite Hn, Hl.
  rewrite (trim_empty_name _ Ht).
  destruct locations; [congruence | reflexivity].
Qed.

Lemma named_place_is_object_location_witness :
  isNamedPlace (marker " Lookout Landing " [at_ 1 2 3]) = true
  /\ ObjectLocations.isValidRecord (marker " Lookout Landing " [at_ 1 2 3])
     = true.
Proof.
  split; [reflexivity |].
  apply named_place_is_object_location. reflexivity.
Defined.

(** X11.  The key of a place tells its layer and its name apart: two keys
    built from layer names of [getLayerFromPath] are equal only when the
    layers are equal and the names are equal, so records of different
    layers or of different trimmed names never share a line. *)
Theorem place_key_determines_layer_and_name :
  forall (file1 file2 name1 name2 : string),
    (getLayerFromPath file1 ++ "/" ++ name1)%string
    = (getLayerFromPath file2 ++ "/" ++ name2)%string ->
    getLayerFromPath file1 = getLayerFromPath file2 /\ name1 = name2.
Proof.
  intros file1 file2 name1 name2.
  pose proof (getLayerFromPath_names file1) as H1.
  pose proof (getLayerFromPath_names file2) as H2.
  unfold layerNames in H1, H2. simpl in H1, H2.
  destruct H1 as [<- | [<- | [<- | [<- | []]]]];
    destruct H2 as [<- | [<- | [<- | [<- | []]]]];
    simpl; intros H; try discriminate H;
    injection H as ->; split; reflexivity.
Qed.

Lemma place_key_determines_layer_and_name_witness :
  (getLayerFromPath "data/v1.2.0/layers/sky.json" ++ "/" ++ "Great Sky Island")%string
  = (getLayerFromPath "layers/sky-v2.json" ++ "/" ++ "Great Sky Island")%string
  /\ getLayerFromPath "data/v1.2.0/layers/sky.json"
     = getLayerFromPath "layers/sky-v2.json".
Proof.
  split; [reflexivity |].
  exact (proj1 (place_key_determines_layer_and_name
                  "data/v1.2.0/layers/sky.json" "layers/sky-v2.json"
                  "Great Sky Island" "Great Sky Island" eq_refl)).
Defined.

(* ================================================================== *)
(** ** The token of a point determines the point *)

Lemma uint_digits_only (d : Decimal.uint) (c : ascii) :
  c = ","%char \/ c = ")"%char ->
  hasChar c (NilEmpty.string_of_uint d) = false.
Proof.
  intros Hc. induction d; simpl; trivial;
    rewrite IHd; destruct Hc; subst c; reflexivity.
Qed.

Lemma int_digits_only (d : Decimal.int) (c : ascii) :
  c = ","%char \/ c = ")"%char ->
  hasChar c (NilZero.string_of_int d) = false.
Proof.
  intros Hc.
  assert (H : forall u, hasChar c (NilZero.string_of_uint u) = false).
  { intros u. pose proof (uint_digits_only u c Hc) as Hu.
    destruct u; trivial. destruct Hc; subst c; reflexivity. }
  destruct d as [u | u]; simpl; [apply H |].
  rewrite H. destruct Hc; subst c; reflexivity.
Qed.

Lemma toString_no_delimiter (i : JS.integral) (c : ascii) :
  c = ","%char \/ c = ")"%char -> hasChar c (JS.toString i) = false.
Proof.
  intros Hc. destruct i; simpl.
  - now apply int_digits_only.
  - destruct Hc; subst c; reflexivity.
  - destruct Hc; subst c; reflexivity.
  - destruct Hc; subst c; reflexivity.
Qed.

Lemma string_of_int_parses (n : Z) :
  NilZero.int_of_string (NilZero.string_of_int (Z.to_int n))
  = Some (Z.to_int n).
Proof.
  apply NilZero.isi; destruct n; simpl; try discriminate;
    intros [= E]; now apply DecimalPos.Unsigned.to_uint_nonnil in E.
Qed.

Lemma toString_inj (i j : JS.integral) :
  JS.toString i = JS.toString j -> i = j.
Proof.
  destruct i as [n | | |], j as [m | | |]; simpl; intros H;
    try reflexivity; try discriminate H.
  - apply (f_equal NilZero.int_of_string) in H.
    rewrite !string_of_int_parses in H. injection H as H.
    now apply DecimalZ.to_int_inj in H; subst.
  - apply (f_equal NilZero.int_of_string) in H.
    rewrite string_of_int_parses in H. discriminate H.
  - apply (f_equal NilZero.int_of_string) in H.
    rewrite string_of_int_parses in H. discriminate H.
  - apply (f_equal NilZero.int_of_string) in H.
    rewrite string_of_int_parses in H. discriminate H.
  - apply (f_equal NilZero.int_of_string) in H.
    rewrite string_of_int_parses in H. discriminate H.
  - apply (f_equal NilZero.int_of_string) in H.
    rewrite string_of_int_parses in H. discriminate H.
  - apply (f_equal NilZero.int_of_string) in H.
    rewrite string_of_int_parses in H. discriminate H.
Qed.

Lemma append_delimited (c : ascii) (a a' r r' : string) :
  hasChar c a = false -> hasChar c a' = false ->
  (a ++ String c r)%string = (a' ++ String c r')%string ->
  a = a' /\ r = r'.
Proof.
  revert a'. induction a as [| x a IH]; intros a' Ha Ha' H.
  - destruct a' as [| y a']; simpl in H.
    + injection H as ->. now split.
    + injection H as <- _. simpl in Ha'. now rewrite Ascii.eqb_refl in Ha'.
  - destruct a' as [| y a']; simpl in H.
    + injection H as -> _. simpl in Ha. now rewrite Ascii.eqb_refl in Ha.
    + injection H as -> H. simpl in Ha, Ha'.
      apply orb_false_iff in Ha, Ha'.
      destruct (IH a' (proj2 Ha) (proj2 Ha') H) as [-> ->]. now split.
Qed.

(** X12.  Two points have the same token exactly when they have the same
    three rounded coordinates, so removing duplicates by token removes
    exactly the repeated coordinates: [holds] finds a point in a Set
    precisely when the point itself is there, and the object-location
    tokens of two locations agree precisely when the locations round to
    the same point. *)
Theorem token_determines_point :
  (forall p q : Point.t, Point.toString p = Point.toString q <-> p = q)
  /\ (forall (pts : list Point.t) (point : Point.t),
        Place.holds pts point = true <-> In point pts)
  /\ (forall l1 l2 : RawLocation.t,
        ObjectLocations.formatPoint l1 = ObjectLocations.formatPoint l2
        <-> Point.ofLocation l1 = Point.ofLocation l2).
Proof.
  assert (Hinj : forall p q : Point.t,
             Point.toString p = Point.toString q -> p = q).
  { intros [py px pz] [qy qx qz]. unfold Point.toString.
    cbn [Point.y Point.x Point.z]. intros H.
    injection H as H.
    apply append_delimited in H;
      try (apply toString_no_delimiter; now left).
    destruct H as [Hy H].
    apply append_delimited in H;
      try (apply toString_no_delimiter; now left).
    destruct H as [Hx H].
    apply append_delimited in H;
      try (apply toString_no_delimiter; now right).
    destruct H as [Hz _].
    apply toString_inj in Hy, Hx, Hz. now subst. }
  split; [| split].
  - intros p q. split; [apply Hinj | now intros ->].
  - intros pts point. rewrite holds_In, in_map_iff. split.
    + intros [p [E Hin]]. apply Hinj in E. now subst.
    + intros Hin. now exists point.
  - intros l1 l2.
    change (ObjectLocations.formatPoint l1)
      with (Point.toString (Point.ofLocation l1)).
    change (ObjectLocations.formatPoint l2)
      with (Point.toString (Point.ofLocation l2)).
    split; [apply Hinj | now intros ->].
Qed.

(* ================================================================== *)
(** ** Where the object-location tokens come from *)

Lemma StrSet_addAll_inv (coords : list string) (x : string) :
  forall m : JS.StrSet.t,
    In x (fold_left (fun s pt => JS.StrSet.add pt s) coords m) ->
    In x m \/ In x coords.
Proof.
  induction coords as [| c coords IH]; intros m H; simpl in *.
  - now left.
  - destruct (IH _ H) as [H' | H']; [| right; now right].
    apply StrSet_add_inv in H'. destruct H' as [-> | H']; auto.
Qed.

Lemma isValidRecord_inv (r : SourceRecord.t) :
  ObjectLocations.isValidRecord r = true ->
  exists name locations,
    SourceRecord.name r = Some name
    /\ SourceRecord.locations r = Some locations
    /\ name <> ""%string /\ locations <> [].
Proof.
  unfold ObjectLocations.isValidRecord.
  destruct (SourceRecord.name r) as [name |]; [| discriminate].
  destruct (SourceRecord.locations r) as [locations |]; [| discriminate].
  rewrite andb_true_iff. intros [H1 H2].
  exists name, locations. repeat split.
  - intros ->. discriminate H1.
  - intros ->. discriminate H2.
Qed.

(** X13.  Nothing is invented in data-object-locations.txt: every line
    has at least one token, and every token on the line of a label is the
    token of a location of some valid record that has this label among
    the labels of its name. *)
Theorem object_location_tokens_come_from_records :
  forall (localeCompare : string -> string -> Z) (fs : FileSystem),
    Forall (fun e =>
              snd e <> []
              /\ forall pt, In pt (snd e) -> FromLocation fs (fst e) pt)
           (ObjectLocations.sortedEntries localeCompare fs).
Proof.
  intros cmp fs.
  eapply Forall_perm; [apply Permutation_sym, sort_perm |].
  set (Q := fun e : string * JS.StrSet.t =>
              snd e <> []
              /\ forall pt, In pt (snd e) -> FromLocation fs (fst e) pt).
  unfold ObjectLocations.aggregate.
  apply (fold_left_invariant (Forall Q)); [| constructor].
  intros m file Hfile Hm. unfold ObjectLocations.readFile.
  destruct (fs file) as [data |] eqn:Hfs; [| exact Hm].
  unfold ObjectLocations.extractEntries.
  apply (fold_left_invariant (fun st => Forall Q (fst st))); [| exact Hm].
  intros st r Hr Hst. unfold ObjectLocations.extractEntry.
  destruct (ObjectLocations.isValidRecord r) eqn:Hvalid; [| exact Hst].
  destruct (isValidRecord_inv r Hvalid)
    as [name [locations [Hn [Hl [_ Hne]]]]].
  rewrite Hn, Hl. cbn [negb]. cbv zeta.
  apply (fold_left_invariant (fun st => Forall Q (fst st))); [| exact Hst].
  intros [m' n'] label Hlabel Hm'. cbn [fst] in *. simpl.
  apply Map_set_Forall; [| exact Hm'].
  assert (Hset0 : forall pt,
             In pt match JS.Map.get label m' with
                   | Some s => s
                   | None => []
                   end -> FromLocation fs label pt).
  { destruct (JS.Map.get label m') as [s |] eqn:Hget; [| intros pt []].
    apply Map_get_In in Hget. rewrite Forall_forall in Hm'.
    exact (proj2 (Hm' _ Hget)). }
  split; cbn [fst snd].
  - destruct locations as [| loc locations]; [congruence |].
    intros E.
    assert (Hin : In (ObjectLocations.formatPoint loc)
                     (fold_left (fun s pt => JS.StrSet.add pt s)
                        (map ObjectLocations.formatPoint (loc :: locations))
                        match JS.Map.get label m' with
                        | Some s => s
                        | None => []
                        end)).
    { apply StrSet_addAll_In. now left. }
    rewrite E in Hin. destruct Hin.
  - intros pt Hpt. apply StrSet_addAll_inv in Hpt.
    destruct Hpt as [Hpt | Hpt]; [now apply Hset0 |].
    apply in_map_iff in Hpt. destruct Hpt as [loc [<- Hloc]].
    exists file, data, r, name, locations, loc. repeat split; trivial.
Qed.

(* ================================================================== *)
(** ** A record that comes twice *)

Lemma Map_set_same {V : Type} (m : JS.Map.t V) (k : string) (v : V) :
  JS.Map.get k m = Some v -> JS.Map.set k v m = m.
Proof.
  induction m as [| [k0 v0] m IH]; simpl; [discriminate |].
  destruct (String.eqb_spec k0 k) as [-> | Hne].
  - now intros [= ->].
  - intros H. now rewrite IH.
Qed.

Lemma StrSet_add_present (s : string) (m : JS.StrSet.t) :
  In s m -> JS.StrSet.add s m = m.
Proof.
  intros H. unfold JS.StrSet.add.
  now rewrite (proj2 (StrSet_has_In s m) H).
Qed.

Lemma StrSet_addAll_present (coords : list string) :
  forall m : JS.StrSet.t,
    (forall pt, In pt coords -> In pt m) ->
    fold_left (fun s pt => JS.StrSet.add pt s) coords m = m.
Proof.
  induction coords as [| c coords IH]; intros m Hall; simpl.
  - reflexivity.
  - rewrite StrSet_add_present by (apply Hall; now left).
    apply IH. intros pt Hpt. apply Hall. now right.
Qed.

Lemma ObjectLocations_extractEntry_any_count st st' r :
  fst st = fst st' ->
  fst (ObjectLocations.extractEntry st r)
  = fst (ObjectLocations.extractEntry st' r).
Proof.
  intros E. unfold ObjectLocations.extractEntry.
  destruct (negb (ObjectLocations.isValidRecord r)); [exact E |].
  destruct (SourceRecord.name r) as [name |]; [| exact E].
  destruct (SourceRecord.locations r) as [locations |]; [| exact E].
  cbv zeta.
  apply (fold_left_related (fun a c => fst a = fst c)); [| exact E].
  intros [m n] [m' n'] label _. cbn [fst]. intros <-. reflexivity.
Qed.

(** A record whose labels already hold all its tokens leaves the Map as
    it is. *)
Lemma ObjectLocations_extractEntry_covered m n r :
  (forall name locations label loc,
      SourceRecord.name r = Some name ->
      SourceRecord.locations r = Some locations ->
      In label (JS.split " : " name) -> In loc locations ->
      Receives m label (ObjectLocations.formatPoint loc)) ->
  fst (ObjectLocations.extractEntry (m, n) r) = m.
Proof.
  intros Hcov. unfold ObjectLocations.extractEntry.
  destruct (ObjectLocations.isValidRecord r) eqn:Hvalid; [| reflexivity].
  destruct (isValidRecord_inv r Hvalid)
    as [name [locations [Hn [Hl [_ Hne]]]]].
  rewrite Hn, Hl. cbn [negb]. cbv zeta.
  apply (fold_left_invariant (fun st => fst st = m)); [| reflexivity].
  intros [m' n'] label Hlabel. cbn [fst]. intros ->. simpl.
  destruct locations as [| loc0 locations]; [congruence |].
  destruct (Hcov name (loc0 :: locations) label loc0 Hn Hl Hlabel
              (or_introl eq_refl)) as [s [Hget _]].
  rewrite Hget.
  rewrite StrSet_addAll_present; [now apply Map_set_same |].
  intros pt Hpt. apply in_map_iff in Hpt. destruct Hpt as [loc [<- Hloc]].
  destruct (Hcov name (loc0 :: locations) label loc Hn Hl Hlabel Hloc)
    as [s' [Hget' Hin]].
  rewrite Hget in Hget'. now injection Hget' as <-.
Qed.

Lemma ObjectLocations_covered_after (l : LayerData) (r : SourceRecord.t) st :
  In r l ->
  forall name locations label loc,
    SourceRecord.name r = Some name ->
    SourceRecord.locations r = Some locations ->
    In label (JS.split " : " name) -> In loc locations ->
    ObjectLocations.isValidRecord r = true ->
    Receives (fst (fold_left ObjectLocations.extractEntry l st)) label
             (ObjectLocations.formatPoint loc).
Proof.
  intros Hr name locations label loc Hn Hl Hlabel Hloc Hvalid.
  apply (fold_left_establish
           (fun st => Receives (fst st) label
                               (ObjectLocations.formatPoint loc)))
    with (b := r); trivial.
  - intros a. now apply extractEntry_receives with name locations.
  - intros a b'. apply extractEntry_keeps.
Qed.

Lemma ObjectLocations_again (l : LayerData) (r : SourceRecord.t)
    (post : LayerData) st :
  In r l ->
  fst (fold_left ObjectLocations.extractEntry (l ++ r :: post) st)
  = fst (fold_left ObjectLocations.extractEntry (l ++ post) st).
Proof.
  intros Hr. rewrite !fold_left_app. cbn [fold_left].
  apply (fold_left_related (fun a c => fst a = fst c)).
  - intros a c b _. apply ObjectLocations_extractEntry_any_count.
  - destruct (ObjectLocations.isValidRecord r) eqn:Hvalid;
      [| now rewrite ObjectLocations_skip].
    pose proof (ObjectLocations_covered_after l r st Hr) as Hcov.
    destruct (fold_left ObjectLocations.extractEntry l st) as [m1 n1].
    cbn [fst] in *.
    apply ObjectLocations_extractEntry_covered.
    intros name locations label loc Hn Hl Hlabel Hloc.
    now apply Hcov with name locations.
Qed.

(** X14.  In the object-location pipeline a record that occurs a second
    time in its file changes nothing: the Map, and so the text written,
    is the same as with the later occurrence removed. *)
Theorem object_location_repeated_record :
  forall (localeCompare : string -> string -> Z) (fs : FileSystem)
         (file : string) (pre mid post : LayerData) (r : SourceRecord.t),
    ObjectLocations.aggregate
      (withFile fs file (pre ++ r :: mid ++ r :: post))
    = ObjectLocations.aggregate (withFile fs file (pre ++ r :: mid ++ post))
    /\ ObjectLocations.main localeCompare
         (withFile fs file (pre ++ r :: mid ++ r :: post))
       = ObjectLocations.main localeCompare
           (withFile fs file (pre ++ r :: mid ++ post)).
Proof.
  intros cmp fs file pre mid post r.
  assert (E : ObjectLocations.aggregate
                (withFile fs file (pre ++ r :: mid ++ r :: post))
              = ObjectLocations.aggregate
                  (withFile fs file (pre ++ r :: mid ++ post))).
  { unfold ObjectLocations.aggregate. apply aggregate_skip.
    - intros m. unfold ObjectLocations.readFile, withFile.
      rewrite String.eqb_refl. unfold ObjectLocations.extractEntries.
      replace (pre ++ r :: mid ++ r :: post)
        with ((pre ++ r :: mid) ++ r :: post)
        by (now rewrite <- app_assoc).
      replace (pre ++ r :: mid ++ post) with ((pre ++ r :: mid) ++ post)
        by (now rewrite <- app_assoc).
      apply ObjectLocations_again. apply in_or_app. right. now left.
    - intros m p d1 d2 Hp. unfold ObjectLocations.readFile, withFile.
      now rewrite Hp. }
  split; [exact E |].
  unfold ObjectLocations.main, ObjectLocations.lines,
    ObjectLocations.sortedEntries. now rewrite E.
Qed.

Lemma ObjectInventory_extractEntry_any_count st st' r :
  fst st = fst st' ->
  fst (ObjectInventory.extractEntry st r)
  = fst (ObjectInventory.extractEntry st' r).
Proof.
  intros E. unfold ObjectInventory.extractEntry.
  destruct (negb (ObjectInventory.isValidRecord r)); [exact E |].
  destruct (SourceRecord.name r) as [name |]; [| exact E].
  destruct (SourceRecord.icons r) as [icons |]; [| exact E].
  cbv zeta. destruct (negb (_ =? _)%nat); [exact E |].
  apply (fold_left_related (fun a c => fst a = fst c)); [| exact E].
  intros [m n] [m' n'] i _. cbn [fst]. intros <-. reflexivity.
Qed.

(** A record all of whose lines are in the Set already leaves the Set as
    it is. *)
Lemma ObjectInventory_extractEntry_covered set n r :
  (forall name icons i,
      SourceRecord.name r = Some name ->
      SourceRecord.icons r = Some icons ->
      (i < List.length (JS.split " : " name))%nat ->
      In (specInventoryLine (nth i icons ""%string)
                            (nth i (JS.split " : " name) ""%string)) set) ->
  fst (ObjectInventory.extractEntry (set, n) r) = set.
Proof.
  intros Hcov. unfold ObjectInventory.extractEntry.
  destruct (negb (ObjectInventory.isValidRecord r)); [reflexivity |].
  destruct (SourceRecord.name r) as [name |]; [| reflexivity].
  destruct (SourceRecord.icons r) as [icons |]; [| reflexivity].
  cbv zeta. destruct (negb (_ =? _)%nat); [reflexivity |].
  apply (fold_left_invariant (fun st => fst st = set)); [| reflexivity].
  intros [set' n'] i Hi. cbn [fst]. intros ->. simpl.
  rewrite ObjectComponent_spec. apply StrSet_add_present.
  apply Hcov; trivial. apply in_seq in Hi. lia.
Qed.

Lemma ObjectInventory_extractEntry_emits st r name icons i :
  ObjectInventory.isValidRecord r = true ->
  SourceRecord.name r = Some name ->
  SourceRecord.icons r = Some icons ->
  (List.length (JS.split " : " name) =? List.length icons)%nat = true ->
  (i < List.length (JS.split " : " name))%nat ->
  In (specInventoryLine (nth i icons ""%string)
                        (nth i (JS.split " : " name) ""%string))
     (fst (ObjectInventory.extractEntry st r)).
Proof.
  intros Hvalid Hn Hi Hlen Hlt. unfold ObjectInventory.extractEntry.
  rewrite Hvalid, Hn, Hi. cbn [negb]. cbv zeta. rewrite Hlen. cbn [negb].
  apply (fold_left_establish (fun st => In _ (fst st))) with (b := i).
  - apply in_seq. lia.
  - intros a. apply addLine_emits.
  - intros a b'. apply addLine_keeps.
Qed.

Lemma ObjectInventory_again (l : LayerData) (r : SourceRecord.t)
    (post : LayerData) st :
  In r l ->
  fst (fold_left ObjectInventory.extractEntry (l ++ r :: post) st)
  = fst (fold_left ObjectInventory.extractEntry (l ++ post) st).
Proof.
  intros Hr. rewrite !fold_left_app. cbn [fold_left].
  apply (fold_left_related (fun a c => fst a = fst c)).
  - intros a c b _. apply ObjectInventory_extractEntry_any_count.
  - destruct (ObjectInventory.isValidRecord r) eqn:Hvalid;
      [| now rewrite ObjectInventory_skip].
    assert (Hcov : forall name icons i,
               SourceRecord.name r = Some name ->
               SourceRecord.icons r = Some icons ->
               (List.length (JS.split " : " name) =? List.length icons)%nat
               = true ->
               (i < List.length (JS.split " : " name))%nat ->
               In (specInventoryLine (nth i icons ""%string)
                                     (nth i (JS.split " : " name) ""%string))
                  (fst (fold_left ObjectInventory.extractEntry l st))).
    { intros name icons i Hn Hi Hlen Hlt.
      apply (fold_left_establish (fun st => In _ (fst st))) with (b := r);
        trivial.
      - intros a. now apply ObjectInventory_extractEntry_emits.
      - intros a b'. apply ObjectInventory_extractEntry_keeps. }
    destruct (fold_left ObjectInventory.extractEntry l st) as [set1 n1].
    cbn [fst] in *.
    destruct (SourceRecord.name r) as [name |] eqn:Hn;
      [| unfold ObjectInventory.extractEntry;
         now rewrite Hvalid, Hn].
    destruct (SourceRecord.icons r) as [icons |] eqn:Hi;
      [| unfold ObjectInventory.extractEntry;
         now rewrite Hvalid, Hn, Hi].
    destruct (List.length (JS.split " : " name) =? List.length icons)%nat
      eqn:Hlen.
    + apply ObjectInventory_extractEntry_covered.
      intros name' icons' i Hn' Hi' Hlt.
      rewrite Hn in Hn'. rewrite Hi in Hi'.
      injection Hn' as <-. injection Hi' as <-. now apply Hcov.
    + unfold ObjectInventory.extractEntry.
      rewrite Hvalid, Hn, Hi. cbn [negb]. cbv zeta.
      now rewrite Hlen.
Qed.

(** X15.  In the inventory pipeline a record that occurs a second time in
    its file changes nothing: the Set, and so the text written, is the
    same as with the later occurrence removed. *)
Theorem inventory_repeated_record :
  forall (fs : FileSystem) (file : string) (pre mid post : LayerData)
         (r : SourceRecord.t),
    ObjectInventory.aggregate
      (withFile fs file (pre ++ r :: mid ++ r :: post))
    = ObjectInventory.aggregate (withFile fs file (pre ++ r :: mid ++ post))
    /\ ObjectInventory.main (withFile fs file (pre ++ r :: mid ++ r :: post))
       = ObjectInventory.main (withFile fs file (pre ++ r :: mid ++ post)).
Proof.
  intros fs file pre mid post r.
  assert (E : ObjectInventory.aggregate
                (withFile fs file (pre ++ r :: mid ++ r :: post))
              = ObjectInventory.aggregate
                  (withFile fs file (pre ++ r :: mid ++ post))).
  { unfold ObjectInventory.aggregate. apply aggregate_skip.
    - intros m. unfold ObjectInventory.readFile, withFile.
      rewrite String.eqb_refl. unfold ObjectInventory.extractEntries.
      replace (pre ++ r :: mid ++ r :: post)
        with ((pre ++ r :: mid) ++ r :: post)
        by (now rewrite <- app_assoc).
      replace (pre ++ r :: mid ++ post) with ((pre ++ r :: mid) ++ post)
        by (now rewrite <- app_assoc).
      apply ObjectInventory_again. apply in_or_app. right. now left.
    - intros m p d1 d2 Hp. unfold ObjectInventory.readFile, withFile.
      now rewrite Hp. }
  split; [exact E |].
  unfold ObjectInventory.main, ObjectInventory.sorted. now rewrite E.
Qed.

Lemma placeAfter_holds (locations : list RawLocation.t) (place : Place.t)
    (point : Point.t) :
  In point (map Point.ofLocation locations) ->
  Place.holds (Place.points (placeAfter locations place)) point = true.
Proof.
  intros Hin. unfold placeAfter.
  destruct (checkTower_extends
              (fst (Place.add place (map Point.ofLocation locations)))
              Stats.zero) as [suffix ->].
  apply holds_app. now apply add_holds_all.
Qed.

Lemma placeAfter_fixed (locations : list RawLocation.t) (place : Place.t) :
  (forall point, In point (map Point.ofLocation locations) ->
                 Place.holds (Place.points place) point = true) ->
  TowerDone place -> Place.points place <> [] ->
  placeAfter locations place = place.
Proof.
  intros Hall Hdone Hne. unfold placeAfter.
  rewrite checkTower_settled_place by assumption.
  now rewrite add_nothing_new.
Qed.

(** The Place under [key] holds the points of [locations] and is through
    with the tower rule. *)
Lemma covered_place_kept (layerName : string) (entry : SourceRecord.t)
    (key : string) (locations : list RawLocation.t) st :
  (exists place0,
      JS.Map.get key (fst st) = Some place0
      /\ (forall point, In point (map Point.ofLocation locations) ->
                        Place.holds (Place.points place0) point = true)
      /\ TowerDone place0 /\ Place.points place0 <> []) ->
  exists place0,
    JS.Map.get key (fst (processEntry layerName entry st)) = Some place0
    /\ (forall point, In point (map Point.ofLocation locations) ->
                      Place.holds (Place.points place0) point = true)
    /\ TowerDone place0 /\ Place.points place0 <> [].
Proof.
  destruct st as [places stats]. cbn [fst].
  intros [place0 [Hget [Hall [Hdone Hne]]]].
  destruct (isNamedPlace entry) eqn:Hq;
    [| rewrite NamedPlaces_skip by exact Hq; now exists place0].
  destruct (isNamedPlace_inv entry Hq)
    as [rawName [locations' [Hn [Hl Hne']]]].
  rewrite (processEntry_places _ _ _ _ _ _ Hq Hn Hl).
  destruct (String.eqb_spec key (layerName ++ "/" ++ JS.trim rawName))
    as [-> | Hkey].
  - rewrite Map_get_set_same. unfold placeBefore. rewrite Hget.
    eexists. split; [reflexivity |]. repeat split.
    + intros point Hin.
      destruct (placeAfter_extends locations' place0) as [suffix ->].
      apply holds_app. now apply Hall.
    + now apply placeAfter_TowerDone.
    + now apply placeAfter_nonempty.
  - rewrite Map_get_set_other by exact Hkey. now exists place0.
Qed.

Lemma NamedPlaces_again (layerName : string) (l : LayerData)
    (r : SourceRecord.t) (post : LayerData) st :
  In r l ->
  fst (processEntries layerName (l ++ r :: post) st)
  = fst (processEntries layerName (l ++ post) st).
Proof.
  intros Hr. unfold processEntries. rewrite !fold_left_app. cbn [fold_left].
  apply (fold_left_related (fun a c => fst a = fst c)).
  - intros a c b _. apply processEntry_places_any_stats.
  - destruct (isNamedPlace r) eqn:Hq; [| now rewrite NamedPlaces_skip].
    destruct (isNamedPlace_inv r Hq) as [rawName [locations [Hn [Hl Hne]]]].
    set (key := (layerName ++ "/" ++ JS.trim rawName)%string).
    assert (Hcov : exists place0,
               JS.Map.get key
                 (fst (fold_left (fun st entry =>
                                    processEntry layerName entry st) l st))
               = Some place0
               /\ (forall point, In point (map Point.ofLocation locations) ->
                                 Place.holds (Place.points place0) point
                                 = true)
               /\ TowerDone place0 /\ Place.points place0 <> []).
    { apply (fold_left_establish
               (fun st => exists place0,
                    JS.Map.get key (fst st) = Some place0
                    /\ (forall point,
                           In point (map Point.ofLocation locations) ->
                           Place.holds (Place.points place0) point = true)
                    /\ TowerDone place0 /\ Place.points place0 <> []))
        with (b := r); trivial.
      - intros [places stats].
        rewrite (processEntry_places _ _ _ _ _ _ Hq Hn Hl). fold key.
        rewrite Map_get_set_same. eexists. split; [reflexivity |].
        repeat split.
        + intros point Hin. now apply placeAfter_holds.
        + now apply placeAfter_TowerDone.
        + now apply placeAfter_nonempty.
      - intros a b'. apply covered_place_kept. }
    destruct (fold_left (fun st entry => processEntry layerName entry st)
                        l st) as [places1 stats1].
    cbn [fst] in *. destruct Hcov as [place0 [Hget [Hall [Hdone Hne0]]]].
    rewrite (processEntry_places _ _ _ _ _ _ Hq Hn Hl). fold key.
    unfold placeBefore. fold key. rewrite Hget.
    rewrite placeAfter_fixed by assumption.
    now apply Map_set_same.
Qed.

(** X16.  In the named-place pipeline a record that occurs a second time
    in its file changes no place and no line: the later occurrence only
    raises the "Named places" counter by one. *)
Theorem named_place_repeated_record :
  forall (localeCompare : string -> string -> Z) (fs : FileSystem)
         (file : string) (pre mid post : LayerData) (r : SourceRecord.t),
    fst (aggregate (withFile fs file (pre ++ r :: mid ++ r :: post)))
    = fst (aggregate (withFile fs file (pre ++ r :: mid ++ post)))
    /\ main localeCompare (withFile fs file (pre ++ r :: mid ++ r :: post))
       = main localeCompare (withFile fs file (pre ++ r :: mid ++ post)).
Proof.
  intros cmp fs file pre mid post r.
  assert (E : fst (aggregate
                     (withFile fs file (pre ++ r :: mid ++ r :: post)))
              = fst (aggregate
                       (withFile fs file (pre ++ r :: mid ++ post)))).
  { unfold aggregate.
    apply (fold_left_related (fun a c => fst a = fst c)); [| reflexivity].
    intros a c p _ Hac. rewrite !readFile_places. unfold withFile.
    destruct (p =? file)%string.
    - replace (pre ++ r :: mid ++ r :: post)
        with ((pre ++ r :: mid) ++ r :: post)
        by (now rewrite <- app_assoc).
      replace (pre ++ r :: mid ++ post) with ((pre ++ r :: mid) ++ post)
        by (now rewrite <- app_assoc).
      rewrite NamedPlaces_again by (apply in_or_app; right; now left).
      now apply processEntries_places_any_stats.
    - destruct (fs p) as [data |]; [| exact Hac].
      now apply processEntries_places_any_stats. }
  split; [exact E |].
  unfold main, output, sortedPlaces. now rewrite E.
Qed.

(* ================================================================== *)
(** ** The counts that extractEntries returns *)

Lemma addLabel_count coords (labels : list string) :
  forall st,
    snd (fold_left (ObjectLocations.addLabel coords) labels st)
    = (snd st + List.length labels)%nat.
Proof.
  induction labels as [| label labels IH]; intros [m n]; simpl.
  - lia.
  - rewrite IH. simpl. lia.
Qed.

Lemma addLine_count icons labels (idx : list nat) :
  forall st,
    snd (fold_left (ObjectInventory.addLine icons labels) idx st)
    = (snd st + List.length idx)%nat.
Proof.
  induction idx as [| i idx IH]; intros [m n]; simpl.
  - lia.
  - rewrite IH. simpl. lia.
Qed.

Lemma ObjectLocations_extractEntry_count st r :
  snd (ObjectLocations.extractEntry st r) = (snd st + labelCount r)%nat.
Proof.
  unfold ObjectLocations.extractEntry, labelCount.
  destruct (ObjectLocations.isValidRecord r) eqn:Hvalid;
    cbn [negb]; [| lia].
  destruct (isValidRecord_inv r Hvalid) as [name [locations [Hn [Hl _]]]].
  rewrite Hn, Hl. cbv zeta. apply addLabel_count.
Qed.

Lemma ObjectInventory_extractEntry_count st r :
  snd (ObjectInventory.extractEntry st r) = (snd st + lineCount r)%nat.
Proof.
  unfold ObjectInventory.extractEntry, lineCount.
  destruct (ObjectInventory.isValidRecord r); cbn [negb]; [| lia].
  destruct (SourceRecord.name r) as [name |]; [| lia].
  destruct (SourceRecord.icons r) as [icons |]; [| lia].
  cbv zeta.
  destruct (List.length (JS.split " : " name) =? List.length icons)%nat
    eqn:E; cbn [negb]; [| lia].
  rewrite addLine_count, length_seq. apply Nat.eqb_eq in E. lia.
Qed.

Lemma labelCount_positive (r : SourceRecord.t) :
  ObjectLocations.isValidRecord r = true -> (1 <= labelCount r)%nat.
Proof.
  intros Hvalid. unfold labelCount. rewrite Hvalid.
  destruct (isValidRecord_inv r Hvalid) as [name [locations [Hn _]]].
  rewrite Hn. unfold JS.split.
  pose proof (split_from_nonempty " : " name 0 ""%string) as Hne.
  destruct (JS.split_from " : " 0 "" name); [congruence | simpl; lia].
Qed.

(** X17.  The number that [extractEntries] returns (logged per file as
    "entries") is, in the object-location script, the number of labels of
    the valid records of the file, at least one per valid record and
    whatever the number of their locations; in the inventory script it is
    the number of icons of the records that are valid and have as many
    labels as icons.  Neither depends on what was collected before. *)
Theorem extractEntries_counts_labels :
  (forall (layerData : LayerData) (objectMap : JS.Map.t JS.StrSet.t),
      snd (ObjectLocations.extractEntries layerData objectMap)
      = list_sum (map labelCount layerData))
  /\ (forall (layerData : LayerData) (outputSet : JS.StrSet.t),
        snd (ObjectInventory.extractEntries layerData outputSet)
        = list_sum (map lineCount layerData))
  /\ (forall layerData : LayerData,
        (List.length (filter ObjectLocations.isValidRecord layerData)
         <= list_sum (map labelCount layerData))%nat).
Proof.
  split; [| split].
  - intros layerData objectMap. unfold ObjectLocations.extractEntries.
    assert (H : forall st,
               snd (fold_left ObjectLocations.extractEntry layerData st)
               = (snd st + list_sum (map labelCount layerData))%nat).
    { induction layerData as [| r rest IH]; intros st; simpl; [lia |].
      rewrite IH, ObjectLocations_extractEntry_count. lia. }
    now rewrite H.
  - intros layerData outputSet. unfold ObjectInventory.extractEntries.
    assert (H : forall st,
               snd (fold_left ObjectInventory.extractEntry layerData st)
               = (snd st + list_sum (map lineCount layerData))%nat).
    { induction layerData as [| r rest IH]; intros st; simpl; [lia |].
      rewrite IH, ObjectInventory_extractEntry_count. lia. }
    now rewrite H.
  - intros layerData.
    induction layerData as [| r rest IH]; [simpl; lia |].
    cbn [filter map].
    change (list_sum (labelCount r :: map labelCount rest))
      with (labelCount r + list_sum (map labelCount rest))%nat.
    destruct (ObjectLocations.isValidRecord r) eqn:Hvalid; [| lia].
    pose proof (labelCount_positive r Hvalid). cbn [List.length]. lia.
Qed.

(* ================================================================== *)
(** ** Where the points of a named place come from *)

Lemma add_origin (pts : list Point.t) :
  forall (place : Place.t) (pt : Point.t),
    In pt (Place.points (fst (Place.add place pts))) ->
    In pt (Place.points place) \/ In pt pts.
Proof.
  induction pts as [| point rest IH]; intros place pt Hin.
  - now left.
  - rewrite add_cons in Hin.
    destruct (Place.holds (Place.points place) point).
    + destruct (IH _ _ Hin); [now left | right; now right].
    + destruct (IH _ _ Hin) as [H | H]; [| right; now right].
      cbn [Place.points] in H. apply in_app_or in H.
      destruct H as [H | [<- | []]]; [now left | right; now left].
Qed.

Lemma layer_key_inj (layer1 layer2 name1 name2 : string) :
  In layer1 layerNames -> In layer2 layerNames ->
  (layer1 ++ "/" ++ name1)%string = (layer2 ++ "/" ++ name2)%string ->
  layer1 = layer2 /\ name1 = name2.
Proof.
  unfold layerNames. simpl.
  intros [<- | [<- | [<- | [<- | []]]]] [<- | [<- | [<- | [<- | []]]]];
    simpl; intros H; try discriminate H;
    injection H as ->; split; reflexivity.
Qed.

Lemma placeAfter_origin (locations : list RawLocation.t) (place : Place.t)
    (pt : Point.t) :
  In pt (Place.points (placeAfter locations place)) ->
  In pt (Place.points place)
  \/ In pt (map Point.ofLocation locations)
  \/ IsLaunchPoint (placeAfter locations place) pt.
Proof.
  unfold placeAfter.
  set (p1 := fst (Place.add place (map Point.ofLocation locations))).
  assert (Hadd : In pt (Place.points p1) ->
                 In pt (Place.points place)
                 \/ In pt (map Point.ofLocation locations)
                 \/ IsLaunchPoint (fst (checkTower p1 Stats.zero)) pt).
  { intros H. destruct (add_origin _ _ _ H); auto. }
  destruct (checkTower_cases p1 Stats.zero)
    as [E | [base [rest [height [Hpts [Hget [Hnew E]]]]]]].
  - intros H. rewrite E in H. now apply Hadd.
  - intros H. rewrite E in H. cbn [Place.points] in H.
    apply in_app_or in H. destruct H as [H | [<- | []]]; [now apply Hadd |].
    right. right.
    destruct (checkTower_path p1 Stats.zero) as [El En].
    split.
    + destruct (isTower p1) eqn:Ht.
      * unfold isTower in *. now rewrite El, En.
      * rewrite checkTower_other in E by exact Ht. cbn [fst] in E.
        apply (f_equal (fun q => List.length (Place.points q))) in E.
        cbn [Place.points] in E. rewrite length_app in E. simpl in E. lia.
    + exists base, (rest ++ [launchPoint base height]), height.
      rewrite En. repeat split; trivial.
      rewrite E. cbn [Place.points]. now rewrite Hpts.
Qed.

Lemma IsLaunchPoint_kept (locations : list RawLocation.t) (place : Place.t)
    (pt : Point.t) :
  IsLaunchPoint place pt -> IsLaunchPoint (placeAfter locations place) pt.
Proof.
  intros [Ht [base [rest [height [Hpts [Hget ->]]]]]].
  destruct (placeAfter_path locations place) as [El En].
  destruct (placeAfter_extends locations place) as [suffix Epts].
  split.
  - unfold isTower in *. now rewrite El, En.
  - exists base, (rest ++ suffix), height. rewrite En, Epts, Hpts.
    now repeat split.
Qed.

Lemma FromPlaceRecord_same (fs : FileSystem) (p q : Place.t) (pt : Point.t) :
  Place.layer q = Place.layer p -> Place.name q = Place.name p ->
  FromPlaceRecord fs p pt -> FromPlaceRecord fs q pt.
Proof.
  intros El En [file [data [r [rawName [locations [loc H]]]]]].
  exists file, data, r, rawName, locations, loc.
  rewrite El, En. exact H.
Qed.

Lemma named_place_points_origin :
  forall (localeCompare : string -> string -> Z) (fs : FileSystem),
    Forall (fun p =>
              forall pt, In pt (Place.points p) ->
                         FromPlaceRecord fs p pt \/ IsLaunchPoint p pt)
           (sortedPlaces localeCompare fs).
Proof.
  intros cmp fs.
  eapply Forall_perm; [apply Permutation_sym, sort_perm |].
  unfold JS.Map.values. apply Forall_map.
  set (Q := fun e : string * Place.t =>
              fst e = Place.path (snd e)
              /\ In (Place.layer (snd e)) layerNames
              /\ forall pt, In pt (Place.points (snd e)) ->
                            FromPlaceRecord fs (snd e) pt
                            \/ IsLaunchPoint (snd e) pt).
  apply Forall_impl with (P := Q); [intros e HQ; exact (proj2 (proj2 HQ)) |].
  apply aggregate_Forall.
  intros file data entry places rawName locations
         Hfile Hfs Hin Hq Hn Hl Hne Hall layerName key.
  assert (Hstep : forall place0,
             Place.layer place0 = layerName ->
             Place.name place0 = JS.trim rawName ->
             (forall pt, In pt (Place.points place0) ->
                         FromPlaceRecord fs place0 pt
                         \/ IsLaunchPoint place0 pt) ->
             Q (key, placeAfter locations place0)).
  { intros place0 El0 En0 Hpts.
    destruct (placeAfter_path locations place0) as [El En].
    unfold Q. cbn [fst snd]. split; [| split].
    - unfold Place.path, key. now rewrite El, En, El0, En0.
    - rewrite El, El0. apply getLayerFromPath_names.
    - intros pt Hpt. apply placeAfter_origin in Hpt.
      destruct Hpt as [Hpt | [Hpt | Hpt]]; [| | now right].
      + destruct (Hpts pt Hpt) as [H | H].
        * left. now apply (FromPlaceRecord_same fs place0).
        * right. now apply IsLaunchPoint_kept.
      + left. apply in_map_iff in Hpt. destruct Hpt as [loc [<- Hloc]].
        exists file, data, entry, rawName, locations, loc.
        rewrite El, En, El0, En0. now repeat split. }
  split.
  - intros place0 _ [Hkey [Hlayer Hpts]]. cbn [fst snd] in *.
    unfold key, Place.path in Hkey.
    apply layer_key_inj in Hkey;
      [| apply getLayerFromPath_names | exact Hlayer].
    destruct Hkey as [El0 En0]. now apply Hstep.
  - intros _. apply Hstep; [reflexivity | reflexivity | intros pt []].
Qed.

(** X18.  Nothing else is invented in data-named-places.txt: every point
    on the line of a place is the rounded location of a qualifying record
    of that layer and (trimmed) name, or is the tower rule's point built
    from the first point of the place, and this only for a place the rule
    applies to. *)
Theorem named_place_points_come_from_records :
  forall (localeCompare : string -> string -> Z) (fs : FileSystem),
    Forall (fun p =>
              forall pt, In pt (Place.points p) ->
                         FromPlaceRecord fs p pt \/ IsLaunchPoint p pt)
           (sortedPlaces localeCompare fs).
Proof.
  exact named_place_points_origin.
Qed.

(* ================================================================== *)
(** ** The text that is written *)

Lemma join_lines (l : list string) :
  l <> [] ->
  (JS.join JS.LF l ++ JS.LF)%string
  = String.concat "" (map (fun line => (line ++ JS.LF)%string) l).
Proof.
  induction l as [| x l IH]; [congruence |]. intros _.
  destruct l as [| y l]; [reflexivity |].
  rewrite join_cons by discriminate.
  rewrite !append_assoc, IH by discriminate.
  change (String.concat ""
            (map (fun line => (line ++ JS.LF)%string) (x :: y :: l)))
    with ((x ++ JS.LF)
          ++ String.concat ""
               (map (fun line => (line ++ JS.LF)%string) (y :: l)))%string.
  now rewrite append_assoc.
Qed.

(** X19.  When a pipeline has at least one line to write, the text of its
    file is every line followed by one line feed, in order, and nothing
    else. *)
Theorem text_is_lines_each_ended_by_line_feed :
  forall (localeCompare : string -> string -> Z) (fs : FileSystem),
    (output localeCompare fs <> [] ->
     main localeCompare fs
     = String.concat ""
         (map (fun line => (line ++ JS.LF)%string)
              (output localeCompare fs)))
    /\ (ObjectLocations.lines localeCompare fs <> [] ->
        ObjectLocations.main localeCompare fs
        = String.concat ""
            (map (fun line => (line ++ JS.LF)%string)
                 (ObjectLocations.lines localeCompare fs)))
    /\ (ObjectInventory.sorted fs <> [] ->
        ObjectInventory.main fs
        = String.concat ""
            (map (fun line => (line ++ JS.LF)%string)
                 (ObjectInventory.sorted fs))).
Proof.
  intros cmp fs. repeat split; intros Hne; now apply join_lines.
Qed.

Lemma text_is_lines_each_ended_by_line_feed_witness :
  ObjectLocations.lines JS.localeCompare_letters twoObjects <> []
  /\ ObjectLocations.main JS.localeCompare_letters twoObjects
     = ("apple (5,4,6)" ++ JS.LF ++ "Bokoblin (2,1,3)" ++ JS.LF)%string.
Proof.
  assert (Hne : ObjectLocations.lines JS.localeCompare_letters twoObjects
                <> []) by discriminate.
  split; [exact Hne |].
  destruct (text_is_lines_each_ended_by_line_feed
              JS.localeCompare_letters twoObjects) as [_ [H _]].
  rewrite (H Hne). reflexivity.
Defined.

(* ================================================================== *)
(** ** Launch points and the surface file *)

Lemma towerPlaces_none (places : JS.Map.t Place.t) :
  Forall (fun e => isTower (snd e) = false) places ->
  towerPlaces places = 0%nat.
Proof.
  unfold towerPlaces, sumOver.
  induction 1 as [| e l He _ IH]; [reflexivity |].
  cbn [map list_sum fold_right]. rewrite He. exact IH.
Qed.

(** X20.  Launch points only ever come from surface.json: when that file
    is missing, no place is one the tower rule applies to, no launch is
    counted, and every point written is the rounded location of a
    record. *)
Theorem no_surface_file_no_launch :
  forall (localeCompare : string -> string -> Z) (fs : FileSystem),
    fs surfaceFile = None ->
    Stats.launches (snd (aggregate fs)) = 0%nat
    /\ Forall (fun p =>
                 isTower p = false
                 /\ forall pt, In pt (Place.points p) ->
                               FromPlaceRecord fs p pt)
              (sortedPlaces localeCompare fs).
Proof.
  intros cmp fs Hnone.
  assert (Hlayers : Forall (fun e => Place.layer (snd e) <> "Surface"%string)
                           (fst (aggregate fs))).
  { apply (aggregate_Forall
             (fun e => Place.layer (snd e) <> "Surface"%string)).
    intros file data entry places rawName locations
           Hfile Hfs Hin Hq Hn Hl Hne Hall layerName key.
    split.
    - intros place0 _ H. cbn [snd] in *.
      now destruct (placeAfter_path locations place0) as [-> _].
    - intros _. cbn [snd].
      destruct (placeAfter_path locations
                  (Place.new layerName (JS.trim rawName))) as [-> _].
      cbn [Place.new Place.layer]. subst layerName.
      simpl in Hfile.
      destruct Hfile as [<- | [<- | [<- | [<- | []]]]];
        try discriminate.
      unfold surfaceFile in Hnone. congruence. }
  assert (Htower : Forall (fun e => isTower (snd e) = false)
                          (fst (aggregate fs))).
  { eapply Forall_impl; [| exact Hlayers].
    intros e He. unfold isTower.
    destruct (String.eqb_spec (Place.layer (snd e)) "Surface");
      [contradiction | reflexivity]. }
  split.
  - destruct (aggregate_points_counter fs) as [_ [_ Hle]].
    rewrite (towerPlaces_none _ Htower) in Hle. lia.
  - pose proof (named_place_points_origin cmp fs) as Horigin.
    eapply Forall_perm; [apply Permutation_sym, sort_perm |].
    unfold sortedPlaces, JS.sortBy in Horigin.
    apply (Forall_perm _ _ _ (sort_perm _ _)) in Horigin.
    unfold JS.Map.values in *. apply Forall_map.
    rewrite Forall_map in Horigin.
    rewrite Forall_forall in *. intros e He.
    split; [now apply Htower |].
    intros pt Hpt. destruct (Horigin e He pt Hpt) as [H | [Ht _]];
      [exact H |].
    rewrite (Htower e He) in Ht. discriminate Ht.
Qed.

Lemma no_surface_file_no_launch_witness :
  let fs :=
    onlyFile "data/v1.2.0/layers/sky.json"
      [marker "Hyrule Field Skyview Tower" [at_ 100 5 200]] in
  fs surfaceFile = None
  /\ Stats.launches (snd (aggregate fs)) = 0%nat
  /\ main JS.localeCompare_letters fs
     = ("Sky/Hyrule Field Skyview Tower (5,100,200)" ++ JS.LF)%string.
Proof.
  intros fs.
  assert (Hnone : fs surfaceFile = None) by reflexivity.
  split; [exact Hnone |]. split; [| reflexivity].
  exact (proj1 (no_surface_file_no_launch JS.localeCompare_letters fs Hnone)).
Defined.

(* ================================================================== *)
(** ** Two runs on the same files *)

Section SortAgree.
Context {A : Type} (le1 le2 : A -> A -> bool).

Lemma insert_agree (a : A) (l : list A) :
  (forall b, In b l -> le1 a b = le2 a b) ->
  JS.insert le1 a l = JS.insert le2 a l.
Proof.
  induction l as [| b l IH]; intros Hab; simpl.
  - reflexivity.
  - rewrite (Hab b (or_introl eq_refl)).
    destruct (le2 a b); [reflexivity |].
    f_equal. apply IH. intros c Hc. apply Hab. now right.
Qed.

(** A sort only asks its comparator about the elements of the array. *)
Lemma sort_agree (l : list A) :
  (forall a b, In a l -> In b l -> le1 a b = le2 a b) ->
  JS.sort le1 l = JS.sort le2 l.
Proof.
  induction l as [| a l IH]; intros Hab; simpl.
  - reflexivity.
  - rewrite IH by (intros x y Hx Hy; apply Hab; now right).
    apply insert_agree. intros b Hb.
    apply Hab; [now left | right].
    eapply Permutation_in; [apply sort_perm | exact Hb].
Qed.
End SortAgree.

Lemma leb_zero_agree (x y : Z) :
  (x <= 0 <-> y <= 0) -> (x <=? 0) = (y <=? 0).
Proof.
  intros H. destruct (Z.leb_spec x 0), (Z.leb_spec y 0);
    trivial; exfalso; lia.
Qed.

Lemma localeCompare_codeUnits_total (a b : string) :
  localeCompare_codeUnits a b <= 0 \/ localeCompare_codeUnits b a <= 0.
Proof.
  unfold localeCompare_codeUnits.
  rewrite (String.compare_antisym b a).
  destruct (String.compare a b); simpl; lia.
Qed.

(** C9 (as the code has it).  Two runs of a pipeline that find the same
    parsed contents in each of the four source files build the same
    aggregate, point sets in the same insertion order included, and the
    inventory run writes the same text, whatever the host.  The
    object-location and the named-place run write the same text when the
    [localeCompare] of the two hosts order the keys that occur alike, in
    particular on one and the same host collation. *)
Theorem C9_same_input_same_collation_same_output :
  forall (localeCompare1 localeCompare2 : string -> string -> Z)
         (fs1 fs2 : FileSystem),
    (forall p, In p NamedPlaces.sourceFiles -> fs1 p = fs2 p) ->
    (NamedPlaces.aggregate fs1 = NamedPlaces.aggregate fs2
     /\ ObjectLocations.aggregate fs1 = ObjectLocations.aggregate fs2
     /\ ObjectInventory.aggregate fs1 = ObjectInventory.aggregate fs2
     /\ ObjectInventory.main fs1 = ObjectInventory.main fs2)
    /\ ((forall a b,
            In a (JS.Map.keys (ObjectLocations.aggregate fs1)) ->
            In b (JS.Map.keys (ObjectLocations.aggregate fs1)) ->
            (localeCompare1 a b <= 0 <-> localeCompare2 a b <= 0)) ->
        ObjectLocations.main localeCompare1 fs1
        = ObjectLocations.main localeCompare2 fs2)
    /\ ((forall a b,
            In a (JS.Map.keys (fst (NamedPlaces.aggregate fs1))) ->
            In b (JS.Map.keys (fst (NamedPlaces.aggregate fs1))) ->
            (localeCompare1 a b <= 0 <-> localeCompare2 a b <= 0)) ->
        NamedPlaces.main localeCompare1 fs1
        = NamedPlaces.main localeCompare2 fs2).
Proof.
  intros cmp1 cmp2 fs1 fs2 Hsame.
  destruct (same_files_same_aggregates fs1 fs2 Hsame) as [HN [HO HI]].
  split; [| split].
  - repeat split; trivial.
    unfold ObjectInventory.main, ObjectInventory.sorted. now rewrite HI.
  - intros Hcmp.
    unfold ObjectLocations.main, ObjectLocations.lines,
      ObjectLocations.sortedEntries, JS.sortBy.
    rewrite <- HO. do 3 f_equal.
    apply sort_agree. intros e1 e2 H1 H2. apply leb_zero_agree.
    apply Hcmp; unfold JS.Map.keys; now apply in_map.
  - intros Hcmp.
    unfold NamedPlaces.main, NamedPlaces.output, NamedPlaces.sortedPlaces,
      JS.sortBy.
    rewrite <- HN. do 3 f_equal.
    apply sort_agree. intros p1 p2 H1 H2. apply leb_zero_agree.
    destruct (NamedPlaces_aggregate_wf fs1) as [Hwf _].
    rewrite <- (keys_are_paths _ Hwf) in Hcmp.
    apply Hcmp; now apply in_map.
Qed.

Lemma C9_same_input_same_collation_same_output_witness :
  (forall p, In p NamedPlaces.sourceFiles ->
             twoLowercase p = twoLowercaseAndNotes p)
  /\ twoLowercase "data/v1.2.0/notes.json"
     <> twoLowercaseAndNotes "data/v1.2.0/notes.json"
  /\ (forall a b,
         In a (JS.Map.keys (ObjectLocations.aggregate twoLowercase)) ->
         In b (JS.Map.keys (ObjectLocations.aggregate twoLowercase)) ->
         (JS.localeCompare_letters a b <= 0
          <-> localeCompare_codeUnits a b <= 0))
  /\ (forall a b,
         In a (JS.Map.keys (fst (NamedPlaces.aggregate twoLowercase))) ->
         In b (JS.Map.keys (fst (NamedPlaces.aggregate twoLowercase))) ->
         (JS.localeCompare_letters a b <= 0
          <-> localeCompare_codeUnits a b <= 0))
  /\ ObjectLocations.main JS.localeCompare_letters twoLowercase
     = ObjectLocations.main localeCompare_codeUnits twoLowercaseAndNotes
  /\ NamedPlaces.main JS.localeCompare_letters twoLowercase
     = NamedPlaces.main localeCompare_codeUnits twoLowercaseAndNotes
  /\ ObjectInventory.main twoLowercase
     = ObjectInventory.main twoLowercaseAndNotes.
Proof.
  assert (Hsame : forall p, In p NamedPlaces.sourceFiles ->
                            twoLowercase p = twoLowercaseAndNotes p).
  { intros p Hin. simpl in Hin.
    destruct Hin as [<- | [<- | [<- | [<- | []]]]]; reflexivity. }
  assert (HcmpO : forall a b,
             In a (JS.Map.keys (ObjectLocations.aggregate twoLowercase)) ->
             In b (JS.Map.keys (ObjectLocations.aggregate twoLowercase)) ->
             (JS.localeCompare_letters a b <= 0
              <-> localeCompare_codeUnits a b <= 0)).
  { intros a b Ha Hb. simpl in Ha, Hb.
    destruct Ha as [<- | [<- | [<- | [<- | []]]]];
      destruct Hb as [<- | [<- | [<- | [<- | []]]]];
      vm_compute; split; intros H; exact H. }
  assert (HcmpN : forall a b,
             In a (JS.Map.keys (fst (NamedPlaces.aggregate twoLowercase))) ->
             In b (JS.Map.keys (fst (NamedPlaces.aggregate twoLowercase))) ->
             (JS.localeCompare_letters a b <= 0
              <-> localeCompare_codeUnits a b <= 0)).
  { intros a b Ha Hb. simpl in Ha, Hb.
    destruct Ha as [<- | [<- | []]]; destruct Hb as [<- | [<- | []]];
      vm_compute; split; intros H; exact H. }
  split; [exact Hsame |]. split; [discriminate |].
  split; [exact HcmpO |]. split; [exact HcmpN |].
  destruct (C9_same_input_same_collation_same_output
              JS.localeCompare_letters localeCompare_codeUnits
              twoLowercase twoLowercaseAndNotes Hsame)
    as [[_ [_ [_ HI]]] [HO HN]].
  split; [exact (HO HcmpO) |]. split; [exact (HN HcmpN) | exact HI].
Defined.

(** C9 (as the specification states it) fails across hosts: on the same
    files, a host whose [localeCompare] collates letters and a host whose
    [localeCompare] compares code units write the two object-location
    lines in opposite orders. *)
Lemma C9_two_hosts_two_texts :
  ObjectLocations.lines JS.localeCompare_letters twoObjects
  = ["apple (5,4,6)"; "Bokoblin (2,1,3)"]%string
  /\ ObjectLocations.lines localeCompare_codeUnits twoObjects
     = ["Bokoblin (2,1,3)"; "apple (5,4,6)"]%string
  /\ ObjectLocations.main JS.localeCompare_letters twoObjects
     <> ObjectLocations.main localeCompare_codeUnits twoObjects.
Proof.
  split; [reflexivity |]. split; [reflexivity |].
  vm_compute. discriminate.
Qed.
